(** * gcdiff: the structural diff engine

    A shallow embedding of the comparison core of gcdiff
    (package [config]: [Config], [Default], [ShouldIgnore];
     package [compare]: [Diff], [Differ], [Compare], [compareObjects],
     [compareValues], [compareArrays], [GetAllDiffs] and the renderers),
    and the properties of it that the specification states. *)

From Stdlib Require Import SpecFloat Ascii.
From stdpp Require Import gmap strings list fin_maps pretty sorting.

Set Warnings "-register-all".

(** ** Values

    The documents are Go values of type [map[string]interface{}].  The dynamic
    types that occur are the ones [encoding/json] decodes into ([nil], [bool],
    [float64], [string], [[]interface{}], [map[string]interface{}]) and [int],
    which the repository's tests use for numbers.  A Go map has unique keys and
    no order, which is what [gmap] is; a [float64] is an IEEE 754 datum, and
    Go's [==] on it is [SFeqb]. *)

Inductive Value : Type :=
  | VNull
  | VBool (b : bool)
  | VInt (n : Z)
  | VFloat (f : spec_float)
  | VString (s : string)
  | VArray (arr : list Value)
  | VObject (obj : gmap string Value).

Global Instance Value_inhabited : Inhabited Value := populate VNull.

(** The dynamic types: what [reflect.TypeOf] tells apart.  [compareValues]
    asks for the type of non-nil values only. *)
Inductive GoType := TBool | TInt | TFloat64 | TString | TSlice | TMap | TNil.

Global Instance GoType_eq_dec : EqDecision GoType.
Proof. solve_decision. Defined.

Definition TypeOf (v : Value) : GoType :=
  match v with
  | VNull => TNil
  | VBool _ => TBool
  | VInt _ => TInt
  | VFloat _ => TFloat64
  | VString _ => TString
  | VArray _ => TSlice
  | VObject _ => TMap
  end.

(** [v == nil] on an [interface{}]. *)
Definition isNil (v : Value) : bool :=
  match v with VNull => true | _ => false end.

(** [reflect.DeepEqual] at the arguments the [default] case of
    [compareValues] passes to it: two non-nil values of the same dynamic type
    that is neither a map nor a slice.  There it is Go's [==]. *)
Definition DeepEqual (v1 v2 : Value) : bool :=
  match v1, v2 with
  | VBool a, VBool b => Bool.eqb a b
  | VInt a, VInt b => Z.eqb a b
  | VFloat a, VFloat b => SFeqb a b
  | VString a, VString b => String.eqb a b
  | _, _ => false
  end.

(** ** Package config *)

Record Config := mkConfig {
  IgnoreFields : list string;
  IgnorePatterns : list string
}.

Definition Default : Config :=
  {| IgnoreFields :=
       ["id"; "selfLink"; "creationTimestamp"; "lastModifiedTimestamp";
        "fingerprint"; "kind"; "etag"];
     IgnorePatterns := [".*Timestamp$"; ".*Fingerprint$"] |}.

(** The loop of [ShouldIgnore] over [c.IgnoreFields]. *)
Fixpoint ShouldIgnore_fields (fields : list string) (fieldPath : string) : bool :=
  match fields with
  | [] => false
  | field :: rest =>
      if String.eqb field fieldPath then true
      else ShouldIgnore_fields rest fieldPath
  end.

(** [IgnorePatterns] is not read: the source has a TODO in its place. *)
Definition ShouldIgnore (c : Config) (fieldPath : string) : bool :=
  ShouldIgnore_fields (IgnoreFields c) fieldPath.

(** ** Package compare: the difference tree *)

Inductive DiffType :=
  | DiffTypeAdded
  | DiffTypeRemoved
  | DiffTypeModified
  | DiffTypeEqual.

Global Instance DiffType_eq_dec : EqDecision DiffType.
Proof. solve_decision. Defined.

(** [Value1] and [Value2] are [interface{}] fields: unset is [nil], here
    [VNull].  [Children] unset ([nil] map) and [make(map)] are both the empty
    map; no function of the package tells them apart except
    [getTopLevelDiffs], which makes the map when it is [nil]. *)
Inductive Diff : Type := mkDiff {
  Path : string;
  Type_ : DiffType;
  Value1 : Value;
  Value2 : Value;
  Children : gmap string Diff
}.

Record Differ := mkDiffer {
  config : Config;
  showAll : bool
}.

Definition NewDiffer (cfg : option Config) (showAll : bool) : Differ :=
  {| config := match cfg with Some c => c | None => Default end;
     showAll := showAll |}.

(** [&Diff{Path: path, Type: t, Value1: v1, Value2: v2}] *)
Definition leaf (path : string) (t : DiffType) (v1 v2 : Value) : Diff :=
  mkDiff path t v1 v2 ∅.

(** [diff.Children[key] = child; diff.Type = DiffTypeModified] *)
Definition setChild (key : string) (child : Diff) (diff : Diff) : Diff :=
  mkDiff (Path diff) DiffTypeModified (Value1 diff) (Value2 diff)
         (<[key := child]> (Children diff)).

(** [if childDiff.Type != DiffTypeEqual { ... }] *)
Definition setChildIfChanged (key : string) (childDiff : Diff) (diff : Diff) : Diff :=
  if decide (Type_ childDiff = DiffTypeEqual) then diff
  else setChild key childDiff diff.

(** The two early returns of [compareValues] when [val1 == nil]. *)
Definition compareNil (val2 : Value) (path : string) : Diff :=
  if isNil val2 then leaf path DiffTypeEqual VNull VNull
  else leaf path DiffTypeAdded VNull val2.

Definition fieldPathOf (path key : string) : string :=
  if decide (path = "") then key else path +:+ "." +:+ key.

(** The body of [for key := range keys] in [compareObjects].  [cmp1] holds,
    for every key of [obj1], the comparison of its value with a second
    value: [cmp1 !! key = Some (compareValues d val1)]. *)
Definition compareObjects_step (d : Differ)
    (cmp1 : gmap string (Value → string → Diff))
    (obj1 obj2 : gmap string Value) (path : string)
    (diff : Diff) (key : string) : Diff :=
  let fieldPath := fieldPathOf path key in
  if negb (showAll d) && ShouldIgnore (config d) fieldPath then diff
  else
    match obj1 !! key, obj2 !! key with
    | None, Some val2 =>
        setChild key (leaf fieldPath DiffTypeAdded VNull val2) diff
    | Some val1, None =>
        setChild key (leaf fieldPath DiffTypeRemoved val1 VNull) diff
    | _, o2 =>
        let val2 := default VNull o2 in
        let childDiff := default compareNil (cmp1 !! key) val2 fieldPath in
        setChildIfChanged key childDiff diff
    end.

(** The keys of both objects, in the order in which the [range] over the
    map [keys] yields them.  Go leaves that order open;
    [compareObjects_loop_order] shows that it does not matter. *)
Definition objectKeys (obj1 obj2 : gmap string Value) : list string :=
  elements (dom obj1 ∪ dom obj2).

Definition compareObjects_loop (d : Differ)
    (cmp1 : gmap string (Value → string → Diff))
    (obj1 obj2 : gmap string Value) (path : string)
    (keys : list string) : Diff :=
  foldl (compareObjects_step d cmp1 obj1 obj2 path)
        (mkDiff path DiffTypeEqual VNull VNull ∅) keys.

(** [fmt.Sprintf("[%d]", i)] *)
Definition indexKey (i : nat) : string := "[" +:+ pretty i +:+ "]".

(** The body of [for i := 0; i < maxLen; i++] in [compareArrays]; [cmp1] is
    [compareValues d] mapped over [arr1].  The guards keep every index that
    is read in range. *)
Definition compareArrays_step (d : Differ)
    (cmp1 : list (Value → string → Diff))
    (arr1 arr2 : list Value) (path : string)
    (diff : Diff) (i : nat) : Diff :=
  let indexPath := path +:+ indexKey i in
  let key := indexKey i in
  if bool_decide (i < length arr1)%nat && bool_decide (i < length arr2)%nat then
    let childDiff := default compareNil (cmp1 !! i) (arr2 !!! i) indexPath in
    setChildIfChanged key childDiff diff
  else if bool_decide (length arr1 ≤ i)%nat then
    setChild key (leaf indexPath DiffTypeAdded VNull (arr2 !!! i)) diff
  else
    setChild key (leaf indexPath DiffTypeRemoved (arr1 !!! i) VNull) diff.

(** [maxLen := len(arr1); if len(arr2) > maxLen { maxLen = len(arr2) }] *)
Definition maxLen (arr1 arr2 : list Value) : nat :=
  if bool_decide (length arr1 < length arr2)%nat
  then length arr2 else length arr1.

Definition compareArrays_loop (d : Differ)
    (cmp1 : list (Value → string → Diff))
    (arr1 arr2 : list Value) (path : string) : Diff :=
  foldl (compareArrays_step d cmp1 arr1 arr2 path)
        (mkDiff path DiffTypeEqual VNull VNull ∅)
        (seq 0 (maxLen arr1 arr2)).

(** [compareValues], with the two functions it is mutually recursive with
    inlined as their loops.  The recursive calls on the members of [val1]
    are made through [compareValues d <$> _]. *)
Fixpoint compareValues (d : Differ) (val1 val2 : Value) (path : string)
    {struct val1} : Diff :=
  if isNil val1 && isNil val2 then leaf path DiffTypeEqual VNull VNull
  else if isNil val1 then leaf path DiffTypeAdded VNull val2
  else if isNil val2 then leaf path DiffTypeRemoved val1 VNull
  else if negb (bool_decide (TypeOf val1 = TypeOf val2)) then
    leaf path DiffTypeModified val1 val2
  else
    match val1 with
    | VObject v1 =>
        match val2 with
        | VObject v2 =>
            compareObjects_loop d (compareValues d <$> v1) v1 v2 path
                                (objectKeys v1 v2)
        | _ => leaf path DiffTypeModified val1 val2
        end
    | VArray v1 =>
        match val2 with
        | VArray v2 =>
            compareArrays_loop d (compareValues d <$> v1) v1 v2 path
        | _ => leaf path DiffTypeModified val1 val2
        end
    | _ =>
        if DeepEqual val1 val2 then leaf path DiffTypeEqual VNull VNull
        else leaf path DiffTypeModified val1 val2
    end.

Definition compareObjects (d : Differ) (obj1 obj2 : gmap string Value)
    (path : string) : Diff :=
  compareObjects_loop d (compareValues d <$> obj1) obj1 obj2 path
                      (objectKeys obj1 obj2).

Definition compareArrays (d : Differ) (arr1 arr2 : list Value)
    (path : string) : Diff :=
  compareArrays_loop d (compareValues d <$> arr1) arr1 arr2 path.

Definition Compare (d : Differ) (obj1 obj2 : gmap string Value) : Diff :=
  compareObjects d obj1 obj2 "".

(** [sort.Strings]: ascending in the byte-wise order of Go's [<] on strings. *)
Definition sortStrings (keys : list string) : list string :=
  merge_sort String.le keys.

(** [GetAllDiffs].  [keys] is filled by a [range] over [diff.Children] and
    then sorted; [sub] holds the results of the recursive calls, which the
    loop over [keys] appends in order. *)
Fixpoint GetAllDiffs (diff : Diff) : list Diff :=
  let own :=
    if bool_decide (Type_ diff ≠ DiffTypeEqual) && bool_decide (size (Children diff) = 0)
    then [diff] else [] in
  let keys := sortStrings (map_to_list (Children diff)).*1 in
  let sub := GetAllDiffs <$> Children diff in
  own ++ (keys ≫= λ key, default [] (sub !! key)).

(** ** The hierarchical renderer, on the heap

    [PrintGitStyleDiffV2] takes a [*Diff], and [getTopLevelDiffs] stores into
    the nodes it is given; so the renderer is modelled on a heap of nodes
    whose children are pointers.  A [range] over a Go map yields the keys in
    an order that Go leaves open and that changes from one loop to the
    next: the world holds, for every such loop still to come, the order it
    will take. *)

Definition loc := nat.

Record Node := mkNode {
  nodePath : string;
  nodeType : DiffType;
  nodeValue1 : Value;
  nodeValue2 : Value;
  nodeChildren : gmap string loc
}.

Record World := mkWorld {
  heap : list Node;
  ranges : list (list string);
  out : string
}.

Inductive Outcome (A : Type) : Type :=
  | Done (a : A) (w : World)
  | OutOfFuel
  | NilDeref.
Arguments Done {A} a w.
Arguments OutOfFuel {A}.
Arguments NilDeref {A}.

Definition M (A : Type) : Type := World → Outcome A.

Definition ret {A} (a : A) : M A := λ w, Done a w.

Definition bind {A B} (m : M A) (k : A → M B) : M B :=
  λ w, match m w with
       | Done a w' => k a w'
       | OutOfFuel => OutOfFuel
       | NilDeref => NilDeref
       end.

Notation "'do' x <- m ; k" := (bind m (λ x, k))
  (at level 10, x name, m at level 100, k at level 200).
Notation "m ;; k" := (bind m (λ _, k))
  (at level 100, k at level 200, right associativity).

(** [fmt.Fprintf(w, ...)]: the text is appended to what was written. *)
Definition write (s : string) : M unit :=
  λ w, Done () (mkWorld (heap w) (ranges w) (out w +:+ s)).

(** [*p] *)
Definition deref (p : loc) : M Node :=
  λ w, match heap w !! p with
       | Some n => Done n w
       | None => NilDeref
       end.

(** [*p = n] *)
Definition assign (p : loc) (n : Node) : M unit :=
  λ w, Done () (mkWorld (<[p := n]> (heap w)) (ranges w) (out w)).

Definition mapKeys {A} (m : gmap string A) : list string :=
  (map_to_list m).*1.

(** The keys of [m] in the order in which the next [range] over it yields
    them: the next order of the world when that is an order of these keys.
    The two loops whose order can show take their order from here: the one
    of [getTopLevelDiffs] and the first one of [printArrayDiff]. *)
Definition rangeKeys {A} (m : gmap string A) : M (list string) :=
  λ w, match ranges w with
       | order :: rest =>
           Done (if bool_decide (order ≡ₚ mapKeys m) then order else mapKeys m)
                (mkWorld (heap w) rest (out w))
       | [] => Done (mapKeys m) w
       end.

Fixpoint forEach {A} (l : list A) (body : A → M unit) : M unit :=
  match l with
  | [] => ret ()
  | x :: rest => body x ;; forEach rest body
  end.

(** [strings.Repeat] *)
Fixpoint Repeat (s : string) (count : nat) : string :=
  match count with
  | 0 => ""
  | S n => s +:+ Repeat s n
  end.

(** [path[:idx]] for the first [idx] at which [path] has ['.'] or ['['],
    and [path] when there is none. *)
Fixpoint extractTopLevelField (path : string) : string :=
  match path with
  | EmptyString => EmptyString
  | String c rest =>
      if bool_decide (c = "."%char ∨ c = "["%char) then EmptyString
      else String c (extractTopLevelField rest)
  end.

(** [getSortedKeys] *)
Definition getSortedKeys {A} (m : gmap string A) : list string :=
  sortStrings (mapKeys m).

(** [getTopLevelDiffs].  In the merge branch [existing] is a pointer into
    the tree: the two stores change the tree. *)
Definition getTopLevelDiffs_step (children : gmap string loc)
    (result : gmap string loc) (key : string) : M (gmap string loc) :=
  match children !! key with
  | None => ret result
  | Some child =>
      let topField := extractTopLevelField key in
      match result !! topField with
      | Some existing =>
          do e <- deref existing;
          assign existing
            (mkNode (nodePath e) (nodeType e) (nodeValue1 e) (nodeValue2 e)
                    (<[key := child]> (nodeChildren e))) ;;
          do c <- deref child;
          (if decide (nodeType c ≠ DiffTypeEqual) then
             do e' <- deref existing;
             assign existing
               (mkNode (nodePath e') DiffTypeModified (nodeValue1 e')
                       (nodeValue2 e') (nodeChildren e'))
           else ret ()) ;;
          ret result
      | None => ret (<[topField := child]> result)
      end
  end.

Fixpoint getTopLevelDiffs_loop (children : gmap string loc)
    (result : gmap string loc) (keys : list string) : M (gmap string loc) :=
  match keys with
  | [] => ret result
  | key :: rest =>
      do result' <- getTopLevelDiffs_step children result key;
      getTopLevelDiffs_loop children result' rest
  end.

Definition getTopLevelDiffs (diff : loc) : M (gmap string loc) :=
  do d <- deref diff;
  do keys <- rangeKeys (nodeChildren d);
  getTopLevelDiffs_loop (nodeChildren d) ∅ keys.

(** [isArrayDiff] *)
Definition isArrayDiff (n : Node) : bool :=
  negb (bool_decide (size (nodeChildren n) = 0)) &&
  forallb (String.prefix "[") (mapKeys (nodeChildren n)).

(** A colour of [fatih/color]: what its [SprintFunc] puts before and after
    the text.  With [color.NoColor] both are empty. *)
Record Color := mkColor {
  colorFormat : string;
  colorUnformat : string
}.

Definition sprint (c : Color) (s : string) : string :=
  colorFormat c +:+ s +:+ colorUnformat c.

Definition newline : string := String "010"%char EmptyString.

(** [strings.Split(s, "\n")] *)
Fixpoint SplitLines (s : string) : list string :=
  match s with
  | EmptyString => [EmptyString]
  | String c rest =>
      if bool_decide (c = "010"%char) then EmptyString :: SplitLines rest
      else match SplitLines rest with
           | line :: lines => String c line :: lines
           | [] => [String c EmptyString]
           end
  end.

Section Renderer.

(** The package-level colours of the renderers. *)
Context (green red yellow cyan bold : Color).

(** The formatting functions of the Go library that the renderers call:
    [fmt.Sprintf("%q", v)], [fmt.Sprintf("%v", value)], [json.Marshal]
    (empty when it fails), [json.MarshalIndent(v, indent, "  ")] ([None]
    when it fails), and the [idx] that [fmt.Sscanf(key, "[%d]", &idx)]
    leaves. *)
Context (Sprintf_q : string → string).
Context (Sprintf_v : Value → string).
Context (Marshal : Value → string).
Context (MarshalIndent : Value → string → option string).
Context (Sscanf_index : string → Z).

(** [printValue] *)
Definition printValue (indent : string) (value : Value) (colorFunc : Color)
    : M unit :=
  match value with
  | VNull => write (sprint colorFunc "<nil>" +:+ newline)
  | VObject _ | VArray _ =>
      match MarshalIndent value indent with
      | None => write (sprint colorFunc (Sprintf_v value) +:+ newline)
      | Some jsonBytes =>
          forEach (imap (λ i line, (i, line)) (SplitLines jsonBytes))
            (λ il, if decide (il.1 = 0) then
                     write (sprint colorFunc il.2 +:+ newline)
                   else
                     write (indent +:+ sprint colorFunc il.2 +:+ newline))
      end
  | VString v => write (sprint colorFunc (Sprintf_q v) +:+ newline)
  | _ => write (sprint colorFunc (Sprintf_v value) +:+ newline)
  end.

(** [printInlineValue] *)
Definition printInlineValue (value : Value) (colorFunc : Color) : M unit :=
  match value with
  | VNull => write (sprint colorFunc "<nil>" +:+ newline)
  | VObject _ | VArray _ => write (sprint colorFunc (Marshal value) +:+ newline)
  | VString v => write (sprint colorFunc (Sprintf_q v) +:+ newline)
  | _ => write (sprint colorFunc (Sprintf_v value) +:+ newline)
  end.

(** [printNestedChange]; [fuel] bounds the depth of the recursion. *)
Fixpoint printNestedChange (fuel : nat) (indent key : string) (diff : loc)
    : M unit :=
  match fuel with
  | 0 => λ _, OutOfFuel
  | S fuel' =>
      do d <- deref diff;
      match nodeType d with
      | DiffTypeAdded =>
          write (indent +:+ "  " +:+ sprint green "+" +:+ " " +:+ key +:+ ": ") ;;
          printInlineValue (nodeValue2 d) green
      | DiffTypeRemoved =>
          write (indent +:+ "  " +:+ sprint red "-" +:+ " " +:+ key +:+ ": ") ;;
          printInlineValue (nodeValue1 d) red
      | DiffTypeModified =>
          write (indent +:+ "  " +:+ sprint yellow "~" +:+ " " +:+ key +:+ newline) ;;
          if negb (bool_decide (size (nodeChildren d) = 0)) then
            forEach (getSortedKeys (nodeChildren d)) (λ childKey,
              match nodeChildren d !! childKey with
              | Some child =>
                  printNestedChange fuel' (indent +:+ "  ") childKey child
              | None => λ _, NilDeref
              end)
          else
            write (indent +:+ "      " +:+ sprint red "-" +:+ " ") ;;
            printInlineValue (nodeValue1 d) red ;;
            write (indent +:+ "      " +:+ sprint green "+" +:+ " ") ;;
            printInlineValue (nodeValue2 d) green
      | DiffTypeEqual => ret ()
      end
  end.

(** The first loop of [printArrayDiff]: [indices] and [childMap]. *)
Definition collectIndices (children : gmap string loc) (keys : list string)
    : list Z * gmap Z loc :=
  foldl (λ acc key,
           match children !! key with
           | Some child =>
               let idx := Sscanf_index key in
               (acc.1 ++ [idx], <[idx := child]> acc.2)
           | None => acc
           end) ([], ∅) keys.

(** [printArrayDiff] *)
Definition printArrayDiff (fuel : nat) (fieldName : string) (arrayDiff : loc)
    (indent : nat) : M unit :=
  let indentStr := Repeat "  " indent in
  write (indentStr +:+ sprint yellow "~" +:+ " " +:+ sprint cyan fieldName +:+
         " (array with changes)" +:+ newline) ;;
  do d <- deref arrayDiff;
  do keys <- rangeKeys (nodeChildren d);
  let collected := collectIndices (nodeChildren d) keys in
  let indices := merge_sort Z.le collected.1 in
  let childMap := collected.2 in
  forEach indices (λ idx,
    match childMap !! idx with
    | None => λ _, NilDeref
    | Some child =>
        let elementIndent := indentStr +:+ "    " in
        do c <- deref child;
        match nodeType c with
        | DiffTypeAdded =>
            write (elementIndent +:+ sprint green "+" +:+ " [" +:+ pretty idx +:+ "] ") ;;
            printInlineValue (nodeValue2 c) green
        | DiffTypeRemoved =>
            write (elementIndent +:+ sprint red "-" +:+ " [" +:+ pretty idx +:+ "] ") ;;
            printInlineValue (nodeValue1 c) red
        | DiffTypeModified =>
            if negb (bool_decide (size (nodeChildren c) = 0)) then
              write (elementIndent +:+ sprint yellow "~" +:+ " [" +:+ pretty idx +:+
                     "] (modified)" +:+ newline) ;;
              forEach (getSortedKeys (nodeChildren c)) (λ childKey,
                match nodeChildren c !! childKey with
                | Some childDiff =>
                    printNestedChange fuel (elementIndent +:+ "  ") childKey childDiff
                | None => λ _, NilDeref
                end)
            else
              write (elementIndent +:+ sprint yellow "~" +:+ " [" +:+ pretty idx +:+ "]" +:+ newline) ;;
              write (elementIndent +:+ "    " +:+ sprint red "-" +:+ " ") ;;
              printInlineValue (nodeValue1 c) red ;;
              write (elementIndent +:+ "    " +:+ sprint green "+" +:+ " ") ;;
              printInlineValue (nodeValue2 c) green
        | DiffTypeEqual => ret ()
        end
    end).

(** [printFieldDiff]; [fuel] bounds the depth of the recursion. *)
Fixpoint printFieldDiff (fuel : nat) (fieldName : string) (fieldDiff : loc)
    (indent : nat) : M unit :=
  match fuel with
  | 0 => λ _, OutOfFuel
  | S fuel' =>
      let indentStr := Repeat "  " indent in
      do d <- deref fieldDiff;
      if isArrayDiff d then printArrayDiff fuel' fieldName fieldDiff indent
      else if negb (bool_decide (size (nodeChildren d) = 0)) &&
              bool_decide (nodeType d = DiffTypeModified) then
        write (indentStr +:+ sprint yellow "~" +:+ " " +:+ sprint cyan fieldName +:+ newline) ;;
        forEach (getSortedKeys (nodeChildren d)) (λ childKey,
          match nodeChildren d !! childKey with
          | Some childDiff => printFieldDiff fuel' childKey childDiff (S indent)
          | None => λ _, NilDeref
          end)
      else
        match nodeType d with
        | DiffTypeAdded =>
            write (indentStr +:+ sprint green "+" +:+ " " +:+ sprint cyan fieldName +:+ newline) ;;
            printValue (indentStr +:+ "    ") (nodeValue2 d) green
        | DiffTypeRemoved =>
            write (indentStr +:+ sprint red "-" +:+ " " +:+ sprint cyan fieldName +:+ newline) ;;
            printValue (indentStr +:+ "    ") (nodeValue1 d) red
        | DiffTypeModified =>
            write (indentStr +:+ sprint yellow "~" +:+ " " +:+ sprint cyan fieldName +:+ newline) ;;
            write (indentStr +:+ "    " +:+ sprint red "-" +:+ " ") ;;
            printValue (indentStr +:+ "      ") (nodeValue1 d) red ;;
            write (indentStr +:+ "    " +:+ sprint green "+" +:+ " ") ;;
            printValue (indentStr +:+ "      ") (nodeValue2 d) green
        | DiffTypeEqual => ret ()
        end
  end.

Definition noDifferences : string :=
  sprint green "✓ No differences found" +:+ newline.

(** [PrintGitStyleDiffV2]; what it writes is [out] of the world it ends in. *)
Definition PrintGitStyleDiffV2 (fuel : nat) (diff : loc) (name1 name2 : string)
    : M unit :=
  write (sprint bold ("Comparing: " +:+ name1 +:+ " <-> " +:+ name2) +:+ newline) ;;
  write (Repeat "-" 80 +:+ newline) ;;
  do d <- deref diff;
  if decide (nodeType d = DiffTypeEqual) then write noDifferences
  else
    do topLevelDiffs <- getTopLevelDiffs diff;
    if decide (size topLevelDiffs = 0) then write noDifferences
    else
      write newline ;;
      forEach (getSortedKeys topLevelDiffs) (λ fieldName,
        match topLevelDiffs !! fieldName with
        | Some fieldDiff =>
            printFieldDiff fuel fieldName fieldDiff 0 ;;
            write newline
        | None => λ _, NilDeref
        end).

(** What a sequence of writes leaves in [out]. *)
Definition written (chunks : list string) : string :=
  foldl String.app "" chunks.

(** *** What the renderer writes for the tree used below *)

Definition headerText (name1 name2 : string) : list string :=
  [sprint bold ("Comparing: " +:+ name1 +:+ " <-> " +:+ name2) +:+ newline;
   Repeat "-" 80 +:+ newline;
   newline].

(** The change [1 -> 2] of a leaf, as [printFieldDiff] writes it at
    indentation 1 under the name [fieldName]. *)
Definition nestedLeafText (fieldName : string) : list string :=
  ["  " +:+ sprint yellow "~" +:+ " " +:+ sprint cyan fieldName +:+ newline;
   "      " +:+ sprint red "-" +:+ " ";
   sprint red (Sprintf_v (VInt 1)) +:+ newline;
   "      " +:+ sprint green "+" +:+ " ";
   sprint green (Sprintf_v (VInt 2)) +:+ newline].

Definition textAFirst (name1 name2 : string) : string :=
  written (headerText name1 name2 ++
           [sprint yellow "~" +:+ " " +:+ sprint cyan "a" +:+ newline] ++
           nestedLeafText "a.b" ++ [newline]).

Definition textABFirst (name1 name2 : string) : string :=
  written (headerText name1 name2 ++
           [sprint yellow "~" +:+ " " +:+ sprint cyan "a" +:+ newline] ++
           nestedLeafText "a" ++ [newline]).

End Renderer.

(** ** Difference trees on the heap *)

(** The tree [d] built on the heap [h] as [Compare] builds it, every node
    new; the pointer to its root and the heap with the tree in it. *)
Fixpoint alloc (d : Diff) (h : list Node) : loc * list Node :=
  let built :=
    map_fold (λ key child (acc : gmap string loc * list Node),
                let sub := alloc child acc.2 in
                (<[key := sub.1]> acc.1, sub.2))
             (∅, h) (Children d) in
  (length built.2,
   built.2 ++ [mkNode (Path d) (Type_ d) (Value1 d) (Value2 d) built.1]).

(** * Notions for the statements *)

(** ** Sizes, for induction on values and on difference trees *)

Fixpoint value_size (v : Value) : nat :=
  match v with
  | VArray arr => S (foldr (λ x acc, value_size x + acc) 0 arr)
  | VObject obj => S (map_fold (λ _ x acc, value_size x + acc) 0 obj)
  | _ => 1
  end.

Fixpoint diff_size (d : Diff) : nat :=
  S (map_fold (λ _ c acc, diff_size c + acc) 0 (Children d)).

(** ** The two loops, key by key

    Both loops leave [diff] alone or store one child under one key; what they
    store depends on the key alone. *)

Definition put {K : Type} (keyOf : K → string) (child : K → option Diff)
    (diff : Diff) (k : K) : Diff :=
  match child k with
  | None => diff
  | Some c => setChild (keyOf k) c diff
  end.

(** A node as the loops build it: no payload, and [Modified] exactly when
    it has a child. *)
Definition container (path : string) (diff : Diff) : Prop :=
  Path diff = path ∧ Value1 diff = VNull ∧ Value2 diff = VNull ∧
  ((Type_ diff = DiffTypeEqual ∧ Children diff = ∅) ∨
   (Type_ diff = DiffTypeModified ∧ Children diff ≠ ∅)).

(** What [compareObjects] stores under [key]. *)
Definition objectChild (d : Differ) (obj1 obj2 : gmap string Value)
    (path key : string) : option Diff :=
  let fieldPath := fieldPathOf path key in
  if negb (showAll d) && ShouldIgnore (config d) fieldPath then None
  else
    match obj1 !! key, obj2 !! key with
    | None, None => None
    | None, Some val2 => Some (leaf fieldPath DiffTypeAdded VNull val2)
    | Some val1, None => Some (leaf fieldPath DiffTypeRemoved val1 VNull)
    | Some val1, Some val2 =>
        let childDiff := compareValues d val1 val2 fieldPath in
        if decide (Type_ childDiff = DiffTypeEqual) then None
        else Some childDiff
    end.

(** What [compareArrays] stores under [indexKey i]. *)
Definition arrayChild (d : Differ) (arr1 arr2 : list Value)
    (path : string) (i : nat) : option Diff :=
  let indexPath := path +:+ indexKey i in
  match arr1 !! i, arr2 !! i with
  | None, None => None
  | None, Some val2 => Some (leaf indexPath DiffTypeAdded VNull val2)
  | Some val1, None => Some (leaf indexPath DiffTypeRemoved val1 VNull)
  | Some val1, Some val2 =>
      let childDiff := compareValues d val1 val2 indexPath in
      if decide (Type_ childDiff = DiffTypeEqual) then None
      else Some childDiff
  end.

(** ** Well-formed documents *)

Definition isNaN (f : spec_float) : bool :=
  match f with S754_nan => true | _ => false end.

(** A [float64] that [encoding/json] can decode is not a NaN.  A value is
    well formed when no number in it is one. *)
Fixpoint wellFormed (v : Value) : bool :=
  match v with
  | VFloat f => negb (isNaN f)
  | VArray arr => forallb wellFormed arr
  | VObject obj => map_fold (λ _ x acc, wellFormed x && acc) true obj
  | _ => true
  end.

(** [nullFree v]: no member of [v], at any depth, is an explicit null. *)
Fixpoint nullFree (v : Value) : bool :=
  match v with
  | VArray arr => forallb (λ x, negb (isNil x) && nullFree x) arr
  | VObject obj =>
      map_fold (λ _ x acc, negb (isNil x) && nullFree x && acc) true obj
  | _ => true
  end.

(** ** The nodes of a difference tree *)

(** Every node of the tree, the root first. *)
Fixpoint nodes (d : Diff) : list Diff :=
  d :: mjoin (snd <$> map_to_list (nodes <$> Children d)).

(** ** The shape of the trees that [compareValues] returns

    [strict1] ([strict2]) records that the first (second) operand holds no
    explicit null among its members. *)

Inductive Compared (strict1 strict2 : bool) : Diff → Prop :=
  | Compared_added path val2 :
      (strict2 = true → val2 ≠ VNull) →
      Compared strict1 strict2 (leaf path DiffTypeAdded VNull val2)
  | Compared_removed path val1 :
      (strict1 = true → val1 ≠ VNull) →
      Compared strict1 strict2 (leaf path DiffTypeRemoved val1 VNull)
  | Compared_modified path val1 val2 :
      val1 ≠ VNull → val2 ≠ VNull →
      Compared strict1 strict2 (leaf path DiffTypeModified val1 val2)
  | Compared_container path diff :
      container path diff →
      (∀ k c, Children diff !! k = Some c →
              Compared strict1 strict2 c ∧ Type_ c ≠ DiffTypeEqual) →
      Compared strict1 strict2 diff.

(** ** Payloads *)



(** ** The other side of a comparison *)

Definition swapType (t : DiffType) : DiffType :=
  match t with
  | DiffTypeAdded => DiffTypeRemoved
  | DiffTypeRemoved => DiffTypeAdded
  | DiffTypeModified => DiffTypeModified
  | DiffTypeEqual => DiffTypeEqual
  end.

(** The same tree read from the other side: at every node the kind is
    swapped and the payloads change places. *)
Fixpoint mirror (d : Diff) : Diff :=
  mkDiff (Path d) (swapType (Type_ d)) (Value2 d) (Value1 d)
         (mirror <$> Children d).

(** ** Ignoring *)

(** The test of [compareObjects] that skips a key. *)
Definition ignores (d : Differ) (fieldPath : string) : bool :=
  negb (showAll d) && ShouldIgnore (config d) fieldPath.

(** [cfg.IgnoreFields = append(cfg.IgnoreFields, path)] *)
Definition addIgnore (path : string) (c : Config) : Config :=
  mkConfig (IgnoreFields c ++ [path]) (IgnorePatterns c).

(** The leaves below the child stored under [key]. *)
Definition leafCount (children : gmap string Diff) (key : string) : nat :=
  match children !! key with
  | Some child => length (GetAllDiffs child)
  | None => 0
  end.

(** ** Documents and trees used as examples *)

Definition sampleInstance : gmap string Value :=
  {[ "name" := VString "test";
     "value" := VInt 123;
     "cpu" := VFloat (S754_finite false 3 (-1));
     "active" := VBool true;
     "note" := VNull;
     "tags" := VArray [VString "a"; VString "b"];
     "metadata" := VObject {[ "version" := VString "1.0" ]} ]}.

Definition nestedChange1 : gmap string Value :=
  {[ "name" := VString "a";
     "metadata" := VObject {[ "version" := VString "1.0" ]} ]}.
Definition nestedChange2 : gmap string Value :=
  {[ "name" := VString "a";
     "metadata" := VObject {[ "version" := VString "2.0" ]} ]}.


Definition added1 : gmap string Value := {[ "name" := VString "a" ]}.
Definition added2 : gmap string Value :=
  {[ "name" := VString "a"; "zone" := VString "z1" ]}.

Definition shifted1 : gmap string Value :=
  {[ "a" := VArray [VInt 1; VInt 2; VInt 3] ]}.
Definition shifted2 : gmap string Value :=
  {[ "a" := VArray [VInt 0; VInt 1; VInt 2; VInt 3] ]}.

Definition elevenItems : gmap string Value :=
  {[ "a" := VArray (VInt <$> [0; 1; 2; 3; 4; 5; 6; 7; 8; 9; 10]%Z) ]}.
Definition noItems : gmap string Value := {[ "a" := VArray [] ]}.

Definition dotted1 : gmap string Value := {[ "a" := VInt 1; "a.b" := VInt 1 ]}.
Definition dotted2 : gmap string Value := {[ "a" := VInt 2; "a.b" := VInt 2 ]}.

(** [Compare({"a":1, "a.b":1}, {"a":2, "a.b":2})] under the default
    configuration. *)
Definition dottedTree : Diff := Compare (NewDiffer None false) dotted1 dotted2.

Definition nodeA (children : gmap string loc) : Node :=
  mkNode "a" DiffTypeModified (VInt 1) (VInt 2) children.
Definition nodeAB (children : gmap string loc) : Node :=
  mkNode "a.b" DiffTypeModified (VInt 1) (VInt 2) children.
Definition dottedRoot : Node :=
  mkNode "" DiffTypeModified VNull VNull {[ "a" := 0; "a.b" := 1 ]}.

(** The heap with [dottedTree] in it, the root at [2]. *)
Definition dottedHeap : list Node := [nodeA ∅; nodeAB ∅; dottedRoot].
(** The heap after a rendering whose [range] yielded ["a"] first: [a.b] has
    become a child of [a]. *)
Definition heapAfterAFirst : list Node :=
  [nodeA {[ "a.b" := 1 ]}; nodeAB ∅; dottedRoot].
(** The heap after a rendering whose [range] yielded ["a.b"] first. *)
Definition heapAfterABFirst : list Node :=
  [nodeA ∅; nodeAB {[ "a" := 0 ]}; dottedRoot].
(** The heap after one rendering of each kind: [a] and [a.b] are children
    of each other. *)
Definition heapAfterBoth : list Node :=
  [nodeA {[ "a.b" := 1 ]}; nodeAB {[ "a" := 0 ]}; dottedRoot].

(** ** Documents that are the same for the differ *)

(** The same keys at every level, arrays of the same length, and scalars
    that Go's [==] equates. *)
Inductive sameValue : Value → Value → Prop :=
  | same_null : sameValue VNull VNull
  | same_bool b : sameValue (VBool b) (VBool b)
  | same_int n : sameValue (VInt n) (VInt n)
  | same_float f1 f2 : SFeqb f1 f2 = true → sameValue (VFloat f1) (VFloat f2)
  | same_string s : sameValue (VString s) (VString s)
  | same_array arr1 arr2 :
      Forall2 sameValue arr1 arr2 → sameValue (VArray arr1) (VArray arr2)
  | same_object obj1 obj2 :
      (∀ key, option_Forall2 sameValue (obj1 !! key) (obj2 !! key)) →
      sameValue (VObject obj1) (VObject obj2).

(** No [float64] at any depth. *)
Fixpoint floatFree (v : Value) : bool :=
  match v with
  | VFloat _ => false
  | VArray arr => forallb floatFree arr
  | VObject obj => map_fold (λ _ x acc, floatFree x && acc) true obj
  | _ => true
  end.


Definition nullChild1 : gmap string Value :=
  {[ "name" := VString "a"; "labels" := VNull ]}.
Definition nullChild2 : gmap string Value :=
  {[ "name" := VString "a"; "labels" := VObject {[ "env" := VString "prod" ]} ]}.

(** ** The differ under an arbitrary iteration order

    [compareValues] again, with the order in which [for key := range keys]
    yields the keys of two objects given by [range] at every level. *)
Fixpoint compareValuesUnder
    (range : gmap string Value → gmap string Value → list string)
    (d : Differ) (val1 val2 : Value) (path : string) {struct val1} : Diff :=
  if isNil val1 && isNil val2 then leaf path DiffTypeEqual VNull VNull
  else if isNil val1 then leaf path DiffTypeAdded VNull val2
  else if isNil val2 then leaf path DiffTypeRemoved val1 VNull
  else if negb (bool_decide (TypeOf val1 = TypeOf val2)) then
    leaf path DiffTypeModified val1 val2
  else
    match val1 with
    | VObject v1 =>
        match val2 with
        | VObject v2 =>
            compareObjects_loop d (compareValuesUnder range d <$> v1) v1 v2 path
                                (range v1 v2)
        | _ => leaf path DiffTypeModified val1 val2
        end
    | VArray v1 =>
        match val2 with
        | VArray v2 =>
            compareArrays_loop d (compareValuesUnder range d <$> v1) v1 v2 path
        | _ => leaf path DiffTypeModified val1 val2
        end
    | _ =>
        if DeepEqual val1 val2 then leaf path DiffTypeEqual VNull VNull
        else leaf path DiffTypeModified val1 val2
    end.

(** [range] yields the keys of both objects, in some order. *)
Definition yieldsAllKeys
    (range : gmap string Value → gmap string Value → list string) : Prop :=
  ∀ obj1 obj2 key, key ∈ range obj1 obj2 ↔ key ∈ dom obj1 ∪ dom obj2.

(** The keys in descending order. *)
Definition descending (obj1 obj2 : gmap string Value) : list string :=
  reverse (sortStrings (objectKeys obj1 obj2)).

(** * The command [gcdiff resource]

    Package [config]'s [Load], package [gcp]'s [FetchResourceGeneric] and
    package [cmd]'s [runResource] with the functions it calls. *)

(** A Go [error]: its message, and what [os.IsNotExist] answers for it. *)
Record error := mkError {
  errorText : string;
  IsNotExist : bool
}.

(** [fmt.Errorf], with the message already formatted. *)
Definition Errorf (text : string) : error := mkError text false.

(** ** [strings] *)

(** [asciiSpace]: the bytes that [strings.Fields] splits at in a string of
    ASCII bytes. *)
Definition asciiSpace (c : ascii) : bool :=
  match c with
  | "009"%char | "010"%char | "011"%char | "012"%char | "013"%char
  | " "%char => true
  | _ => false
  end.

Fixpoint isASCII (s : string) : bool :=
  match s with
  | EmptyString => true
  | String c rest => bool_decide (nat_of_ascii c < 128)%nat && isASCII rest
  end.

Definition consField (w : option string) (fields : list string) : list string :=
  match w with Some f => f :: fields | None => fields end.

(** The field that starts at the first byte of [s], if that byte is not a
    space, and the fields after it. *)
Fixpoint fieldsFrom (s : string) : option string * list string :=
  match s with
  | EmptyString => (None, [])
  | String c rest =>
      let '(w, fields) := fieldsFrom rest in
      if asciiSpace c then (None, consField w fields)
      else (Some (String c (default EmptyString w)), fields)
  end.

(** [strings.Fields] on a string of ASCII bytes: the maximal runs of bytes
    that are not spaces.  (In a string with other bytes Go splits at
    further Unicode spaces; the statements about [Fields] are for ASCII
    strings.) *)
Definition Fields (s : string) : list string :=
  let '(w, fields) := fieldsFrom s in consField w fields.

(** [strings.Join] *)
Definition Join (elems : list string) (sep : string) : string :=
  String.concat sep elems.

(** [strings.HasPrefix] *)
Definition HasPrefix (s prefix : string) : bool := String.prefix prefix s.

(** ** Package config: [Load] *)

Section Load.

(** [os.ReadFile] and [yaml.Unmarshal] into a zero [Config]. *)
Context (ReadFile : string → error + string).
Context (yamlUnmarshal : string → error + Config).

Definition Load (path : string) : error + Config :=
  if bool_decide (path = "") then inr Default
  else
    match ReadFile path with
    | inl err => if IsNotExist err then inr Default else inl err
    | inr data =>
        match yamlUnmarshal data with
        | inl err => inl err
        | inr cfg =>
            if bool_decide (length (IgnoreFields cfg) = 0) &&
               bool_decide (length (IgnorePatterns cfg) = 0)
            then inr Default
            else inr cfg
        end
    end.

End Load.

(** ** Package gcp: [FetchResourceGeneric] *)

(** [map[string]interface{}] as a result of [json.Unmarshal], which leaves
    the map nil for the document [null]. *)
Definition GoMap := option (gmap string Value).

(** Reading a map that may be nil. *)
Definition entries (m : GoMap) : gmap string Value := default ∅ m.

Section Fetch.

(** [exec.CommandContext(ctx, "gcloud", parts...).CombinedOutput()], as a
    function of the number of the call and of [parts], and
    [json.Unmarshal] into a nil map. *)
Context (CombinedOutput : nat → list string → string * option error).
Context (jsonUnmarshal : string → error + GoMap).

Definition FetchResourceGeneric (call : nat) (gcloudCommand : string)
    : error + GoMap :=
  let parts := Fields gcloudCommand in
  if bool_decide (length parts = 0) then inl (Errorf "empty gcloud command")
  else
    let hasFormat := existsb (λ part, HasPrefix part "--format=") parts in
    let parts := if negb hasFormat then parts ++ ["--format=json"] else parts in
    match CombinedOutput call parts with
    | (output, Some err) =>
        inl (Errorf ("gcloud command failed: " +:+ errorText err +:+ newline +:+
                     "Output: " +:+ output))
    | (output, None) =>
        match jsonUnmarshal output with
        | inl err =>
            inl (Errorf ("failed to parse gcloud output: " +:+ errorText err +:+
                         newline +:+ "Output: " +:+ output))
        | inr result => inr result
        end
    end.

End Fetch.

(** ** Package cmd: [runResource] *)

(** [cmd.Flags().GetString] and [viper.GetString]: the empty string for a
    flag that was not given. *)
Definition GetString (flags : gmap string string) (name : string) : string :=
  default "" (flags !! name).

Definition buildResourceFlags (cmd : gmap string string) (suffix : string)
    : gmap string string :=
  let flags : gmap string string := ∅ in
  let flags :=
    let zone := GetString cmd ("zone" +:+ suffix) in
    if bool_decide (zone ≠ "") then <["zone" := zone]> flags
    else
      let zone1 := GetString cmd "zone1" in
      if bool_decide (suffix = "2") && bool_decide (zone1 ≠ "")
      then <["zone" := zone1]> flags else flags in
  let flags :=
    let region := GetString cmd ("region" +:+ suffix) in
    if bool_decide (region ≠ "") then <["region" := region]> flags
    else
      let region1 := GetString cmd "region1" in
      if bool_decide (suffix = "2") && bool_decide (region1 ≠ "")
      then <["region" := region1]> flags else flags in
  let flags :=
    let location := GetString cmd ("location" +:+ suffix) in
    if bool_decide (location ≠ "") then <["location" := location]> flags
    else
      let location1 := GetString cmd "location1" in
      if bool_decide (suffix = "2") && bool_decide (location1 ≠ "")
      then <["location" := location1]> flags else flags in
  flags.

(** The outcome of a function that returns an [error] and may panic. *)
Inductive Run (A : Type) : Type :=
  | Returns (a : A)
  | Fails (err : error)
  | Panics (message : string).
Arguments Returns {A} a.
Arguments Fails {A} err.
Arguments Panics {A} message.

(** [m[key] = value] on a map that may be nil. *)
Definition setEntry (m : GoMap) (key : string) (value : Value) : Run GoMap :=
  match m with
  | Some obj => Returns (Some (<[key := value]> obj))
  | None => Panics "assignment to entry in nil map"
  end.

Section Command.

Context (ReadFile : string → error + string).
Context (yamlUnmarshal : string → error + Config).
Context (CombinedOutput : nat → list string → string * option error).
Context (jsonUnmarshal : string → error + GoMap).

(** The entries of a map of flags in the order in which a [range] over it
    yields them. *)
Context (rangeFlags : gmap string string → list (string * string)).

(** [for key, value := range flags { if value != "" { parts = append(...) } }] *)
Definition appendFlags (parts : list string) (flags : gmap string string)
    : list string :=
  foldl (λ parts '(key, value),
           if bool_decide (value ≠ "")
           then parts ++ ["--" +:+ key +:+ "=" +:+ value] else parts)
        parts (rangeFlags flags).

Definition buildGcloudCommand (resourcePath name project : string)
    (flags : gmap string string) : string :=
  let parts := [resourcePath; "describe"; name] in
  let parts :=
    if bool_decide (project ≠ "") then parts ++ ["--project=" +:+ project]
    else parts in
  let parts := appendFlags parts flags in
  Join parts " ".

Definition buildGcloudIAMCommand (resourcePath name project : string)
    (flags : gmap string string) : string :=
  let parts := [resourcePath; "get-iam-policy"; name] in
  let parts :=
    if bool_decide (project ≠ "") then parts ++ ["--project=" +:+ project]
    else parts in
  let parts := appendFlags parts flags in
  Join parts " ".

(** [if includeIAM { ... }] for one of the two resources: a policy that
    could not be fetched leaves the resource as it is. *)
Definition mergeIAM (call : nat) (iamCmd : string) (resource : GoMap)
    : Run GoMap :=
  match FetchResourceGeneric CombinedOutput jsonUnmarshal call iamCmd with
  | inl _ => Returns resource
  | inr iamPolicy => setEntry resource "iamPolicy" (VObject (entries iamPolicy))
  end.

(** [runResource], up to the tree that it hands to the printer.  [viper]
    holds the persistent flags, [showAll] is [viper.GetBool("show-all")],
    [cmd] holds the flags of the command, [configFile] is
    [viper.ConfigFileUsed()]; the three arguments are those that
    [cobra.ExactArgs(3)] lets through. *)
Definition runResource (viper : gmap string string) (showAll : bool)
    (configFile : string) (cmd : gmap string string) (includeIAM : bool)
    (resourceTypeStr name1 name2 : string) : Run Diff :=
  let project1 := GetString viper "project1" in
  let project2 := GetString viper "project2" in
  let project2 := if bool_decide (project2 = "") then project1 else project2 in
  if bool_decide (project1 = "") then Fails (Errorf "--project1 is required")
  else
    let flags1 := buildResourceFlags cmd "1" in
    let flags2 := buildResourceFlags cmd "2" in
    let gcloudCmd1 := buildGcloudCommand resourceTypeStr name1 project1 flags1 in
    let gcloudCmd2 := buildGcloudCommand resourceTypeStr name2 project2 flags2 in
    match FetchResourceGeneric CombinedOutput jsonUnmarshal 0 gcloudCmd1 with
    | inl err => Fails (Errorf ("failed to fetch resource: " +:+ errorText err))
    | inr resource1 =>
    match FetchResourceGeneric CombinedOutput jsonUnmarshal 1 gcloudCmd2 with
    | inl err => Fails (Errorf ("failed to fetch resource: " +:+ errorText err))
    | inr resource2 =>
        let merged :=
          if includeIAM then
            let iamCmd1 := buildGcloudIAMCommand resourceTypeStr name1 project1 flags1 in
            let iamCmd2 := buildGcloudIAMCommand resourceTypeStr name2 project2 flags2 in
            match mergeIAM 2 iamCmd1 resource1 with
            | Returns resource1 =>
                match mergeIAM 3 iamCmd2 resource2 with
                | Returns resource2 => Returns (resource1, resource2)
                | Fails err => Fails err
                | Panics message => Panics message
                end
            | Fails err => Fails err
            | Panics message => Panics message
            end
          else Returns (resource1, resource2) in
        match merged with
        | Returns (resource1, resource2) =>
            let cfg :=
              match Load ReadFile yamlUnmarshal configFile with
              | inl _ => Default
              | inr cfg => cfg
              end in
            let cfg :=
              if bool_decide (project1 = project2)
              then mkConfig (IgnoreFields cfg ++ ["name"; "self_link"; "selfLink"])
                            (IgnorePatterns cfg)
              else cfg in
            let differ := NewDiffer (Some cfg) showAll in
            Returns (Compare differ (entries resource1) (entries resource2))
        | Fails err => Fails err
        | Panics message => Panics message
        end
    end
    end.

End Command.

(** ** Notions for the statements about the command *)

(** The arguments that [FetchResourceGeneric] runs [gcloud] with. *)
Definition gcloudArgs (gcloudCommand : string) : list string :=
  let parts := Fields gcloudCommand in
  if negb (existsb (λ part, HasPrefix part "--format=") parts)
  then parts ++ ["--format=json"] else parts.

Definition noFiles (path : string) : error + string :=
  inl (mkError ("open " +:+ path +:+ ": no such file or directory") true).
Definition noYaml (data : string) : error + Config :=
  inl (Errorf "yaml: unmarshal errors").

(** [project2] after [if project2 == "" { project2 = project1 }]. *)
Definition secondProject (viper : gmap string string) : string :=
  if bool_decide (GetString viper "project2" = "")
  then GetString viper "project1" else GetString viper "project2".

(** A configuration file that lists patterns only. *)
Definition patternsFile (path : string) : error + string :=
  inr "ignore_patterns: ['.*Time$']".
Definition patternsYaml (data : string) : error + Config :=
  inr (mkConfig [] [".*Time$"]).

(** A [gcloud] that prints [null], and the [json.Unmarshal] of that. *)
Definition printsNull (call : nat) (parts : list string) : string * option error :=
  ("null", None).
Definition nullDocument (data : string) : error + GoMap := inr None.

(** A [gcloud] that describes two buckets and finds the policy of the
    second only. *)
Definition secondPolicyOnly (call : nat) (parts : list string)
    : string * option error :=
  if bool_decide (call = 2) then ("ERROR: permission denied", Some (Errorf "exit status 1"))
  else if bool_decide (call = 3) then ("policy", None)
  else ("bucket", None).
Definition bucketDocuments (data : string) : error + GoMap :=
  if String.eqb data "policy" then inr (Some {[ "etag" := VString "CAE=" ]})
  else inr (Some {[ "location" := VString "US" ]}).

Definition rangeInOrder (flags : gmap string string) : list (string * string) :=
  map_to_list flags.

Definition oneProject : gmap string string := {[ "project1" := "proj" ]}.

(** What the loop over the flags appends for one entry. *)
Definition flagPart (entry : string * string) : list string :=
  if bool_decide (entry.2 ≠ "") then ["--" +:+ entry.1 +:+ "=" +:+ entry.2]
  else [].

(** The fields of the command that [buildGcloudCommand]
    ([verb = "describe"]) or [buildGcloudIAMCommand]
    ([verb = "get-iam-policy"]) builds, read off its arguments. *)
Definition commandFields
    (rangeFlags : gmap string string → list (string * string))
    (verb resourcePath name project : string) (flags : gmap string string)
    : list string :=
  Fields resourcePath ++ [verb] ++ Fields name ++
  (if bool_decide (project ≠ "") then Fields ("--project=" +:+ project) else []) ++
  (rangeFlags flags ≫= λ entry, flagPart entry ≫= Fields).

(** One of the three blocks of [buildResourceFlags]: the flag [name] gets
    [value], or else, for the second resource, [value1]. *)
Definition flagBlock (suffix : string) (flags : gmap string string)
    (name value value1 : string) : gmap string string :=
  if bool_decide (value ≠ "") then <[name := value]> flags
  else if bool_decide (suffix = "2") && bool_decide (value1 ≠ "")
       then <[name := value1]> flags else flags.

(** The configuration that [runResource] compares with: the loaded one, or
    the default one when loading fails, with the three identifiers added
    when both resources are in one project. *)
Definition comparisonConfig (loaded : error + Config) (sameProject : bool)
    : Config :=
  let cfg := match loaded with inl _ => Default | inr cfg => cfg end in
  if sameProject
  then mkConfig (IgnoreFields cfg ++ ["name"; "self_link"; "selfLink"])
                (IgnorePatterns cfg)
  else cfg.

(** ** Notions for the statements about the renderer *)

(** No byte of [s] is ['.'] or ['[']. *)
Fixpoint noSeparator (s : string) : bool :=
  match s with
  | EmptyString => true
  | String c rest =>
      negb (bool_decide (c = "."%char ∨ c = "["%char)) && noSeparator rest
  end.

(** The keys of the children of [n] have top-level fields that differ from
    one another, so that [getTopLevelDiffs] never merges two of them. *)
Definition topLevelDistinct (n : Node) : Prop :=
  NoDup (extractTopLevelField <$> mapKeys (nodeChildren n)).

(** White on white, and formatting functions that print nothing. *)
Definition plain : Color := mkColor "" "".
Definition printsNothing {A} (x : A) : string := "".
Definition marshalsNothing (v : Value) (indent : string) : option string :=
  Some "".
(** On the heap [h], [m] returns [a] and writes [text], whatever the
    orders of the [range]s to come and whatever was written before, and
    leaves the heap as it is. *)
Definition prints (h : list Node) {A} (m : M A) (a : A) (text : string) : Prop :=
  ∀ rs o, ∃ rs', m (mkWorld h rs o) = Done a (mkWorld h rs' (o +:+ text)).

Definition steady (h : list Node) {A} (m : M A) (a : A) : Prop :=
  ∃ text, prints h m a text.

(** Where [printFieldDiff] takes the node for the difference of two
    arrays, [fmt.Sscanf] reads different indices from different keys. *)
Definition scannableKeys (Sscanf_index : string → Z) (n : Node) : bool :=
  if isArrayDiff n
  then bool_decide (NoDup (Sscanf_index <$> mapKeys (nodeChildren n)))
  else true.

(** The pointers below [p] form a tree of at most [height] levels, all of
    whose nodes have scannable keys. *)
Fixpoint printable (Sscanf_index : string → Z) (h : list Node) (height : nat)
    (p : loc) : bool :=
  match height with
  | 0 => false
  | S height' =>
      match h !! p with
      | None => false
      | Some n =>
          scannableKeys Sscanf_index n &&
          forallb (printable Sscanf_index h height')
                  (map_to_list (nodeChildren n)).*2
      end
  end.

(** [Sscanf(key, "[%d]", &idx)] on the keys [[0]] to [[9]]. *)
Definition scansDigit (key : string) : Z :=
  match key with
  | String "[" (String c (String "]" EmptyString)) =>
      default 0%Z (Z.of_nat <$> Ascii.is_nat c)
  | _ => 0%Z
  end.

(** The heap with the tree of [Compare] for [nestedChange1] and
    [nestedChange2] in it, the root at [2]. *)
Definition nestedRoot : Node :=
  mkNode "" DiffTypeModified VNull VNull {[ "metadata" := 1 ]}.
Definition nestedHeap : list Node :=
  [mkNode "metadata.version" DiffTypeModified (VString "1.0") (VString "2.0") ∅;
   mkNode "metadata" DiffTypeModified VNull VNull {[ "version" := 0 ]};
   nestedRoot].

(** The node [n] of a difference tree is one that [isArrayDiff] takes for
    the difference of two arrays, and the keys of every such node of [t]
    have different indices. *)
Definition arrayLike (n : Diff) : bool :=
  negb (bool_decide (size (Children n) = 0)) &&
  forallb (String.prefix "[") (mapKeys (Children n)).

Definition scannableTree (Sscanf_index : string → Z) (t : Diff) : bool :=
  forallb (λ n, if arrayLike n
                then bool_decide (NoDup (Sscanf_index <$> mapKeys (Children n)))
                else true)
          (nodes t).

(** * The grouped renderer

    [PrintGitStyleDiff] and [printDiffSection] of [output.go].  They read
    the tree and never store into it: the tree is a value here. *)

(** The loop that groups the leaves by their type. *)
Definition groupByType (diffs : list Diff) : list Diff * list Diff * list Diff :=
  foldl (λ (groups : list Diff * list Diff * list Diff) d,
           let '(added, removed, modified) := groups in
           match Type_ d with
           | DiffTypeAdded => (added ++ [d], removed, modified)
           | DiffTypeRemoved => (added, removed ++ [d], modified)
           | DiffTypeModified => (added, removed, modified ++ [d])
           | DiffTypeEqual => (added, removed, modified)
           end)
        ([], [], []) diffs.

Section Grouped.

Context (green red yellow cyan bold : Color).
Context (Sprintf_q : string → string).
Context (Sprintf_v : Value → string).
Context (MarshalIndent : Value → string → option string).

(** [sort.Slice(diffs, func(i, j int) bool { return diffs[i].Path <
    diffs[j].Path })]: some arrangement of [diffs] in ascending order of
    the paths; the sort is not stable. *)
Context (sortByPath : list Diff → list Diff).

Definition printDiffSection (title : string) (diffs : list Diff)
    (diffType : DiffType) : M unit :=
  if bool_decide (length diffs = 0) then ret ()
  else
    let diffs := sortByPath diffs in
    write (sprint bold (title +:+ ":") +:+ newline) ;;
    write newline ;;
    forEach diffs (λ d,
      match diffType with
      | DiffTypeAdded =>
          write ("  " +:+ sprint green "+" +:+ " " +:+ sprint cyan (Path d) +:+ newline) ;;
          printValue Sprintf_q Sprintf_v MarshalIndent "      " (Value2 d) green
      | DiffTypeRemoved =>
          write ("  " +:+ sprint red "-" +:+ " " +:+ sprint cyan (Path d) +:+ newline) ;;
          printValue Sprintf_q Sprintf_v MarshalIndent "      " (Value1 d) red
      | DiffTypeModified =>
          write ("  " +:+ sprint yellow "~" +:+ " " +:+ sprint cyan (Path d) +:+ newline) ;;
          write ("      " +:+ sprint red "-" +:+ " ") ;;
          printValue Sprintf_q Sprintf_v MarshalIndent "        " (Value1 d) red ;;
          write ("      " +:+ sprint green "+" +:+ " ") ;;
          printValue Sprintf_q Sprintf_v MarshalIndent "        " (Value2 d) green
      | DiffTypeEqual => ret ()
      end ;;
      write newline).

Definition PrintGitStyleDiff (diff : Diff) (name1 name2 : string) : M unit :=
  write (sprint bold ("Comparing: " +:+ name1 +:+ " <-> " +:+ name2) +:+ newline) ;;
  write (Repeat "-" 80 +:+ newline) ;;
  if decide (Type_ diff = DiffTypeEqual) then write (noDifferences green)
  else
    let diffs := GetAllDiffs diff in
    if bool_decide (length diffs = 0) then write (noDifferences green)
    else
      let '(added, removed, modified) := groupByType diffs in
      let total := (length added + length removed + length modified)%nat in
      write (newline +:+
             sprint bold ("Summary: " +:+ pretty total +:+ " difference(s) found") +:+
             newline) ;;
      (if bool_decide (0 < length added)%nat
       then write ("  " +:+ sprint green "+" +:+ " " +:+ pretty (length added) +:+
                   " field(s)" +:+ newline)
       else ret ()) ;;
      (if bool_decide (0 < length removed)%nat
       then write ("  " +:+ sprint red "-" +:+ " " +:+ pretty (length removed) +:+
                   " field(s)" +:+ newline)
       else ret ()) ;;
      (if bool_decide (0 < length modified)%nat
       then write ("  " +:+ sprint yellow "~" +:+ " " +:+ pretty (length modified) +:+
                   " field(s)" +:+ newline)
       else ret ()) ;;
      write newline ;;
      printDiffSection "Added Fields" added DiffTypeAdded ;;
      printDiffSection "Removed Fields" removed DiffTypeRemoved ;;
      printDiffSection "Modified Fields" modified DiffTypeModified.

(** What both renderers write when there is no difference. *)
Definition noDifferencesText (name1 name2 : string) : string :=
  written [sprint bold ("Comparing: " +:+ name1 +:+ " <-> " +:+ name2) +:+ newline;
           Repeat "-" 80 +:+ newline;
           noDifferences green].

End Grouped.


(** * The resource types of package gcp

    [ResourceType], the table [ResourceTypes] and [FetchResource], which
    an earlier [runResource] called for the resource types of the table. *)

Record ResourceType := mkResourceType {
  Service : string;
  Resource : string;
  DescribeCommand : string;
  RequiredFlags : list string
}.

Definition ResourceTypes : gmap string ResourceType :=
  list_to_map
    [("compute", mkResourceType "compute" "instances" "describe" ["zone"]);
     ("storage", mkResourceType "storage" "buckets" "describe" []);
     ("firewall", mkResourceType "compute" "firewall-rules" "describe" []);
     ("network", mkResourceType "compute" "networks" "describe" []);
     ("subnet", mkResourceType "compute" "networks subnets" "describe" ["region"]);
     ("disk", mkResourceType "compute" "disks" "describe" ["zone"]);
     ("run", mkResourceType "run" "services" "describe" ["region"]);
     ("sql", mkResourceType "sql" "instances" "describe" []);
     ("pubsub-topic", mkResourceType "pubsub" "topics" "describe" []);
     ("pubsub-subscription", mkResourceType "pubsub" "subscriptions" "describe" []);
     ("iam-service-account", mkResourceType "iam" "service-accounts" "describe" []);
     ("iam-policy", mkResourceType "iam" "service-accounts" "get-iam-policy" []);
     ("pubsub-topic-iam-policy", mkResourceType "pubsub" "topics" "get-iam-policy" [])].

Section FetchTyped.

Context (CombinedOutput : nat → list string → string * option error).
Context (jsonUnmarshal : string → error + GoMap).

Definition FetchResource (call : nat) (resourceType : ResourceType)
    (name project : string) (flags : gmap string string) : error + GoMap :=
  let args := [Service resourceType] in
  let resourceParts := Fields (Resource resourceType) in
  let args := args ++ resourceParts in
  let args := args ++ [DescribeCommand resourceType] in
  let args := args ++ [name] in
  let args :=
    if bool_decide (project ≠ "") then args ++ ["--project=" +:+ project]
    else args in
  let args :=
    foldl (λ args flagName,
             match flags !! flagName with
             | Some flagValue =>
                 if bool_decide (flagValue ≠ "")
                 then args ++ ["--" +:+ flagName +:+ "=" +:+ flagValue]
                 else args
             | None => args
             end)
          args (RequiredFlags resourceType) in
  let args := args ++ ["--format=json"] in
  match CombinedOutput call args with
  | (output, Some err) =>
      inl (Errorf ("gcloud command failed: " +:+ errorText err +:+ newline +:+
                   "Output: " +:+ output))
  | (output, None) =>
      match jsonUnmarshal output with
      | inl err =>
          inl (Errorf ("failed to parse gcloud output: " +:+ errorText err +:+
                       newline +:+ "Output: " +:+ output))
      | inr result => inr result
      end
  end.

End FetchTyped.

(** No byte of [s] is a space. *)
Fixpoint spaceFree (s : string) : bool :=
  match s with
  | EmptyString => true
  | String c rest => negb (asciiSpace c) && spaceFree rest
  end.

(** What the table has for every resource type: a service of one word, no
    word that begins with [--format=], and at most one required flag,
    [zone] or [region]. *)
Definition tableType (rt : ResourceType) : bool :=
  spaceFree (Service rt) && negb (String.eqb (Service rt) "") &&
  negb (existsb (λ part, HasPrefix part "--format=")
          ([Service rt] ++ Fields (Resource rt))) &&
  bool_decide (RequiredFlags rt ∈ [[]; ["zone"]; ["region"]]).

(** [rangeFlags] yields the entries of the map, in some order. *)
Definition yieldsEntries
    (rangeFlags : gmap string string → list (string * string)) : Prop :=
  ∀ flags, rangeFlags flags ≡ₚ map_to_list flags.

(** * Lemmas and theorems *)

(** ** The repository's tests, evaluated on the embedding *)

Example TestShouldIgnore :
  let cfg := mkConfig ["id"; "metadata.creationTimestamp"; "selfLink"] [] in
  ShouldIgnore cfg <$>
    ["id"; "metadata.creationTimestamp"; "name"; "metadata"; "ID"; "selfLink"] =
  [true; true; false; false; false; true].
Proof. reflexivity. Qed.

Example TestCompare_WithIgnoreFields :
  Type_ (Compare (NewDiffer (Some (mkConfig ["id"; "timestamp"] [])) false)
           {[ "id" := VString "123"; "timestamp" := VString "2024-01-01";
              "name" := VString "test" ]}
           {[ "id" := VString "456"; "timestamp" := VString "2024-01-02";
              "name" := VString "test" ]}) = DiffTypeEqual.
Proof. vm_compute. reflexivity. Qed.

Example TestCompare_ShowAll :
  let diff := Compare (NewDiffer (Some (mkConfig ["id"] [])) true)
                {[ "id" := VString "123"; "name" := VString "test" ]}
                {[ "id" := VString "456"; "name" := VString "test" ]} in
  Type_ diff = DiffTypeModified ∧
  Children diff !! "id" =
    Some (leaf "id" DiffTypeModified (VString "123") (VString "456")).
Proof. split; vm_compute; reflexivity. Qed.

Example TestCompare_DifferentTypes :
  Children (Compare (NewDiffer (Some Default) false)
              {[ "field" := VString "123" ]} {[ "field" := VInt 123 ]})
    !! "field" =
  Some (leaf "field" DiffTypeModified (VString "123") (VInt 123)).
Proof. vm_compute. reflexivity. Qed.

Example TestGetAllDiffs_Nested :
  Path <$> GetAllDiffs
    (mkDiff "" DiffTypeModified VNull VNull
       {[ "metadata" :=
            mkDiff "metadata" DiffTypeModified VNull VNull
              {[ "version" := leaf "metadata.version" DiffTypeModified
                                (VString "1.0") (VString "2.0") ]} ]}) =
  ["metadata.version"].
Proof. vm_compute. reflexivity. Qed.

Example TestCompare_NestedObjects :
  Compare (NewDiffer (Some Default) false)
    {[ "name" := VString "test";
       "metadata" := VObject {[ "version" := VString "1.0";
                                "author" := VString "alice" ]} ]}
    {[ "name" := VString "test";
       "metadata" := VObject {[ "version" := VString "2.0";
                                "author" := VString "alice" ]} ]} =
  mkDiff "" DiffTypeModified VNull VNull
    {[ "metadata" :=
         mkDiff "metadata" DiffTypeModified VNull VNull
           {[ "version" := leaf "metadata.version" DiffTypeModified
                             (VString "1.0") (VString "2.0") ]} ]}.
Proof. vm_compute. reflexivity. Qed.

Example TestCompare_ArrayGranularDiff :
  let rule port :=
    VObject {[ "IPProtocol" := VString "tcp";
               "ports" := VArray [VString port] ]} in
  Children (Compare (NewDiffer (Some Default) false)
              {[ "allowed" := VArray [rule "80"; rule "443"] ]}
              {[ "allowed" := VArray [rule "80"; rule "443"; rule "8080"] ]})
    !! "allowed" =
  Some (mkDiff "allowed" DiffTypeModified VNull VNull
          {[ "[2]" := leaf "allowed[2]" DiffTypeAdded VNull (rule "8080") ]}).
Proof. vm_compute. reflexivity. Qed.

Example TestCompare_ArrayComplexNestedChange :
  let rule port :=
    VObject {[ "protocol" := VString "tcp"; "port" := VInt port ]} in
  Children (Compare (NewDiffer (Some Default) false)
              {[ "rules" := VArray [rule 80%Z; rule 443%Z] ]}
              {[ "rules" := VArray [rule 80%Z; rule 8443%Z] ]})
    !! "rules" =
  Some (mkDiff "rules" DiffTypeModified VNull VNull
          {[ "[1]" :=
               mkDiff "rules[1]" DiffTypeModified VNull VNull
                 {[ "port" := leaf "rules[1].port" DiffTypeModified
                                (VInt 443%Z) (VInt 8443%Z) ]} ]}).
Proof. vm_compute. reflexivity. Qed.

(** The end-to-end example of the specification: [id] is ignored, [zone] is
    equal, [name] is the one difference. *)
Example EndToEnd_one_Modified_leaf :
  GetAllDiffs (Compare (NewDiffer None false)
     {[ "id" := VString "1"; "name" := VString "a"; "zone" := VString "z1" ]}
     {[ "id" := VString "2"; "name" := VString "b"; "zone" := VString "z1" ]}) =
  [leaf "name" DiffTypeModified (VString "a") (VString "b")].
Proof. vm_compute. reflexivity. Qed.

(** ** Induction on values and on difference trees *)

Lemma map_fold_sum_lookup {A} (f : A → nat) (m : gmap string A) k x :
  m !! k = Some x →
  f x ≤ map_fold (λ _ y acc, f y + acc) 0 m.
Proof.
  intros Hk.
  rewrite (map_fold_delete_L _ _ k x m); [lia | | done].
  intros; lia.
Qed.

Lemma foldr_sum_elem_of {A} (f : A → nat) (l : list A) x :
  x ∈ l → f x ≤ foldr (λ y acc, f y + acc) 0 l.
Proof.
  induction 1 as [|? ? ? ? IH]; simpl; [lia | lia].
Qed.

Lemma Value_ind' (P : Value → Prop) :
  P VNull →
  (∀ b, P (VBool b)) →
  (∀ n, P (VInt n)) →
  (∀ f, P (VFloat f)) →
  (∀ s, P (VString s)) →
  (∀ arr, Forall P arr → P (VArray arr)) →
  (∀ obj, map_Forall (λ _, P) obj → P (VObject obj)) →
  ∀ v, P v.
Proof.
  intros Hnull Hbool Hint Hfloat Hstr Harr Hobj v.
  remember (value_size v) as n eqn:Hn.
  revert v Hn. induction (lt_wf n) as [n _ IH]. intros v ->.
  destruct v as [| | | | |arr|obj]; auto.
  - apply Harr, Forall_forall. intros x Hx.
    apply (IH (value_size x)); [|done].
    simpl. pose proof (foldr_sum_elem_of value_size arr x Hx). lia.
  - apply Hobj. intros k x Hk.
    apply (IH (value_size x)); [|done].
    simpl. pose proof (map_fold_sum_lookup value_size obj k x Hk). lia.
Qed.

Lemma Diff_ind' (P : Diff → Prop) :
  (∀ d, map_Forall (λ _, P) (Children d) → P d) →
  ∀ d, P d.
Proof.
  intros Hnode d.
  remember (diff_size d) as n eqn:Hn.
  revert d Hn. induction (lt_wf n) as [n _ IH]. intros d ->.
  apply Hnode. intros k c Hk.
  apply (IH (diff_size c)); [|done].
  destruct d as [p t v1 v2 ch]; simpl in *.
  pose proof (map_fold_sum_lookup diff_size ch k c Hk). lia.
Qed.

(** ** The two loops, key by key *)

Section put_loop.
Context {K : Type} (keyOf : K → string) (child : K → option Diff).

Lemma put_container path diff k :
  container path diff → container path (put keyOf child diff k).
Proof.
  unfold put. destruct (child k) as [c|]; [|done].
  intros (HP & H1 & H2 & _). repeat split; simpl; auto.
  right. split; [done|]. apply insert_non_empty.
Qed.

Lemma foldl_put_container path diff ks :
  container path diff → container path (foldl (put keyOf child) diff ks).
Proof.
  revert diff. induction ks as [|k ks IH]; simpl; [done|].
  intros diff H. by apply IH, put_container.
Qed.

Lemma foldl_put_lookup_out diff ks s :
  (∀ k, k ∈ ks → keyOf k ≠ s) →
  Children (foldl (put keyOf child) diff ks) !! s = Children diff !! s.
Proof.
  revert diff. induction ks as [|k ks IH]; simpl; [done|].
  intros diff Hout. rewrite IH.
  - unfold put. destruct (child k); [|done]. simpl.
    apply lookup_insert_ne, Hout. left.
  - intros k' Hk'. apply Hout. by right.
Qed.

Lemma foldl_put_lookup_in diff ks k :
  (∀ k1 k2, k1 ∈ ks → k2 ∈ ks → keyOf k1 = keyOf k2 → child k1 = child k2) →
  k ∈ ks →
  Children (foldl (put keyOf child) diff ks) !! keyOf k =
    match child k with
    | Some c => Some c
    | None => Children diff !! keyOf k
    end.
Proof.
  revert diff k. induction ks as [|k0 ks IH]; intros diff k Hco Hk.
  { by apply elem_of_nil in Hk. }
  simpl.
  assert (Hco' : ∀ k1 k2, k1 ∈ ks → k2 ∈ ks →
                          keyOf k1 = keyOf k2 → child k1 = child k2).
  { intros k1 k2 ? ? ?. apply Hco; [by right|by right|done]. }
  destruct (decide (Exists (λ k', keyOf k' = keyOf k) ks)) as [Hex|Hnex].
  - apply Exists_exists in Hex as (k' & Hk' & Heq).
    assert (child k' = child k) as Hc.
    { apply Hco; [by right|done|done]. }
    rewrite <- Heq, (IH _ k' Hco' Hk'), Hc.
    destruct (child k) as [c|] eqn:Hck; [done|].
    unfold put. destruct (child k0) as [c0|] eqn:Hc0; [|done]. simpl.
    apply lookup_insert_ne. intros Hk0.
    assert (child k0 = child k') as Hc'.
    { apply Hco; [left|by right|done]. }
    congruence.
  - rewrite foldl_put_lookup_out.
    2:{ intros k' Hk' Heq. apply Hnex, Exists_exists. eauto. }
    apply elem_of_cons in Hk as [->|Hk].
    + unfold put. destruct (child k0); [|done]. simpl.
      apply lookup_insert_eq.
    + exfalso. apply Hnex, Exists_exists. eauto.
Qed.

End put_loop.

Lemma compareNil_eq d val2 path :
  compareNil val2 path = compareValues d VNull val2 path.
Proof. by destruct val2. Qed.

Lemma compareObjects_step_put d obj1 obj2 path diff key :
  compareObjects_step d (compareValues d <$> obj1) obj1 obj2 path diff key =
  put id (objectChild d obj1 obj2 path) diff key.
Proof.
  unfold compareObjects_step, put, objectChild, setChildIfChanged. simpl.
  destruct (negb (showAll d) && _); [done|].
  rewrite lookup_fmap.
  destruct (obj1 !! key) as [val1|], (obj2 !! key) as [val2|]; simpl; try done.
  by destruct (decide _).
Qed.

Lemma compareArrays_step_put d arr1 arr2 path diff i :
  (i < length arr1 ∨ i < length arr2)%nat →
  compareArrays_step d (compareValues d <$> arr1) arr1 arr2 path diff i =
  put indexKey (arrayChild d arr1 arr2 path) diff i.
Proof.
  intros Hi.
  unfold compareArrays_step, put, arrayChild, setChildIfChanged. simpl.
  rewrite list_lookup_fmap.
  destruct (arr1 !! i) as [val1|] eqn:H1, (arr2 !! i) as [val2|] eqn:H2.
  - apply lookup_lt_Some in H1 as ?. apply lookup_lt_Some in H2 as ?.
    rewrite !bool_decide_eq_true_2 by done. simpl.
    rewrite (list_lookup_total_correct _ _ _ H2).
    by destruct (decide _).
  - apply lookup_lt_Some in H1 as ?. apply lookup_ge_None in H2 as ?.
    rewrite (bool_decide_eq_false_2 (i < length arr2)%nat) by lia.
    rewrite andb_false_r.
    rewrite bool_decide_eq_false_2 by lia.
    by rewrite (list_lookup_total_correct _ _ _ H1).
  - apply lookup_ge_None in H1 as ?. apply lookup_lt_Some in H2 as ?.
    rewrite (bool_decide_eq_false_2 (i < length arr1)%nat) by lia. simpl.
    rewrite bool_decide_eq_true_2 by lia.
    by rewrite (list_lookup_total_correct _ _ _ H2).
  - apply lookup_ge_None in H1. apply lookup_ge_None in H2. lia.
Qed.

Lemma foldl_ext_elem_of {A B} (f g : A → B → A) (a : A) (l : list B) :
  (∀ a' b, b ∈ l → f a' b = g a' b) → foldl f a l = foldl g a l.
Proof.
  revert a. induction l as [|b l IH]; simpl; intros a H; [done|].
  rewrite H by left. apply IH. intros a' b' ?. apply H. by right.
Qed.

Lemma compareObjects_loop_put d obj1 obj2 path keys :
  compareObjects_loop d (compareValues d <$> obj1) obj1 obj2 path keys =
  foldl (put id (objectChild d obj1 obj2 path))
        (mkDiff path DiffTypeEqual VNull VNull ∅) keys.
Proof.
  unfold compareObjects_loop. apply foldl_ext_elem_of.
  intros diff key _. apply compareObjects_step_put.
Qed.

Lemma compareArrays_put d arr1 arr2 path :
  compareArrays d arr1 arr2 path =
  foldl (put indexKey (arrayChild d arr1 arr2 path))
        (mkDiff path DiffTypeEqual VNull VNull ∅) (seq 0 (maxLen arr1 arr2)).
Proof.
  unfold compareArrays, compareArrays_loop.
  apply foldl_ext_elem_of.
  intros diff i Hi. apply compareArrays_step_put.
  apply elem_of_seq in Hi. unfold maxLen in Hi. case_bool_decide; lia.
Qed.

Lemma container_init path :
  container path (mkDiff path DiffTypeEqual VNull VNull ∅).
Proof. repeat split; auto. Qed.

Lemma container_eq path d1 d2 :
  container path d1 → container path d2 →
  (∀ k, Children d1 !! k = Children d2 !! k) → d1 = d2.
Proof.
  intros (HP1 & HA1 & HB1 & HT1) (HP2 & HA2 & HB2 & HT2) Hch.
  apply map_eq in Hch.
  destruct d1 as [p1 t1 a1 b1 c1], d2 as [p2 t2 a2 b2 c2]; simpl in *.
  subst. f_equal.
  destruct HT1 as [[-> ?]|[-> ?]], HT2 as [[-> ?]|[-> ?]]; congruence.
Qed.

(** *** Objects *)

Lemma compareObjects_loop_container d obj1 obj2 path keys :
  container path
    (compareObjects_loop d (compareValues d <$> obj1) obj1 obj2 path keys).
Proof.
  rewrite compareObjects_loop_put.
  apply foldl_put_container, container_init.
Qed.

Lemma objectChild_absent d obj1 obj2 path key :
  obj1 !! key = None → obj2 !! key = None →
  objectChild d obj1 obj2 path key = None.
Proof.
  intros H1 H2. unfold objectChild. rewrite H1, H2.
  by destruct (negb _ && _).
Qed.

Lemma compareObjects_loop_lookup d obj1 obj2 path keys key :
  (∀ k, k ∈ keys ↔ k ∈ dom obj1 ∪ dom obj2) →
  Children (compareObjects_loop d (compareValues d <$> obj1) obj1 obj2 path keys)
    !! key = objectChild d obj1 obj2 path key.
Proof.
  intros Hkeys. rewrite compareObjects_loop_put.
  destruct (decide (key ∈ keys)) as [Hin|Hout].
  - rewrite (foldl_put_lookup_in id _ _ keys key);
      [|intros k1 k2 _ _ Heq; by rewrite (Heq : k1 = k2)|done].
    simpl. by destruct (objectChild _ _ _ _ _).
  - rewrite foldl_put_lookup_out by (intros k ? Heq; by rewrite (Heq : k = key) in *). simpl.
    rewrite lookup_empty. symmetry. apply objectChild_absent.
    + apply not_elem_of_dom. intros ?. apply Hout. apply Hkeys.
      apply elem_of_union. by left.
    + apply not_elem_of_dom. intros ?. apply Hout. apply Hkeys.
      apply elem_of_union. by right.
Qed.

Lemma objectKeys_spec obj1 obj2 k :
  k ∈ objectKeys obj1 obj2 ↔ k ∈ dom obj1 ∪ dom obj2.
Proof. unfold objectKeys. apply elem_of_elements. Qed.

Lemma compareObjects_container d obj1 obj2 path :
  container path (compareObjects d obj1 obj2 path).
Proof. apply compareObjects_loop_container. Qed.

Lemma compareObjects_lookup d obj1 obj2 path key :
  Children (compareObjects d obj1 obj2 path) !! key =
  objectChild d obj1 obj2 path key.
Proof. apply compareObjects_loop_lookup, objectKeys_spec. Qed.

(** The order in which the [range] yields the keys, and whether it yields a
    key more than once, make no difference to the result. *)
Lemma compareObjects_loop_order d obj1 obj2 path keys :
  (∀ k, k ∈ keys ↔ k ∈ dom obj1 ∪ dom obj2) →
  compareObjects_loop d (compareValues d <$> obj1) obj1 obj2 path keys =
  compareObjects d obj1 obj2 path.
Proof.
  intros Hkeys. apply (container_eq path).
  - apply compareObjects_loop_container.
  - apply compareObjects_container.
  - intros k. by rewrite compareObjects_loop_lookup, compareObjects_lookup.
Qed.

(** *** Arrays *)

Global Instance indexKey_inj : Inj (=) (=) indexKey.
Proof.
  intros i j H. unfold indexKey in H.
  apply (inj (String.app "[")) in H.
  apply (inj pretty).
  revert H. generalize (pretty i) (pretty j). intros s1.
  induction s1 as [|a s1 IH]; intros [|b s2]; simpl; try done.
  - intros [= <- H]. by destruct s2.
  - intros [= -> H]. by destruct s1.
  - intros [= -> H]. f_equal. by apply IH.
Qed.

Lemma compareArrays_container d arr1 arr2 path :
  container path (compareArrays d arr1 arr2 path).
Proof.
  rewrite compareArrays_put. apply foldl_put_container, container_init.
Qed.

Lemma arrayChild_out d arr1 arr2 path i :
  (maxLen arr1 arr2 ≤ i)%nat → arrayChild d arr1 arr2 path i = None.
Proof.
  intros Hi. unfold maxLen in Hi. unfold arrayChild.
  rewrite (proj2 (lookup_ge_None arr1 i)) by (case_bool_decide; lia).
  by rewrite (proj2 (lookup_ge_None arr2 i)) by (case_bool_decide; lia).
Qed.

Lemma compareArrays_lookup d arr1 arr2 path i :
  Children (compareArrays d arr1 arr2 path) !! indexKey i =
  arrayChild d arr1 arr2 path i.
Proof.
  rewrite compareArrays_put.
  destruct (decide (i < maxLen arr1 arr2)%nat) as [Hin|Hout].
  - rewrite (foldl_put_lookup_in indexKey _ _ _ i).
    + simpl. by destruct (arrayChild _ _ _ _ _).
    + by intros ? ? _ _ ->%indexKey_inj.
    + apply elem_of_seq. lia.
  - rewrite foldl_put_lookup_out.
    + simpl. rewrite lookup_empty. symmetry. apply arrayChild_out. lia.
    + intros k Hk ->%indexKey_inj. apply elem_of_seq in Hk. lia.
Qed.

Lemma compareArrays_lookup_Some d arr1 arr2 path key c :
  Children (compareArrays d arr1 arr2 path) !! key = Some c →
  ∃ i, key = indexKey i ∧ (i < maxLen arr1 arr2)%nat ∧
       arrayChild d arr1 arr2 path i = Some c.
Proof.
  intros Hc.
  destruct (decide (Exists (λ i, indexKey i = key) (seq 0 (maxLen arr1 arr2))))
    as [Hex|Hnex].
  - apply Exists_exists in Hex as (i & Hi & <-).
    exists i. rewrite compareArrays_lookup in Hc.
    apply elem_of_seq in Hi. split; [done|]. split; [lia|done].
  - rewrite compareArrays_put, foldl_put_lookup_out in Hc; [done|].
    intros i Hi Heq. apply Hnex, Exists_exists. eauto.
Qed.

(** [compareValues] as the source has it, with the calls of
    [compareObjects] and [compareArrays] in place. *)
Lemma compareValues_unfold d val1 val2 path :
  compareValues d val1 val2 path =
  if isNil val1 && isNil val2 then leaf path DiffTypeEqual VNull VNull
  else if isNil val1 then leaf path DiffTypeAdded VNull val2
  else if isNil val2 then leaf path DiffTypeRemoved val1 VNull
  else if negb (bool_decide (TypeOf val1 = TypeOf val2)) then
    leaf path DiffTypeModified val1 val2
  else
    match val1, val2 with
    | VObject v1, VObject v2 => compareObjects d v1 v2 path
    | VArray v1, VArray v2 => compareArrays d v1 v2 path
    | _, _ =>
        if DeepEqual val1 val2 then leaf path DiffTypeEqual VNull VNull
        else leaf path DiffTypeModified val1 val2
    end.
Proof. by destruct val1, val2. Qed.

(** ** The ignore rules *)

Lemma ShouldIgnore_fields_spec fields fieldPath :
  ShouldIgnore_fields fields fieldPath = true ↔ fieldPath ∈ fields.
Proof.
  induction fields as [|field rest IH]; simpl.
  - split; [done|]. by intros ?%elem_of_nil.
  - destruct (String.eqb field fieldPath) eqn:Heq.
    + apply String.eqb_eq in Heq as ->. split; [left|done].
    + apply String.eqb_neq in Heq. rewrite IH. split; [by right|].
      intros [?|?]%elem_of_cons; [congruence|done].
Qed.

(** C8. [ShouldIgnore c path] is true exactly when [path] is one of
    [c.IgnoreFields], by equality of strings; [c.IgnorePatterns] has no part
    in the answer.  With the default configuration, ["updateTimestamp"] and
    ["labelFingerprint"], which the default patterns [".*Timestamp$"] and
    [".*Fingerprint$"] describe, are not ignored. *)
Theorem ShouldIgnore_exact_match_only :
  (∀ c path, ShouldIgnore c path = true ↔ path ∈ IgnoreFields c) ∧
  (∀ fields patterns1 patterns2 path,
     ShouldIgnore (mkConfig fields patterns1) path =
     ShouldIgnore (mkConfig fields patterns2) path) ∧
  ShouldIgnore Default "updateTimestamp" = false ∧
  ShouldIgnore Default "labelFingerprint" = false.
Proof.
  split; [|split; [|split]].
  - intros c path. apply ShouldIgnore_fields_spec.
  - reflexivity.
  - reflexivity.
  - reflexivity.
Qed.

(** ** Reflexivity *)

Lemma map_fold_andb_lookup {A} (f : A → bool) (m : gmap string A) k x :
  map_fold (λ _ y acc, f y && acc) true m = true →
  m !! k = Some x → f x = true.
Proof.
  intros Hall Hk.
  rewrite (map_fold_delete_L _ _ k x m) in Hall; [| |done].
  - by apply andb_true_iff in Hall as [? _].
  - intros. by rewrite !andb_assoc, (andb_comm (f z1)).
Qed.

Lemma wellFormed_object obj k v :
  wellFormed (VObject obj) = true → obj !! k = Some v → wellFormed v = true.
Proof. apply (map_fold_andb_lookup wellFormed). Qed.

Lemma wellFormed_array arr i v :
  wellFormed (VArray arr) = true → arr !! i = Some v → wellFormed v = true.
Proof.
  simpl. rewrite forallb_forall. intros Hall Hi.
  apply Hall, list_elem_of_In, list_elem_of_lookup. eauto.
Qed.

Lemma SFeqb_refl f : isNaN f = false → SFeqb f f = true.
Proof.
  destruct f as [s|s| |s m e]; simpl; try done; unfold SFeqb; simpl.
  - by destruct s.
  - destruct s; rewrite Z.compare_refl, Pos.compare_cont_refl; done.
Qed.

Lemma DeepEqual_refl v :
  wellFormed v = true →
  match v with VNull | VArray _ | VObject _ => True | _ => DeepEqual v v = true end.
Proof.
  destruct v; simpl; try done; intros H.
  - by destruct b.
  - apply Z.eqb_refl.
  - apply SFeqb_refl. by destruct (isNaN f).
  - apply String.eqb_refl.
Qed.

Lemma container_Equal path diff :
  container path diff →
  (∀ k, Children diff !! k = None) → Type_ diff = DiffTypeEqual.
Proof.
  intros (_ & _ & _ & [[? _]|[_ Hne]]) Hall; [done|].
  destruct Hne. by apply map_empty.
Qed.

Lemma compareValues_refl d v path :
  wellFormed v = true →
  Type_ (compareValues d v v path) = DiffTypeEqual.
Proof.
  revert path. induction v as [| | | | |arr IH|obj IH] using Value_ind';
    intros path Hwf; rewrite compareValues_unfold; simpl; try done.
  - by rewrite (DeepEqual_refl (VBool b)).
  - by rewrite (DeepEqual_refl (VInt n)).
  - by rewrite (DeepEqual_refl (VFloat f)).
  - by rewrite (DeepEqual_refl (VString s)).
  - apply (container_Equal path); [apply compareArrays_container|].
    intros k. destruct (Children _ !! k) as [c|] eqn:Hc; [|done].
    apply compareArrays_lookup_Some in Hc as (i & -> & _ & Hc).
    unfold arrayChild in Hc.
    destruct (arr !! i) as [v|] eqn:Hv; [|done].
    rewrite Forall_lookup in IH.
    rewrite (IH i v Hv) in Hc by eauto using wellFormed_array.
    by rewrite decide_True in Hc.
  - apply (container_Equal path); [apply compareObjects_container|].
    intros k. rewrite compareObjects_lookup. unfold objectChild.
    destruct (negb _ && _); [done|].
    destruct (obj !! k) as [v|] eqn:Hv; [|done].
    rewrite (IH k v Hv) by eauto using wellFormed_object.
    by rewrite decide_True.
Qed.

(** Without well-formedness reflexivity fails: a NaN differs from itself. *)
Example Compare_NaN_with_itself :
  Type_ (Compare (NewDiffer None false)
           {[ "x" := VFloat S754_nan ]} {[ "x" := VFloat S754_nan ]}) =
  DiffTypeModified.
Proof. vm_compute. reflexivity. Qed.

(** C2. Comparing a well-formed document with itself gives a tree whose
    root is [Equal], whatever the ignore rules and [showAll] are. *)
Theorem Compare_reflexive (cfg : option Config) (all : bool)
    (x : gmap string Value) :
  wellFormed (VObject x) = true →
  Type_ (Compare (NewDiffer cfg all) x x) = DiffTypeEqual.
Proof.
  intros Hwf. unfold Compare.
  change (compareObjects ?d x x "") with (compareValues d (VObject x) (VObject x) "").
  by apply compareValues_refl.
Qed.

Lemma Compare_reflexive_witness :
  Type_ (Compare (NewDiffer None false) sampleInstance sampleInstance) = DiffTypeEqual.
Proof. apply Compare_reflexive. vm_compute. reflexivity. Defined.

(** ** The nodes of a difference tree *)

Lemma elem_of_nodes n d :
  n ∈ nodes d ↔ n = d ∨ ∃ k c, Children d !! k = Some c ∧ n ∈ nodes c.
Proof.
  destruct d as [p t v1 v2 ch]. simpl. rewrite elem_of_cons.
  apply or_iff_compat_l. rewrite list_elem_of_join. split.
  - intros (l & Hn & Hl). apply list_elem_of_fmap in Hl as ([k l'] & -> & Hl).
    apply elem_of_map_to_list in Hl. rewrite lookup_fmap in Hl.
    destruct (ch !! k) as [c|] eqn:Hc; simplify_eq/=. eauto.
  - intros (k & c & Hc & Hn). exists (nodes c). split; [done|].
    apply list_elem_of_fmap. exists (k, nodes c). split; [done|].
    apply elem_of_map_to_list. by rewrite lookup_fmap, Hc.
Qed.

Lemma nodes_root d : d ∈ nodes d.
Proof. apply elem_of_nodes. by left. Qed.

Lemma nodes_child d k c n : Children d !! k = Some c → n ∈ nodes c → n ∈ nodes d.
Proof. intros. apply elem_of_nodes. right. eauto. Qed.


(** ** The shape of the trees that [compareValues] returns *)

Lemma nullFree_object obj k v :
  nullFree (VObject obj) = true → obj !! k = Some v →
  v ≠ VNull ∧ nullFree v = true.
Proof.
  intros Hall Hk.
  apply (map_fold_andb_lookup (λ x, negb (isNil x) && nullFree x) obj k v) in Hk;
    [|done].
  apply andb_true_iff in Hk as [Hn ?]. split; [|done]. by intros ->.
Qed.

Lemma nullFree_array arr i v :
  nullFree (VArray arr) = true → arr !! i = Some v →
  v ≠ VNull ∧ nullFree v = true.
Proof.
  simpl. rewrite forallb_forall. intros Hall Hi.
  assert (In v arr) as Hin by (apply list_elem_of_In, list_elem_of_lookup; eauto).
  apply Hall, andb_true_iff in Hin as [Hn ?]. split; [|done]. by intros ->.
Qed.

Lemma Compared_equal s1 s2 path :
  Compared s1 s2 (leaf path DiffTypeEqual VNull VNull).
Proof.
  apply (Compared_container _ _ path); [apply container_init|].
  intros k c Hc. simpl in Hc. by rewrite lookup_empty in Hc.
Qed.

Lemma compareValues_Compared (s1 s2 : bool) d val1 val2 path :
  (s1 = true → nullFree val1 = true) →
  (s2 = true → nullFree val2 = true) →
  Compared s1 s2 (compareValues d val1 val2 path).
Proof.
  revert val2 path.
  induction val1 as [| | | | |arr1 IH|obj1 IH] using Value_ind';
    intros val2 path Hn1 Hn2; rewrite compareValues_unfold.
  1: { destruct val2; simpl; first apply Compared_equal;
       by apply Compared_added. }
  1-4: destruct val2; simpl; try (by apply Compared_removed);
       try (by apply Compared_modified);
       (match goal with |- context [if ?b then _ else _] => destruct b end;
        [apply Compared_equal|by apply Compared_modified]).
  - destruct val2 as [| | | | |arr2|obj2]; simpl;
      try (by apply Compared_removed); try (by apply Compared_modified).
    apply (Compared_container _ _ path); [apply compareArrays_container|].
    intros k c Hc.
    apply compareArrays_lookup_Some in Hc as (i & -> & _ & Hc).
    unfold arrayChild in Hc.
    destruct (arr1 !! i) as [v1|] eqn:H1, (arr2 !! i) as [v2|] eqn:H2;
      simplify_eq/=.
    + destruct (decide _) as [|Hne]; simplify_eq/=. split; [|done].
      rewrite Forall_lookup in IH. apply (IH i v1 H1).
      * intros ?. by eapply nullFree_array; eauto.
      * intros ?. by eapply nullFree_array; eauto.
    + split; [|done]. apply Compared_removed.
      intros ?. by eapply nullFree_array; eauto.
    + split; [|done]. apply Compared_added.
      intros ?. by eapply nullFree_array; eauto.
  - destruct val2 as [| | | | |arr2|obj2]; simpl;
      try (by apply Compared_removed); try (by apply Compared_modified).
    apply (Compared_container _ _ path); [apply compareObjects_container|].
    intros k c Hc. rewrite compareObjects_lookup in Hc.
    unfold objectChild in Hc.
    destruct (negb _ && _); [done|].
    destruct (obj1 !! k) as [v1|] eqn:H1, (obj2 !! k) as [v2|] eqn:H2;
      simplify_eq/=.
    + destruct (decide _) as [|Hne]; simplify_eq/=. split; [|done].
      apply (IH k v1 H1).
      * intros ?. by eapply nullFree_object; eauto.
      * intros ?. by eapply nullFree_object; eauto.
    + split; [|done]. apply Compared_removed.
      intros ?. by eapply nullFree_object; eauto.
    + split; [|done]. apply Compared_added.
      intros ?. by eapply nullFree_object; eauto.
Qed.

Lemma Compare_Compared (s1 s2 : bool) d obj1 obj2 :
  (s1 = true → nullFree (VObject obj1) = true) →
  (s2 = true → nullFree (VObject obj2) = true) →
  Compared s1 s2 (Compare d obj1 obj2).
Proof.
  intros H1 H2. unfold Compare.
  change (compareObjects d obj1 obj2 "")
    with (compareValues d (VObject obj1) (VObject obj2) "").
  by apply compareValues_Compared.
Qed.

Lemma Compared_nodes s1 s2 d n :
  Compared s1 s2 d → n ∈ nodes d → Compared s1 s2 n.
Proof.
  intros HC. revert n.
  induction d as [d IH] using Diff_ind'. intros n.
  intros [->|(k & c & Hc & Hn)]%elem_of_nodes; [done|].
  apply (IH k c Hc); [|done].
  inversion HC as [? ? ?|? ? ?|? ? ? ? ?|? ? ? Hch]; subst;
    try (simpl in Hc; by rewrite lookup_empty in Hc).
  by apply Hch in Hc as [? _].
Qed.

(** ** Equal children are dropped *)

(** C10. In a tree returned by [Compare], no entry of a node's [Children]
    is [Equal], and a node that is [Equal] has no children. *)
Theorem Compare_no_Equal_child d (obj1 obj2 : gmap string Value) (n : Diff) :
  n ∈ nodes (Compare d obj1 obj2) →
  (∀ k c, Children n !! k = Some c → Type_ c ≠ DiffTypeEqual) ∧
  (Type_ n = DiffTypeEqual → Children n = ∅).
Proof.
  intros Hn.
  assert (Compared false false n) as HC.
  { eapply Compared_nodes; [|done]. by apply Compare_Compared. }
  inversion HC as [? ? ?|? ? ?|? ? ? ? ?|? ? (_ & _ & _ & Ht) Hch]; subst; simpl;
    try (split; [by intros k c; rewrite lookup_empty|done]).
  split.
  - intros k c Hc. by apply Hch in Hc as [_ ?].
  - intros Heq. destruct Ht as [[_ ?]|[? _]]; [done|congruence].
Qed.

Lemma Compare_no_Equal_child_witness :
  let root := Compare (NewDiffer None false) nestedChange1 nestedChange2 in
  (∀ k c, Children root !! k = Some c → Type_ c ≠ DiffTypeEqual) ∧
  (Type_ root = DiffTypeEqual → Children root = ∅).
Proof.
  intros root.
  apply (Compare_no_Equal_child (NewDiffer None false) nestedChange1 nestedChange2).
  apply nodes_root.
Defined.

(** ** Payloads *)


Lemma isNil_false_inv v : isNil v = false → v ≠ VNull.
Proof. by destruct v. Qed.





(** ** Anti-symmetry *)

Lemma mirror_leaf path t v1 v2 :
  mirror (leaf path t v1 v2) = leaf path (swapType t) v2 v1.
Proof. unfold leaf. simpl. by rewrite fmap_empty. Qed.

Lemma mirror_Type d : Type_ (mirror d) = swapType (Type_ d).
Proof. by destruct d. Qed.

Lemma mirror_Children d k :
  Children (mirror d) !! k = mirror <$> Children d !! k.
Proof. destruct d. simpl. by rewrite lookup_fmap. Qed.

Lemma mirror_container path diff :
  container path diff → container path (mirror diff).
Proof.
  destruct diff as [p t v1 v2 ch]. intros (HP & H1 & H2 & Ht); simpl in *.
  repeat split; simpl; auto.
  destruct Ht as [[-> ->]|[-> Hne]].
  - left. by rewrite fmap_empty.
  - right. split; [done|]. by rewrite fmap_empty_iff.
Qed.

Lemma swapType_Equal t : swapType t = DiffTypeEqual ↔ t = DiffTypeEqual.
Proof. by destruct t. Qed.

Lemma compare_cont_Eq_sym m1 m2 :
  Pos.compare_cont Eq m2 m1 = CompOpp (Pos.compare_cont Eq m1 m2).
Proof. by rewrite (Pos.compare_cont_antisym m1 m2 Eq). Qed.

Lemma SFeqb_sym f1 f2 : SFeqb f1 f2 = SFeqb f2 f1.
Proof.
  unfold SFeqb.
  destruct f1 as [s1|s1| |s1 m1 e1], f2 as [s2|s2| |s2 m2 e2]; simpl; try done;
    try (by destruct s1, s2); try (by destruct s1); try (by destruct s2).
  destruct s1, s2; try done;
    rewrite (Z.compare_antisym e1 e2);
    destruct (e1 ?= e2)%Z; simpl; try done;
    rewrite (compare_cont_Eq_sym m1 m2);
    by destruct (Pos.compare_cont Eq m1 m2).
Qed.

Lemma DeepEqual_sym v1 v2 : DeepEqual v1 v2 = DeepEqual v2 v1.
Proof.
  destruct v1, v2; simpl; try done.
  - by destruct b, b0.
  - apply Z.eqb_sym.
  - apply SFeqb_sym.
  - apply String.eqb_sym.
Qed.

Lemma compareValues_mirror d val1 val2 path :
  compareValues d val2 val1 path = mirror (compareValues d val1 val2 path).
Proof.
  revert val2 path.
  induction val1 as [| | | | |arr1 IH|obj1 IH] using Value_ind';
    intros val2 path; rewrite !compareValues_unfold.
  1-5: destruct val2;
       match goal with
       | |- context [DeepEqual ?x ?y] => try rewrite (DeepEqual_sym x y)
       end; simpl; rewrite ?mirror_leaf; try done;
       (match goal with |- context [if ?b then _ else _] => destruct b end;
        by rewrite mirror_leaf).
  - destruct val2 as [| | | | |arr2|obj2]; simpl; rewrite ?mirror_leaf; try done.
    apply (container_eq path).
    { apply compareArrays_container. }
    { apply mirror_container, compareArrays_container. }
    intros k. rewrite mirror_Children.
    destruct (Children (compareArrays d arr2 arr1 path) !! k) as [c|] eqn:Hc.
    + apply compareArrays_lookup_Some in Hc as (i & -> & _ & Hc).
      rewrite compareArrays_lookup. rewrite <- Hc. clear Hc.
      unfold arrayChild.
      destruct (arr1 !! i) as [v1|] eqn:H1, (arr2 !! i) as [v2|] eqn:H2;
        simpl; rewrite ?mirror_leaf; try done.
      rewrite Forall_lookup in IH. rewrite (IH i v1 H1).
      rewrite mirror_Type.
      destruct (decide (Type_ _ = _)) as [Heq|Hne].
      * rewrite decide_True; [done|]. by apply swapType_Equal.
      * rewrite decide_False; [done|]. by rewrite swapType_Equal.
    + destruct (Children (compareArrays d arr1 arr2 path) !! k) as [c|] eqn:Hc';
        [|done].
      apply compareArrays_lookup_Some in Hc' as (i & -> & _ & Hc').
      rewrite compareArrays_lookup in Hc. exfalso.
      unfold arrayChild in Hc, Hc'.
      destruct (arr1 !! i) as [v1|] eqn:H1, (arr2 !! i) as [v2|] eqn:H2;
        simplify_eq/=.
      rewrite Forall_lookup in IH. rewrite (IH i v1 H1), mirror_Type in Hc.
      destruct (decide (Type_ _ = _)) as [Heq|Hne]; [done|].
      rewrite decide_False in Hc; [done|]. by rewrite swapType_Equal.
  - destruct val2 as [| | | | |arr2|obj2]; simpl; rewrite ?mirror_leaf; try done.
    apply (container_eq path).
    { apply compareObjects_container. }
    { apply mirror_container, compareObjects_container. }
    intros k. rewrite mirror_Children, !compareObjects_lookup.
    unfold objectChild. destruct (negb _ && _); [done|].
    destruct (obj1 !! k) as [v1|] eqn:H1, (obj2 !! k) as [v2|] eqn:H2;
      simpl; rewrite ?mirror_leaf; try done.
    rewrite (IH k v1 H1), mirror_Type.
    destruct (decide (Type_ _ = _)) as [Heq|Hne].
    + rewrite decide_True; [done|]. by apply swapType_Equal.
    + rewrite decide_False; [done|]. by rewrite swapType_Equal.
Qed.

Lemma nodes_mirror n d : n ∈ nodes d → mirror n ∈ nodes (mirror d).
Proof.
  revert n. induction d as [d IH] using Diff_ind'. intros n.
  intros [->|(k & c & Hc & Hn)]%elem_of_nodes; [apply nodes_root|].
  apply (nodes_child _ k (mirror c)); [|by apply (IH k c)].
  by rewrite mirror_Children, Hc.
Qed.

Lemma mirror_involutive d : mirror (mirror d) = d.
Proof.
  induction d as [d IH] using Diff_ind'.
  destruct d as [p t v1 v2 ch]; simpl in *. f_equal.
  - by destruct t.
  - rewrite <- map_fmap_compose. apply map_eq. intros k.
    rewrite lookup_fmap. destruct (ch !! k) as [c|] eqn:Hc; simpl; [|done].
    f_equal. by apply (IH k c).
Qed.

(** C3. [Compare(b, a)] is [Compare(a, b)] read from the other side: the two
    trees have the same paths, and to every node of the one corresponds a
    node of the other at the same path, with [Added] and [Removed]
    exchanged, and with [Value1] and [Value2] exchanged. *)
Theorem Compare_antisymmetric d (a b : gmap string Value) :
  Compare d b a = mirror (Compare d a b) ∧
  (∀ path, path ∈ Path <$> nodes (Compare d b a) ↔
           path ∈ Path <$> nodes (Compare d a b)) ∧
  (∀ n, n ∈ nodes (Compare d a b) →
        ∃ n', n' ∈ nodes (Compare d b a) ∧
              Path n' = Path n ∧ Type_ n' = swapType (Type_ n) ∧
              Value1 n' = Value2 n ∧ Value2 n' = Value1 n).
Proof.
  assert (∀ x y, Compare d y x = mirror (Compare d x y)) as Hm.
  { intros x y. unfold Compare.
    change (compareObjects d ?o1 ?o2 "")
      with (compareValues d (VObject o1) (VObject o2) "").
    apply compareValues_mirror. }
  assert (∀ x y p, p ∈ Path <$> nodes (Compare d x y) →
                   p ∈ Path <$> nodes (Compare d y x)) as Hp.
  { intros x y p (n & -> & Hn)%list_elem_of_fmap.
    apply list_elem_of_fmap. exists (mirror n). split; [by destruct n|].
    rewrite (Hm x y). by apply nodes_mirror. }
  split; [apply Hm|]. split.
  - intros p. split; apply Hp.
  - intros n Hn. exists (mirror n). rewrite (Hm a b).
    split; [by apply nodes_mirror|]. by destruct n.
Qed.

Lemma Compare_antisymmetric_witness :
  ∃ n', n' ∈ nodes (Compare (NewDiffer None false) added2 added1) ∧
        Path n' = "zone" ∧ Type_ n' = DiffTypeRemoved ∧
        Value1 n' = VString "z1" ∧ Value2 n' = VNull.
Proof.
  destruct (Compare_antisymmetric (NewDiffer None false) added1 added2)
    as (_ & _ & H).
  apply (H (leaf "zone" DiffTypeAdded VNull (VString "z1"))).
  apply (nodes_child _ "zone" (leaf "zone" DiffTypeAdded VNull (VString "z1")));
    [|apply nodes_root].
  vm_compute. reflexivity.
Defined.

(** ** Null handling *)

(** C6. Where a key is present in both objects and exactly one of the two
    values is null, the child stored under the key is [Added] (null on the
    left) with the value as [Value2], or [Removed] (null on the right) with
    the value as [Value1], at every depth; so are [Compare({x:null}, {x:5})]
    and its reverse at [x]. *)
Theorem Compare_null_handling :
  (∀ d val path, val ≠ VNull →
     compareValues d VNull val path = leaf path DiffTypeAdded VNull val ∧
     compareValues d val VNull path = leaf path DiffTypeRemoved val VNull) ∧
  (∀ d obj1 obj2 path key val,
     negb (showAll d) && ShouldIgnore (config d) (fieldPathOf path key) = false →
     val ≠ VNull →
     (obj1 !! key = Some VNull → obj2 !! key = Some val →
        Children (compareObjects d obj1 obj2 path) !! key =
        Some (leaf (fieldPathOf path key) DiffTypeAdded VNull val)) ∧
     (obj1 !! key = Some val → obj2 !! key = Some VNull →
        Children (compareObjects d obj1 obj2 path) !! key =
        Some (leaf (fieldPathOf path key) DiffTypeRemoved val VNull))) ∧
  Children (Compare (NewDiffer None false) {[ "x" := VNull ]} {[ "x" := VInt 5 ]})
    !! "x" = Some (leaf "x" DiffTypeAdded VNull (VInt 5)) ∧
  Children (Compare (NewDiffer None false) {[ "x" := VInt 5 ]} {[ "x" := VNull ]})
    !! "x" = Some (leaf "x" DiffTypeRemoved (VInt 5) VNull).
Proof.
  assert (∀ d val path, val ≠ VNull →
     compareValues d VNull val path = leaf path DiffTypeAdded VNull val ∧
     compareValues d val VNull path = leaf path DiffTypeRemoved val VNull) as Hv.
  { intros d val path Hval. rewrite !compareValues_unfold.
    by destruct val. }
  split; [exact Hv|]. split.
  - intros d obj1 obj2 path key val Hign Hval. split; intros H1 H2.
    + rewrite compareObjects_lookup. unfold objectChild.
      rewrite Hign, H1, H2.
      destruct (Hv d val (fieldPathOf path key) Hval) as [Heq _].
      cbv beta iota zeta. by rewrite Heq.
    + rewrite compareObjects_lookup. unfold objectChild.
      rewrite Hign, H1, H2.
      destruct (Hv d val (fieldPathOf path key) Hval) as [_ Heq].
      cbv beta iota zeta. by rewrite Heq.
  - split; vm_compute; reflexivity.
Qed.

Lemma Compare_null_handling_witness :
  Children (compareObjects (NewDiffer None false)
              {[ "spec" := VNull ]} {[ "spec" := VString "v" ]} "template")
    !! "spec" = Some (leaf "template.spec" DiffTypeAdded VNull (VString "v")).
Proof.
  destruct Compare_null_handling as (_ & H & _).
  apply (H (NewDiffer None false) {[ "spec" := VNull ]}
           {[ "spec" := VString "v" ]} "template" "spec" (VString "v")).
  - reflexivity.
  - discriminate.
  - reflexivity.
  - reflexivity.
Defined.

(** ** Positional comparison of arrays *)

(** C7. [compareArrays] stores children under index keys below
    [max(len1, len2)] only; under the key of an index that both arrays have,
    the comparison of the two elements at that index, unless it is [Equal];
    under the key of an index that only the second (first) array has, an
    [Added] ([Removed]) leaf with the element.  So
    [Compare({a:[1,2,3]}, {a:[0,1,2,3]})] has [Modified] at the indices 0, 1
    and 2 and [Added] at the index 3. *)
Theorem compareArrays_positional :
  (∀ d arr1 arr2 path key c,
     Children (compareArrays d arr1 arr2 path) !! key = Some c →
     ∃ i, key = indexKey i ∧ (i < length arr1 `max` length arr2)%nat) ∧
  (∀ d arr1 arr2 path i val1 val2,
     arr1 !! i = Some val1 → arr2 !! i = Some val2 →
     Children (compareArrays d arr1 arr2 path) !! indexKey i =
       let childDiff := compareValues d val1 val2 (path +:+ indexKey i) in
       if decide (Type_ childDiff = DiffTypeEqual) then None
       else Some childDiff) ∧
  (∀ d arr1 arr2 path i val2,
     (length arr1 ≤ i)%nat → arr2 !! i = Some val2 →
     Children (compareArrays d arr1 arr2 path) !! indexKey i =
       Some (leaf (path +:+ indexKey i) DiffTypeAdded VNull val2)) ∧
  (∀ d arr1 arr2 path i val1,
     arr1 !! i = Some val1 → (length arr2 ≤ i)%nat →
     Children (compareArrays d arr1 arr2 path) !! indexKey i =
       Some (leaf (path +:+ indexKey i) DiffTypeRemoved val1 VNull)) ∧
  Children (Compare (NewDiffer None false) shifted1 shifted2) !! "a" =
    Some (mkDiff "a" DiffTypeModified VNull VNull
            {[ "[0]" := leaf "a[0]" DiffTypeModified (VInt 1) (VInt 0);
               "[1]" := leaf "a[1]" DiffTypeModified (VInt 2) (VInt 1);
               "[2]" := leaf "a[2]" DiffTypeModified (VInt 3) (VInt 2);
               "[3]" := leaf "a[3]" DiffTypeAdded VNull (VInt 3) ]}).
Proof.
  split; [|split; [|split; [|split]]].
  - intros d arr1 arr2 path key c Hc.
    apply compareArrays_lookup_Some in Hc as (i & -> & Hi & _).
    exists i. split; [done|]. unfold maxLen in Hi. case_bool_decide; lia.
  - intros d arr1 arr2 path i val1 val2 H1 H2.
    rewrite compareArrays_lookup. unfold arrayChild. by rewrite H1, H2.
  - intros d arr1 arr2 path i val2 H1 H2.
    rewrite compareArrays_lookup. unfold arrayChild.
    by rewrite (proj2 (lookup_ge_None arr1 i) H1), H2.
  - intros d arr1 arr2 path i val1 H1 H2.
    rewrite compareArrays_lookup. unfold arrayChild.
    by rewrite H1, (proj2 (lookup_ge_None arr2 i) H2).
  - vm_compute. reflexivity.
Qed.

Lemma compareArrays_positional_witness :
  Children (compareArrays (NewDiffer None false)
              [VString "a"; VString "b"; VString "c"]
              [VString "a"; VString "b"] "items") !! indexKey 2 =
  Some (leaf "items[2]" DiffTypeRemoved (VString "c") VNull).
Proof.
  destruct compareArrays_positional as (_ & _ & _ & H & _).
  apply (H (NewDiffer None false) [VString "a"; VString "b"; VString "c"]
           [VString "a"; VString "b"] "items" 2 (VString "c")).
  - reflexivity.
  - simpl. lia.
Defined.

(** ** The collector *)

(** [GetAllDiffs] as the source has it: the node itself when it is a leaf
    that is not [Equal], then the results for the children in the order of
    the sorted keys. *)
Lemma GetAllDiffs_unfold diff :
  GetAllDiffs diff =
  (if bool_decide (Type_ diff ≠ DiffTypeEqual) &&
      bool_decide (size (Children diff) = 0)
   then [diff] else []) ++
  (sortStrings (map_to_list (Children diff)).*1 ≫= λ key,
     match Children diff !! key with
     | Some child => GetAllDiffs child
     | None => []
     end).
Proof.
  destruct diff as [p t v1 v2 ch]. simpl. f_equal.
  apply list_bind_ext; [|done]. intros key. rewrite lookup_fmap.
  by destruct (ch !! key).
Qed.

Lemma elem_of_map_keys {A} (m : gmap string A) k :
  k ∈ (map_to_list m).*1 ↔ is_Some (m !! k).
Proof.
  rewrite list_elem_of_fmap. split.
  - intros ([k' x] & -> & Hx). apply elem_of_map_to_list in Hx. by exists x.
  - intros [x Hx]. exists (k, x). split; [done|]. by apply elem_of_map_to_list.
Qed.

Lemma sortStrings_Sorted keys : Sorted String.le (sortStrings keys).
Proof. apply (Sorted_merge_sort String.le). Qed.

Lemma sortStrings_Permutation keys : sortStrings keys ≡ₚ keys.
Proof. apply merge_sort_Permutation. Qed.

Lemma elem_of_GetAllDiffs_step n diff :
  n ∈ GetAllDiffs diff ↔
  (n = diff ∧ Type_ diff ≠ DiffTypeEqual ∧ Children diff = ∅) ∨
  (∃ key child, Children diff !! key = Some child ∧ n ∈ GetAllDiffs child).
Proof.
  rewrite GetAllDiffs_unfold, elem_of_app. f_equiv.
  - destruct (bool_decide (Type_ diff ≠ DiffTypeEqual)) eqn:Ht; simpl.
    + apply bool_decide_eq_true in Ht. case_bool_decide as Hs.
      * apply map_size_empty_iff in Hs. rewrite list_elem_of_singleton.
        split; [by intros ->|by intros [? _]].
      * rewrite map_size_empty_iff in Hs. rewrite elem_of_nil.
        split; [done|by intros (_ & _ & ?)].
    + apply bool_decide_eq_false in Ht. rewrite elem_of_nil.
      split; [done|by intros (_ & ? & _)].
  - rewrite list_elem_of_bind. split.
    + intros (key & Hn & _). destruct (Children diff !! key) as [child|] eqn:Hc.
      * eauto.
      * by apply elem_of_nil in Hn.
    + intros (key & child & Hc & Hn). exists key. rewrite Hc. split; [done|].
      rewrite sortStrings_Permutation. apply elem_of_map_keys. eauto.
Qed.

Lemma elem_of_GetAllDiffs n diff :
  n ∈ GetAllDiffs diff ↔
  n ∈ nodes diff ∧ Type_ n ≠ DiffTypeEqual ∧ Children n = ∅.
Proof.
  revert n. induction diff as [diff IH] using Diff_ind'. intros n.
  rewrite elem_of_GetAllDiffs_step, elem_of_nodes. split.
  - intros [(-> & ? & ?)|(key & child & Hc & Hn)].
    + split; [by left|done].
    + apply (IH key child Hc) in Hn as (? & ? & ?).
      split; [|done]. right. eauto.
  - intros ([->|(key & child & Hc & Hn)] & ? & ?).
    + by left.
    + right. exists key, child. split; [done|]. by apply (IH key child Hc).
Qed.

(** [GetAllDiffs] on the tree of [Compare({a:[0,...,10]}, {a:[]})] visits the
    index 10 before the indices 1 and 2: the keys are sorted as strings, and
    ["[10]"] is below ["[1]"] because ['0'] is below [']']. *)
Lemma GetAllDiffs_index_10_before_2 :
  Path <$> GetAllDiffs (Compare (NewDiffer None false) elevenItems noItems) =
  ["a[0]"; "a[10]"; "a[1]"; "a[2]"; "a[3]"; "a[4]"; "a[5]"; "a[6]"; "a[7]";
   "a[8]"; "a[9]"].
Proof. vm_compute. reflexivity. Qed.

(** C1, as the code has it.  [GetAllDiffs] emits the node itself when it
    has no children and is not [Equal], and then the results for its
    children, one child after the other in the ascending byte-wise order of
    their keys, each key once; what it emits are the nodes of the tree that
    have no children and are not [Equal].  Index keys are ordered as the
    strings they are: ["[10]"] comes before ["[2]"]. *)
Theorem GetAllDiffs_preorder_sorted_keys (diff : Diff) :
  (∃ keys : list string,
     Sorted String.le keys ∧ NoDup keys ∧
     (∀ key, key ∈ keys ↔ is_Some (Children diff !! key)) ∧
     GetAllDiffs diff =
       (if bool_decide (Type_ diff ≠ DiffTypeEqual) &&
           bool_decide (size (Children diff) = 0)
        then [diff] else []) ++
       (keys ≫= λ key,
          match Children diff !! key with
          | Some child => GetAllDiffs child
          | None => []
          end)) ∧
  (∀ n, n ∈ GetAllDiffs diff ↔
        n ∈ nodes diff ∧ Type_ n ≠ DiffTypeEqual ∧ Children n = ∅) ∧
  sortStrings [indexKey 2; indexKey 10] = [indexKey 10; indexKey 2].
Proof.
  split; [|split].
  - exists (sortStrings (map_to_list (Children diff)).*1).
    split; [apply sortStrings_Sorted|]. split; [|split].
    + rewrite sortStrings_Permutation. apply NoDup_fst_map_to_list.
    + intros key. rewrite sortStrings_Permutation. apply elem_of_map_keys.
    + apply GetAllDiffs_unfold.
  - intros n. apply elem_of_GetAllDiffs.
  - vm_compute. reflexivity.
Qed.

(** ** Ignoring is monotone *)

Lemma length_bind_sum {A B} (f : A → list B) (g : A → nat) (l : list A) :
  (∀ x, length (f x) = g x) →
  length (l ≫= f) = sum_list_with g l.
Proof.
  intros Hfg. induction l as [|x l IH]; [done|].
  rewrite bind_cons, length_app, IH, Hfg. done.
Qed.

Lemma sum_list_with_zero {A} (f : A → nat) (l : list A) :
  (∀ x, x ∈ l → f x = 0) → sum_list_with f l = 0.
Proof.
  induction l as [|x l IH]; intros H; simpl; [done|].
  rewrite H by left. rewrite IH; [done|]. intros y ?. apply H. by right.
Qed.

Lemma sum_list_with_le {A} (f g : A → nat) (l : list A) :
  (∀ x, x ∈ l → f x ≤ g x) → sum_list_with f l ≤ sum_list_with g l.
Proof.
  induction l as [|x l IH]; intros H; simpl; [done|].
  pose proof (H x (list_elem_of_here _ _)).
  assert (sum_list_with f l ≤ sum_list_with g l).
  { apply IH. intros y ?. apply H. by right. }
  lia.
Qed.

Lemma GetAllDiffs_length_container path diff (keys : list string) :
  container path diff → NoDup keys →
  (∀ key, is_Some (Children diff !! key) → key ∈ keys) →
  length (GetAllDiffs diff) = sum_list_with (leafCount (Children diff)) keys.
Proof.
  intros (_ & _ & _ & Ht) Hnd Hkeys.
  rewrite GetAllDiffs_unfold, length_app.
  assert ((if bool_decide (Type_ diff ≠ DiffTypeEqual) &&
              bool_decide (size (Children diff) = 0)
           then [diff] else []) = []) as ->.
  { destruct Ht as [[-> _]|[_ Hne]].
    - by rewrite bool_decide_eq_false_2 by (by intros []).
    - rewrite (bool_decide_eq_false_2 (size _ = 0)), andb_false_r; [done|].
      by rewrite map_size_empty_iff. }
  simpl. rewrite (length_bind_sum _ (leafCount (Children diff))).
  2:{ intros x. unfold leafCount. by destruct (Children diff !! x). }
  rewrite sortStrings_Permutation.
  destruct (submseteq_Permutation (map_to_list (Children diff)).*1 keys)
    as [rest Hrest].
  { apply NoDup_submseteq; [apply NoDup_fst_map_to_list|].
    intros k Hk. by apply Hkeys, elem_of_map_keys. }
  rewrite Hrest, sum_list_with_app.
  rewrite (sum_list_with_zero _ rest); [lia|].
  intros k Hk. unfold leafCount.
  destruct (Children diff !! k) as [c|] eqn:Hc; [|done].
  rewrite Hrest in Hnd. apply NoDup_app in Hnd as (_ & Hdis & _).
  destruct (Hdis k); [|done]. apply elem_of_map_keys. eauto.
Qed.

Lemma GetAllDiffs_leaf path t v1 v2 :
  GetAllDiffs (leaf path t v1 v2) =
  if bool_decide (t ≠ DiffTypeEqual) then [leaf path t v1 v2] else [].
Proof.
  rewrite GetAllDiffs_unfold. simpl.
  rewrite map_size_empty, map_to_list_empty. simpl.
  rewrite andb_true_r, app_nil_r. done.
Qed.

Lemma Compared_Equal_no_leaves s1 s2 c :
  Compared s1 s2 c → Type_ c = DiffTypeEqual → GetAllDiffs c = [].
Proof.
  intros HC Heq.
  inversion HC as [? ? ?|? ? ?|? ? ? ? ?|? ? (_ & _ & _ & Ht) _]; subst;
    try discriminate.
  destruct Ht as [[_ Hch]|[? _]]; [|congruence].
  rewrite GetAllDiffs_unfold, Heq, Hch, map_to_list_empty. done.
Qed.

Lemma compareArrays_children_rel (f : Diff → Diff) d d' arr1 arr2 arr1' arr2'
    path path' :
  (∀ i, arrayChild d arr1 arr2 path i = f <$> arrayChild d' arr1' arr2' path' i) →
  ∀ key, Children (compareArrays d arr1 arr2 path) !! key =
         f <$> Children (compareArrays d' arr1' arr2' path') !! key.
Proof.
  intros Hrel key.
  destruct (Children (compareArrays d arr1 arr2 path) !! key) as [c|] eqn:Hc.
  - apply compareArrays_lookup_Some in Hc as (i & -> & _ & Hc).
    by rewrite compareArrays_lookup, <- Hrel.
  - destruct (Children (compareArrays d' arr1' arr2' path') !! key)
      as [c'|] eqn:Hc'; [|done].
    apply compareArrays_lookup_Some in Hc' as (i & -> & _ & Hc').
    by rewrite compareArrays_lookup, Hrel, Hc' in Hc.
Qed.

Lemma compareValues_count_mono d d' :
  (∀ p, ignores d p = true → ignores d' p = true) →
  ∀ val1 val2 path,
    length (GetAllDiffs (compareValues d' val1 val2 path)) ≤
    length (GetAllDiffs (compareValues d val1 val2 path)).
Proof.
  intros Hmono val1.
  assert (∀ v1 v2 p,
    length (GetAllDiffs (compareValues d' v1 v2 p)) ≤
    length (GetAllDiffs (compareValues d v1 v2 p)) →
    match (if decide (Type_ (compareValues d' v1 v2 p) = DiffTypeEqual)
           then None else Some (compareValues d' v1 v2 p)) with
    | Some child => length (GetAllDiffs child)
    | None => 0
    end ≤
    match (if decide (Type_ (compareValues d v1 v2 p) = DiffTypeEqual)
           then None else Some (compareValues d v1 v2 p)) with
    | Some child => length (GetAllDiffs child)
    | None => 0
    end) as Hchild.
  { intros v1 v2 p Hle.
    destruct (decide (Type_ (compareValues d v1 v2 p) = _)) as [Heq|Hne].
    - rewrite (Compared_Equal_no_leaves false false _
                 (compareValues_Compared false false d v1 v2 p
                    ltac:(done) ltac:(done)) Heq) in Hle.
      destruct (decide _); simpl in *; lia.
    - destruct (decide _); simpl in *; lia. }
  induction val1 as [| | | | |arr1 IH|obj1 IH] using Value_ind';
    intros val2 path; rewrite !compareValues_unfold.
  1-5: by destruct val2.
  - destruct val2 as [| | | | |arr2|obj2]; try done. simpl.
    rewrite !(GetAllDiffs_length_container path _
                (indexKey <$> seq 0 (maxLen arr1 arr2))).
    + apply sum_list_with_le. intros k (i & -> & Hi)%list_elem_of_fmap.
      unfold leafCount. rewrite !compareArrays_lookup. unfold arrayChild.
      destruct (arr1 !! i) as [v1|] eqn:H1, (arr2 !! i) as [v2|] eqn:H2;
        try done.
      rewrite Forall_lookup in IH. apply Hchild, (IH i v1 H1).
    + apply compareArrays_container.
    + apply (NoDup_fmap_2 _), NoDup_seq.
    + intros key [c Hc].
      apply compareArrays_lookup_Some in Hc as (i & -> & Hi & _).
      apply list_elem_of_fmap_2, elem_of_seq. lia.
    + apply compareArrays_container.
    + apply (NoDup_fmap_2 _), NoDup_seq.
    + intros key [c Hc].
      apply compareArrays_lookup_Some in Hc as (i & -> & Hi & _).
      apply list_elem_of_fmap_2, elem_of_seq. lia.
  - destruct val2 as [| | | | |arr2|obj2]; try done. simpl.
    assert (∀ dd key, is_Some (Children (compareObjects dd obj1 obj2 path) !! key) →
                      key ∈ objectKeys obj1 obj2) as Hkeys.
    { intros dd key [c Hc]. rewrite compareObjects_lookup in Hc.
      apply objectKeys_spec, elem_of_union. rewrite !elem_of_dom.
      destruct (obj1 !! key) eqn:H1; [by left|].
      destruct (obj2 !! key) eqn:H2; [by right|].
      by rewrite objectChild_absent in Hc. }
    rewrite !(GetAllDiffs_length_container path _ (objectKeys obj1 obj2));
      try apply compareObjects_container; try apply NoDup_elements;
      try apply Hkeys.
    apply sum_list_with_le. intros key _.
    unfold leafCount. rewrite !compareObjects_lookup. unfold objectChild.
    fold (ignores d (fieldPathOf path key)).
    fold (ignores d' (fieldPathOf path key)).
    destruct (ignores d (fieldPathOf path key)) eqn:Hi.
    { by rewrite (Hmono _ Hi). }
    destruct (ignores d' (fieldPathOf path key)); [lia|].
    destruct (obj1 !! key) as [v1|] eqn:H1, (obj2 !! key) as [v2|] eqn:H2;
      try done.
    apply Hchild, (IH key v1 H1).
Qed.

Lemma compareValues_ignores_ext d d' :
  (∀ p, ignores d p = ignores d' p) →
  ∀ val1 val2 path,
    compareValues d val1 val2 path = compareValues d' val1 val2 path.
Proof.
  intros Hext val1.
  induction val1 as [| | | | |arr1 IH|obj1 IH] using Value_ind';
    intros val2 path; rewrite !compareValues_unfold.
  1-5: by destruct val2.
  - destruct val2 as [| | | | |arr2|obj2]; try done. simpl.
    apply (container_eq path); try apply compareArrays_container.
    intros key.
    rewrite (compareArrays_children_rel id d d' arr1 arr2 arr1 arr2 path path).
    { by rewrite option_fmap_id. }
    intros i. rewrite option_fmap_id. unfold arrayChild.
    destruct (arr1 !! i) as [v1|] eqn:H1, (arr2 !! i) as [v2|] eqn:H2;
      try done.
    rewrite Forall_lookup in IH. by rewrite (IH i v1 H1).
  - destruct val2 as [| | | | |arr2|obj2]; try done. simpl.
    apply (container_eq path); try apply compareObjects_container.
    intros key. rewrite !compareObjects_lookup. unfold objectChild.
    fold (ignores d (fieldPathOf path key)).
    fold (ignores d' (fieldPathOf path key)).
    rewrite <- Hext. destruct (ignores d _); [done|].
    destruct (obj1 !! key) as [v1|] eqn:H1, (obj2 !! key) as [v2|] eqn:H2;
      try done.
    by rewrite (IH key v1 H1).
Qed.

(** C4. With [showAll = false], a configuration with one more ignored path
    never gives more leaf differences; with [showAll = true], [Compare]
    gives, whatever the configuration, the tree that it gives when nothing
    is ignored. *)
Theorem ignoring_monotone (cfg : Config) (ignored : string)
    (a b : gmap string Value) :
  length (GetAllDiffs (Compare (NewDiffer (Some (addIgnore ignored cfg)) false) a b))
  ≤ length (GetAllDiffs (Compare (NewDiffer (Some cfg) false) a b)) ∧
  (∀ anyCfg : option Config,
     Compare (NewDiffer anyCfg true) a b =
     Compare (NewDiffer (Some (mkConfig [] [])) false) a b).
Proof.
  unfold Compare.
  change (compareObjects ?d a b "")
    with (compareValues d (VObject a) (VObject b) "").
  split.
  - apply compareValues_count_mono. intros p. unfold ignores. simpl.
    unfold ShouldIgnore. simpl. rewrite !ShouldIgnore_fields_spec.
    intros ?. apply elem_of_app. by left.
  - intros anyCfg. by apply compareValues_ignores_ext.
Qed.

(** ** The hierarchical renderer *)

Lemma alloc_dottedTree : alloc dottedTree [] = (2, dottedHeap).
Proof. vm_compute. reflexivity. Qed.

Lemma String_length_app s1 s2 :
  String.length (s1 +:+ s2) = String.length s1 + String.length s2.
Proof. induction s1 as [|c s1 IH]; simpl; [done|]. by rewrite <- IH. Qed.

Section Divergence.

Context (green red yellow cyan bold : Color).
Context (Sprintf_q : string → string).
Context (Sprintf_v : Value → string).
Context (Marshal : Value → string).
Context (MarshalIndent : Value → string → option string).
Context (Sscanf_index : string → Z).

Local Abbreviation render :=
  (PrintGitStyleDiffV2 green red yellow cyan bold Sprintf_q Sprintf_v Marshal
                       MarshalIndent Sscanf_index).
Local Abbreviation textAFirst := (textAFirst green red yellow cyan bold Sprintf_v).
Local Abbreviation textABFirst := (textABFirst green red yellow cyan bold Sprintf_v).

Lemma render_a_first fuel name1 name2 :
  render (2 + fuel) 2 name1 name2 (mkWorld dottedHeap [["a"; "a.b"]] "") =
  Done () (mkWorld heapAfterAFirst [] (textAFirst name1 name2)).
Proof. vm_compute. reflexivity. Qed.

Lemma render_ab_first fuel name1 name2 :
  render (2 + fuel) 2 name1 name2 (mkWorld dottedHeap [["a.b"; "a"]] "") =
  Done () (mkWorld heapAfterABFirst [] (textABFirst name1 name2)).
Proof. vm_compute. reflexivity. Qed.

(** A second rendering that takes the order of the first writes the same
    text and leaves the heap as the first left it. *)
Lemma render_a_first_again fuel name1 name2 :
  render (2 + fuel) 2 name1 name2 (mkWorld heapAfterAFirst [["a"; "a.b"]] "") =
  Done () (mkWorld heapAfterAFirst [] (textAFirst name1 name2)).
Proof. vm_compute. reflexivity. Qed.

Lemma texts_differ name1 name2 : textAFirst name1 name2 ≠ textABFirst name1 name2.
Proof.
  intros Heq. apply (f_equal String.length) in Heq.
  unfold textAFirst, textABFirst, written, headerText, nestedLeafText in Heq.
  simpl in Heq. unfold sprint in Heq.
  rewrite !String_length_app in Heq. simpl in Heq. lia.
Qed.

Lemma heapAfterAFirst_changed : heapAfterAFirst ≠ dottedHeap.
Proof.
  intros Heq.
  apply (f_equal (λ h, (λ n, size (nodeChildren n)) <$> h !! 0)) in Heq.
  vm_compute in Heq. discriminate Heq.
Qed.

(** [printFieldDiff] at a node that has children, not all of them under
    index keys, and is [Modified]. *)
Lemma printFieldDiff_object fuel fieldName p indent d w :
  heap w !! p = Some d →
  isArrayDiff d = false →
  negb (bool_decide (size (nodeChildren d) = 0)) &&
    bool_decide (nodeType d = DiffTypeModified) = true →
  printFieldDiff green red yellow cyan Sprintf_q Sprintf_v Marshal
                 MarshalIndent Sscanf_index (S fuel) fieldName p indent w =
  (write (Repeat "  " indent +:+ sprint yellow "~" +:+ " " +:+
          sprint cyan fieldName +:+ newline) ;;
   forEach (getSortedKeys (nodeChildren d)) (λ childKey,
     match nodeChildren d !! childKey with
     | Some childDiff =>
         printFieldDiff green red yellow cyan Sprintf_q Sprintf_v Marshal
                        MarshalIndent Sscanf_index fuel childKey childDiff
                        (S indent)
     | None => λ _, NilDeref
     end)) w.
Proof.
  intros Hp Harr Hobj. simpl. unfold bind at 1, deref. rewrite Hp.
  by rewrite Harr, Hobj.
Qed.

(** On the heap on which [a] and [a.b] are children of each other,
    [printFieldDiff] does not return from either, whatever the fuel. *)
Lemma printFieldDiff_cycle fuel :
  (∀ fieldName indent rs o,
     printFieldDiff green red yellow cyan Sprintf_q Sprintf_v Marshal
                    MarshalIndent Sscanf_index fuel fieldName 0 indent
                    (mkWorld heapAfterBoth rs o) = OutOfFuel) ∧
  (∀ fieldName indent rs o,
     printFieldDiff green red yellow cyan Sprintf_q Sprintf_v Marshal
                    MarshalIndent Sscanf_index fuel fieldName 1 indent
                    (mkWorld heapAfterBoth rs o) = OutOfFuel).
Proof.
  induction fuel as [|fuel [IH0 IH1]]; [by split|].
  split; intros fieldName indent rs o.
  - rewrite (printFieldDiff_object _ _ _ _ (nodeA {[ "a.b" := 1 ]}));
      [|reflexivity|vm_compute; reflexivity|vm_compute; reflexivity].
    change (getSortedKeys (nodeChildren (nodeA {[ "a.b" := 1 ]}))) with ["a.b"].
    unfold bind at 1, write. simpl forEach. unfold bind at 1.
    rewrite lookup_singleton_eq. by rewrite IH1.
  - rewrite (printFieldDiff_object _ _ _ _ (nodeAB {[ "a" := 0 ]}));
      [|reflexivity|vm_compute; reflexivity|vm_compute; reflexivity].
    change (getSortedKeys (nodeChildren (nodeAB {[ "a" := 0 ]}))) with ["a"].
    unfold bind at 1, write. simpl forEach. unfold bind at 1.
    rewrite lookup_singleton_eq. by rewrite IH0.
Qed.

Lemma getTopLevelDiffs_ab_first_after_a_first rs o :
  getTopLevelDiffs 2 (mkWorld heapAfterAFirst (["a.b"; "a"] :: rs) o) =
  Done {[ "a" := 1 ]} (mkWorld heapAfterBoth rs o).
Proof. vm_compute. reflexivity. Qed.

Lemma render_cycle fuel name1 name2 :
  render fuel 2 name1 name2 (mkWorld heapAfterAFirst [["a.b"; "a"]] "") =
  OutOfFuel.
Proof.
  unfold PrintGitStyleDiffV2.
  unfold bind at 1, write at 1. cbn [heap ranges out].
  unfold bind at 1, write at 1. cbn [heap ranges out].
  unfold bind at 1, deref at 1. cbn [heap ranges out].
  change (heapAfterAFirst !! 2) with (Some dottedRoot). cbv beta iota.
  rewrite decide_False by discriminate.
  unfold bind at 1. rewrite getTopLevelDiffs_ab_first_after_a_first.
  rewrite decide_False by (vm_compute; discriminate).
  unfold bind at 1, write at 1. cbn [heap ranges out].
  change (getSortedKeys ({[ "a" := 1 ]} : gmap string loc)) with ["a"].
  cbn [forEach]. unfold bind at 1.
  rewrite lookup_singleton_eq. unfold bind at 1.
  by rewrite (proj2 (printFieldDiff_cycle fuel)).
Qed.

(** C9, where the code breaks it.  The tree of
    [Compare({"a":1, "a.b":1}, {"a":2, "a.b":2})] has the children ["a"] and
    ["a.b"], which have the same top-level field.  When the [range] of
    [getTopLevelDiffs] yields ["a"] first, [PrintGitStyleDiffV2] writes
    [textAFirst]; when it yields ["a.b"] first, it writes [textABFirst],
    which is another text.  Either rendering stores into the tree.  After a
    rendering of the first kind, a rendering that takes the same order
    writes the same text again, and a rendering of the second kind finds
    [a] and [a.b] to be children of each other and does not return. *)
Theorem PrintGitStyleDiffV2_not_idempotent :
  alloc dottedTree [] = (2, dottedHeap) ∧
  (∀ fuel name1 name2,
     render (2 + fuel) 2 name1 name2 (mkWorld dottedHeap [["a"; "a.b"]] "") =
     Done () (mkWorld heapAfterAFirst [] (textAFirst name1 name2))) ∧
  (∀ fuel name1 name2,
     render (2 + fuel) 2 name1 name2 (mkWorld dottedHeap [["a.b"; "a"]] "") =
     Done () (mkWorld heapAfterABFirst [] (textABFirst name1 name2))) ∧
  (∀ name1 name2, textAFirst name1 name2 ≠ textABFirst name1 name2) ∧
  heapAfterAFirst ≠ dottedHeap ∧
  (∀ fuel name1 name2,
     render (2 + fuel) 2 name1 name2 (mkWorld heapAfterAFirst [["a"; "a.b"]] "") =
     Done () (mkWorld heapAfterAFirst [] (textAFirst name1 name2))) ∧
  (∀ fuel name1 name2,
     render fuel 2 name1 name2 (mkWorld heapAfterAFirst [["a.b"; "a"]] "") =
     OutOfFuel).
Proof.
  split; [apply alloc_dottedTree|].
  split; [apply render_a_first|].
  split; [apply render_ab_first|].
  split; [apply texts_differ|].
  split; [apply heapAfterAFirst_changed|].
  split; [apply render_a_first_again|].
  apply render_cycle.
Qed.

End Divergence.

(** * Further properties of the differ *)






Lemma Compared_not_Equal_has_leaf s1 s2 c :
  Compared s1 s2 c → Type_ c ≠ DiffTypeEqual → GetAllDiffs c ≠ [].
Proof.
  induction c as [c IH] using Diff_ind'. intros HC Hne.
  inversion HC as [? ? ?|? ? ?|? ? ? ? ?|? ? (_ & _ & _ & Ht) Hch]; subst;
    try (by rewrite GetAllDiffs_leaf).
  destruct Ht as [[? _]|[_ Hnempty]]; [done|].
  apply map_choose in Hnempty as (k & c' & Hc').
  destruct (Hch k c' Hc') as [HC' Hne'].
  specialize (IH k c' Hc' HC' Hne').
  destruct (GetAllDiffs c') as [|n ?] eqn:Hn; [done|].
  assert (n ∈ GetAllDiffs c) as Hin.
  { apply elem_of_GetAllDiffs_step. right. exists k, c'.
    split; [done|]. rewrite Hn. left. }
  intros Hnil. rewrite Hnil in Hin. by apply elem_of_nil in Hin.
Qed.

(** X2. For a tree returned by [Compare], the three tests for "no
    difference" agree: the root is [Equal], the root has no children,
    [GetAllDiffs] returns nothing. *)
Theorem Compare_Equal_iff_no_leaves d (obj1 obj2 : gmap string Value) :
  (Type_ (Compare d obj1 obj2) = DiffTypeEqual ↔
   GetAllDiffs (Compare d obj1 obj2) = []) ∧
  (Type_ (Compare d obj1 obj2) = DiffTypeEqual ↔
   Children (Compare d obj1 obj2) = ∅).
Proof.
  pose proof (Compare_Compared false false d obj1 obj2
                ltac:(done) ltac:(done)) as HC.
  split.
  - split.
    + by apply (Compared_Equal_no_leaves false false).
    + intros Hnil.
      destruct (decide (Type_ (Compare d obj1 obj2) = DiffTypeEqual)); [done|].
      by destruct (Compared_not_Equal_has_leaf false false _ HC).
  - destruct (compareObjects_container d obj1 obj2 "") as (_ & _ & _ & Ht).
    unfold Compare.
    destruct Ht as [[-> ->]|[-> Hne]]; [done|]. split; [done|by intros ?].
Qed.

Lemma container_Equal_iff path diff :
  container path diff →
  Type_ diff = DiffTypeEqual ↔ ∀ k, Children diff !! k = None.
Proof.
  intros Hc. split; [|by apply (container_Equal path)].
  destruct Hc as (_ & _ & _ & [[_ ->]|[-> _]]); [|done].
  intros _ k. apply lookup_empty.
Qed.

Lemma compareArrays_Equal_iff d arr1 arr2 path :
  Type_ (compareArrays d arr1 arr2 path) = DiffTypeEqual ↔
  ∀ i, arrayChild d arr1 arr2 path i = None.
Proof.
  rewrite (container_Equal_iff path) by apply compareArrays_container. split.
  - intros Hall i. by rewrite <-compareArrays_lookup.
  - intros Hall k. destruct (Children _ !! k) as [c|] eqn:Hc; [|done].
    apply compareArrays_lookup_Some in Hc as (i & _ & _ & Hc). by rewrite Hall in Hc.
Qed.

Lemma compareObjects_Equal_iff d obj1 obj2 path :
  Type_ (compareObjects d obj1 obj2 path) = DiffTypeEqual ↔
  ∀ key, objectChild d obj1 obj2 path key = None.
Proof.
  rewrite (container_Equal_iff path) by apply compareObjects_container.
  by setoid_rewrite compareObjects_lookup.
Qed.

Lemma compareValues_Equal_iff d val1 val2 path :
  (∀ p, ignores d p = false) →
  Type_ (compareValues d val1 val2 path) = DiffTypeEqual ↔ sameValue val1 val2.
Proof.
  intros Hshow. revert val2 path.
  induction val1 as [|b|n|f|s|arr1 IH|obj1 IH] using Value_ind';
    intros val2 path; rewrite compareValues_unfold.
  - destruct val2; simpl; (split; [try done|by inversion 1]). constructor.
  - destruct val2 as [|b'| | | | |]; simpl; try (split; [done|by inversion 1]).
    destruct (Bool.eqb b b') eqn:Hb; simpl.
    + apply Bool.eqb_prop in Hb as ->. split; [constructor|done].
    + split; [done|]. inversion 1; subst. by rewrite Bool.eqb_reflx in Hb.
  - destruct val2 as [| |n'| | | |]; simpl; try (split; [done|by inversion 1]).
    destruct (Z.eqb n n') eqn:Hb; simpl.
    + apply Z.eqb_eq in Hb as ->. split; [constructor|done].
    + split; [done|]. inversion 1; subst. by rewrite Z.eqb_refl in Hb.
  - destruct val2 as [| | |f'| | |]; simpl; try (split; [done|by inversion 1]).
    destruct (SFeqb f f') eqn:Hb; simpl.
    + split; [by constructor|done].
    + split; [done|]. inversion 1; congruence.
  - destruct val2 as [| | | |s'| |]; simpl; try (split; [done|by inversion 1]).
    destruct (String.eqb s s') eqn:Hb; simpl.
    + apply String.eqb_eq in Hb as ->. split; [constructor|done].
    + split; [done|]. inversion 1; subst. by rewrite String.eqb_refl in Hb.
  - destruct val2 as [| | | | |arr2|]; simpl; try (split; [done|by inversion 1]).
    rewrite compareArrays_Equal_iff.
    assert (Forall2 sameValue arr1 arr2 ↔
            ∀ i, arrayChild d arr1 arr2 path i = None) as <-.
    { rewrite Forall2_lookup. apply forall_proper. intros i.
      unfold arrayChild. rewrite Forall_lookup in IH.
      destruct (arr1 !! i) as [v1|] eqn:H1, (arr2 !! i) as [v2|] eqn:H2; simpl;
        try (split; [by inversion 1|done]); [|split; [done|constructor]].
      destruct (decide _) as [He|Hne].
      - split; [done|]. intros _. constructor. by eapply (IH i v1 H1).
      - split; [|done]. inversion 1; subst. destruct Hne. by eapply (IH i v1 H1). }
    split; [by constructor|by inversion 1].
  - destruct val2 as [| | | | | |obj2]; simpl; try (split; [done|by inversion 1]).
    rewrite compareObjects_Equal_iff.
    assert ((∀ key, option_Forall2 sameValue (obj1 !! key) (obj2 !! key)) ↔
            ∀ key, objectChild d obj1 obj2 path key = None) as <-.
    { apply forall_proper. intros key. unfold objectChild.
      change (negb (showAll d) && ShouldIgnore (config d) (fieldPathOf path key))
        with (ignores d (fieldPathOf path key)).
      rewrite Hshow.
      destruct (obj1 !! key) as [v1|] eqn:H1, (obj2 !! key) as [v2|] eqn:H2; simpl;
        try (split; [by inversion 1|done]); [|split; [done|constructor]].
      destruct (decide _) as [He|Hne].
      - split; [done|]. intros _. constructor. by eapply (IH key v1 H1).
      - split; [|done]. inversion 1; subst. destruct Hne. by eapply (IH key v1 H1). }
    split; [by constructor|by inversion 1].
Qed.

Lemma floatFree_object obj k v :
  floatFree (VObject obj) = true → obj !! k = Some v → floatFree v = true.
Proof. apply (map_fold_andb_lookup floatFree). Qed.

Lemma sameValue_floatFree_eq v1 v2 :
  floatFree v1 = true → sameValue v1 v2 → v1 = v2.
Proof.
  revert v2. induction v1 as [| | | | |arr1 IH|obj1 IH] using Value_ind';
    intros v2 Hff Hsame; inversion Hsame as [| | | | |? arr2 Hall|? obj2 Hall];
    subst; try done.
  - f_equal. apply list_eq. intros i.
    rewrite Forall2_lookup in Hall. specialize (Hall i).
    rewrite Forall_lookup in IH. simpl in Hff. rewrite forallb_forall in Hff.
    destruct (arr1 !! i) as [x|] eqn:Hx; inversion Hall; subst; [|done].
    f_equal. apply (IH i x Hx); [|done].
    apply Hff, list_elem_of_In, list_elem_of_lookup. eauto.
  - f_equal. apply map_eq. intros key. specialize (Hall key).
    destruct (obj1 !! key) as [x|] eqn:Hx; inversion Hall; subst; [|done].
    f_equal. apply (IH key x Hx); [|done]. by eapply floatFree_object.
Qed.

Lemma floatFree_wellFormed v : floatFree v = true → wellFormed v = true.
Proof.
  induction v as [| | | | |arr IH|obj IH] using Value_ind'; try done.
  - simpl. rewrite !forallb_forall. intros Hff x Hx.
    rewrite Forall_forall in IH. apply IH; [|by apply Hff].
    by apply list_elem_of_In.
  - intros Hff. simpl.
    assert (∀ k v, obj !! k = Some v → wellFormed v = true) as Hall.
    { intros k v Hk. apply (IH k v Hk). by eapply floatFree_object. }
    clear IH Hff. induction obj as [|k v m Hk Hfirst IHm] using map_first_key_ind.
    + by rewrite map_fold_empty.
    + rewrite map_fold_insert_first_key by done.
      rewrite (Hall k v) by apply lookup_insert_eq. simpl. apply IHm.
      intros k' v' Hk'. apply (Hall k' v'). rewrite lookup_insert_ne; [done|congruence].
Qed.

(** X3. When nothing is ignored, [Compare] answers [Equal] exactly for two
    documents that are the same: the same keys at every level, arrays of
    the same length, scalars that Go's [==] equates. *)
Theorem Compare_Equal_iff_sameValue d (obj1 obj2 : gmap string Value) :
  (∀ p, ignores d p = false) →
  Type_ (Compare d obj1 obj2) = DiffTypeEqual ↔
  sameValue (VObject obj1) (VObject obj2).
Proof.
  intros Hshow. unfold Compare.
  change (compareObjects d obj1 obj2 "")
    with (compareValues d (VObject obj1) (VObject obj2) "").
  by apply compareValues_Equal_iff.
Qed.

Lemma Compare_Equal_iff_sameValue_witness :
  Type_ (Compare (NewDiffer None true) nestedChange1 nestedChange1) = DiffTypeEqual ↔
  sameValue (VObject nestedChange1) (VObject nestedChange1).
Proof.
  apply (Compare_Equal_iff_sameValue (NewDiffer None true)
           nestedChange1 nestedChange1).
  intros p. reflexivity.
Defined.

(** X4. For documents without floating-point numbers and with nothing
    ignored, [Compare] answers [Equal] exactly when the two documents are
    equal. *)
Theorem Compare_Equal_iff_eq d (obj1 obj2 : gmap string Value) :
  (∀ p, ignores d p = false) →
  floatFree (VObject obj1) = true →
  Type_ (Compare d obj1 obj2) = DiffTypeEqual ↔ obj1 = obj2.
Proof.
  intros Hshow Hff. unfold Compare.
  change (compareObjects d obj1 obj2 "")
    with (compareValues d (VObject obj1) (VObject obj2) "").
  rewrite compareValues_Equal_iff by done. split.
  - intros Hs. apply (sameValue_floatFree_eq _ _ Hff) in Hs. congruence.
  - intros <-. apply (compareValues_Equal_iff d _ _ "" Hshow).
    apply compareValues_refl. by apply floatFree_wellFormed.
Qed.

Lemma Compare_Equal_iff_eq_witness :
  Type_ (Compare (NewDiffer None true) nestedChange1 nestedChange2) = DiffTypeEqual ↔
  nestedChange1 = nestedChange2.
Proof.
  apply (Compare_Equal_iff_eq (NewDiffer None true) nestedChange1 nestedChange2).
  - intros p. reflexivity.
  - vm_compute. reflexivity.
Defined.

Lemma objectChild_delete d obj1 obj2 path key key' :
  ignores d (fieldPathOf path key) = true →
  objectChild d (delete key obj1) (delete key obj2) path key' =
  objectChild d obj1 obj2 path key'.
Proof.
  intros Hig. unfold objectChild.
  change (negb (showAll d) && ShouldIgnore (config d) (fieldPathOf path key'))
    with (ignores d (fieldPathOf path key')).
  destruct (decide (key = key')) as [<-|Hne].
  - by rewrite Hig.
  - by rewrite !lookup_delete_ne.
Qed.

(** X5. A top-level key that the differ ignores might as well be absent:
    [Compare] returns the tree it returns for the two documents without
    that key. *)
Theorem Compare_ignored_key_deleted d (obj1 obj2 : gmap string Value) key :
  ignores d key = true →
  Compare d obj1 obj2 = Compare d (delete key obj1) (delete key obj2).
Proof.
  intros Hig. unfold Compare.
  apply (container_eq ""); try apply compareObjects_container.
  intros key'. rewrite !compareObjects_lookup. symmetry.
  by apply objectChild_delete.
Qed.

Lemma Compare_ignored_key_deleted_witness :
  Compare (NewDiffer None false) sampleInstance (<["id" := VInt 7]> sampleInstance) =
  Compare (NewDiffer None false)
    (delete "id" sampleInstance) (delete "id" (<["id" := VInt 7]> sampleInstance)).
Proof.
  apply (Compare_ignored_key_deleted (NewDiffer None false)).
  reflexivity.
Defined.

(** X6. A key that holds an explicit null in one document and a value that
    is not null in the other is reported as if the key were missing from
    the document with the null, at every nesting level. *)
Theorem compareObjects_null_as_absent d (obj1 obj2 : gmap string Value)
    path key val :
  val ≠ VNull →
  (obj1 !! key = Some VNull → obj2 !! key = Some val →
   compareObjects d obj1 obj2 path = compareObjects d (delete key obj1) obj2 path) ∧
  (obj1 !! key = Some val → obj2 !! key = Some VNull →
   compareObjects d obj1 obj2 path = compareObjects d obj1 (delete key obj2) path).
Proof.
  intros Hval.
  split; intros H1 H2; apply (container_eq path);
    try apply compareObjects_container; intros key';
    rewrite !compareObjects_lookup; unfold objectChild;
    destruct (negb _ && _); try done;
    (destruct (decide (key = key')) as [<-|Hne];
      [rewrite lookup_delete_eq, H1, H2, compareValues_unfold; by destruct val
      |by rewrite lookup_delete_ne]).
Qed.

Lemma compareObjects_null_as_absent_witness :
  Compare (NewDiffer None false) nullChild1 nullChild2 =
  Compare (NewDiffer None false) (delete "labels" nullChild1) nullChild2.
Proof.
  apply (compareObjects_null_as_absent (NewDiffer None false)
           nullChild1 nullChild2 "" "labels"
           (VObject {[ "env" := VString "prod" ]})); done.
Defined.

(** X7. An explicit null is not the same as a missing key: a key that holds
    null in one document and is missing from the other is reported, as a
    [Removed] or an [Added] leaf both of whose payloads are nil, and the
    result is not [Equal]. *)
Theorem compareObjects_null_versus_missing d (obj1 obj2 : gmap string Value)
    path key :
  ignores d (fieldPathOf path key) = false →
  (obj1 !! key = Some VNull → obj2 !! key = None →
   Children (compareObjects d obj1 obj2 path) !! key =
     Some (leaf (fieldPathOf path key) DiffTypeRemoved VNull VNull) ∧
   Type_ (compareObjects d obj1 obj2 path) = DiffTypeModified) ∧
  (obj1 !! key = None → obj2 !! key = Some VNull →
   Children (compareObjects d obj1 obj2 path) !! key =
     Some (leaf (fieldPathOf path key) DiffTypeAdded VNull VNull) ∧
   Type_ (compareObjects d obj1 obj2 path) = DiffTypeModified).
Proof.
  intros Hig.
  assert (∀ c, Children (compareObjects d obj1 obj2 path) !! key = Some c →
               Type_ (compareObjects d obj1 obj2 path) = DiffTypeModified) as Hmod.
  { intros c Hc.
    destruct (compareObjects_container d obj1 obj2 path)
      as (_ & _ & _ & [[_ He]|[? _]]); [|done].
    by rewrite He, lookup_empty in Hc. }
  split; intros H1 H2.
  - assert (Children (compareObjects d obj1 obj2 path) !! key =
            Some (leaf (fieldPathOf path key) DiffTypeRemoved VNull VNull)) as Hc.
    { rewrite compareObjects_lookup. unfold objectChild.
      change (negb (showAll d) && ShouldIgnore (config d) (fieldPathOf path key))
        with (ignores d (fieldPathOf path key)).
      by rewrite Hig, H1, H2. }
    split; [done|]. by eapply Hmod.
  - assert (Children (compareObjects d obj1 obj2 path) !! key =
            Some (leaf (fieldPathOf path key) DiffTypeAdded VNull VNull)) as Hc.
    { rewrite compareObjects_lookup. unfold objectChild.
      change (negb (showAll d) && ShouldIgnore (config d) (fieldPathOf path key))
        with (ignores d (fieldPathOf path key)).
      by rewrite Hig, H1, H2. }
    split; [done|]. by eapply Hmod.
Qed.

Lemma compareObjects_null_versus_missing_witness :
  Children (compareObjects (NewDiffer None false) nullChild1 added1 "") !! "labels" =
    Some (leaf "labels" DiffTypeRemoved VNull VNull) ∧
  Type_ (compareObjects (NewDiffer None false) nullChild1 added1 "") =
    DiffTypeModified.
Proof.
  apply (compareObjects_null_versus_missing (NewDiffer None false)
           nullChild1 added1 "" "labels"); reflexivity.
Defined.

Lemma compareValuesUnder_unfold range d val1 val2 path :
  compareValuesUnder range d val1 val2 path =
  if isNil val1 && isNil val2 then leaf path DiffTypeEqual VNull VNull
  else if isNil val1 then leaf path DiffTypeAdded VNull val2
  else if isNil val2 then leaf path DiffTypeRemoved val1 VNull
  else if negb (bool_decide (TypeOf val1 = TypeOf val2)) then
    leaf path DiffTypeModified val1 val2
  else
    match val1, val2 with
    | VObject v1, VObject v2 =>
        compareObjects_loop d (compareValuesUnder range d <$> v1) v1 v2 path
                            (range v1 v2)
    | VArray v1, VArray v2 =>
        compareArrays_loop d (compareValuesUnder range d <$> v1) v1 v2 path
    | _, _ =>
        if DeepEqual val1 val2 then leaf path DiffTypeEqual VNull VNull
        else leaf path DiffTypeModified val1 val2
    end.
Proof. by destruct val1, val2. Qed.

Lemma compareObjects_loop_ext d cmp1 cmp1' obj1 obj2 path keys :
  (∀ key val2 p, default compareNil (cmp1 !! key) val2 p =
                 default compareNil (cmp1' !! key) val2 p) →
  compareObjects_loop d cmp1 obj1 obj2 path keys =
  compareObjects_loop d cmp1' obj1 obj2 path keys.
Proof.
  intros Hext. unfold compareObjects_loop. apply foldl_ext_elem_of.
  intros diff key _. unfold compareObjects_step. simpl.
  destruct (negb _ && _); [done|].
  destruct (obj1 !! key), (obj2 !! key); simpl; by rewrite ?Hext.
Qed.

Lemma compareArrays_loop_ext d (cmp1 cmp1' : list (Value → string → Diff))
    arr1 arr2 path :
  (∀ i val2 p, default compareNil (cmp1 !! i) val2 p =
               default compareNil (cmp1' !! i) val2 p) →
  compareArrays_loop d cmp1 arr1 arr2 path =
  compareArrays_loop d cmp1' arr1 arr2 path.
Proof.
  intros Hext. unfold compareArrays_loop. apply foldl_ext_elem_of.
  intros diff i _. unfold compareArrays_step. simpl. by rewrite Hext.
Qed.

(** X8. Go leaves the order of a [range] over a map open.  Whatever order
    the [range] over the keys of two objects takes, at every level, the
    differ builds the same tree. *)
Theorem compareValues_range_order range d val1 val2 path :
  yieldsAllKeys range →
  compareValuesUnder range d val1 val2 path = compareValues d val1 val2 path.
Proof.
  intros Hrange. revert val2 path.
  induction val1 as [| | | | |arr1 IH|obj1 IH] using Value_ind';
    intros val2 path; rewrite compareValuesUnder_unfold, compareValues_unfold.
  1-5: by destruct val2.
  - destruct val2 as [| | | | |arr2|]; try done. simpl.
    unfold compareArrays. apply compareArrays_loop_ext.
    intros i v2 p. rewrite !list_lookup_fmap. rewrite Forall_lookup in IH.
    destruct (arr1 !! i) as [x|] eqn:Hx; [|done]. simpl. by apply (IH i x Hx).
  - destruct val2 as [| | | | | |obj2]; try done. simpl.
    rewrite <-(compareObjects_loop_order d obj1 obj2 path (range obj1 obj2))
      by apply Hrange.
    apply compareObjects_loop_ext.
    intros key v2 p. rewrite !lookup_fmap.
    destruct (obj1 !! key) as [x|] eqn:Hx; [|done]. simpl. by apply (IH key x Hx).
Qed.

Lemma compareValues_range_order_witness :
  compareValuesUnder descending (NewDiffer None false)
    (VObject nestedChange1) (VObject nestedChange2) "" =
  compareValues (NewDiffer None false)
    (VObject nestedChange1) (VObject nestedChange2) "".
Proof.
  apply (compareValues_range_order descending).
  intros obj1 obj2 key. unfold descending.
  rewrite elem_of_reverse. unfold sortStrings.
  rewrite merge_sort_Permutation. apply objectKeys_spec.
Defined.

(** * The command [gcdiff resource] *)

(** ** [strings.Fields] and [strings.Join] *)

Lemma consField_app w fields1 fields2 :
  consField w (fields1 ++ fields2) = consField w fields1 ++ fields2.
Proof. by destruct w. Qed.

Lemma fieldsFrom_app_space a c b :
  asciiSpace c = true →
  fieldsFrom (a +:+ String c b) =
  ((fieldsFrom a).1, (fieldsFrom a).2 ++ Fields b).
Proof.
  intros Hc. induction a as [|x a IH]; simpl.
  - rewrite Hc. unfold Fields. by destruct (fieldsFrom b).
  - rewrite IH. destruct (fieldsFrom a) as [w fields]. simpl.
    destruct (asciiSpace x); simpl; [|done]. by rewrite consField_app.
Qed.

Lemma Fields_app_space a b :
  Fields (a +:+ " " +:+ b) = Fields a ++ Fields b.
Proof.
  unfold Fields at 1 2. change (" " +:+ b) with (String " " b).
  rewrite fieldsFrom_app_space by done.
  destruct (fieldsFrom a) as [w fields]. simpl. by rewrite consField_app.
Qed.

Lemma Fields_Join parts : Fields (Join parts " ") = parts ≫= Fields.
Proof.
  induction parts as [|part parts IH]; [done|].
  destruct parts as [|part' parts].
  - simpl. by rewrite app_nil_r.
  - change (Join (part :: part' :: parts) " ")
      with (part +:+ " " +:+ Join (part' :: parts) " ").
    by rewrite Fields_app_space, IH.
Qed.

(** ** [config.Load] *)

(** The tests of [config_test.go] for [Load], for every file system and
    every parser that behave as the tests set them up. *)

Example TestLoad_EmptyPath ReadFile yamlUnmarshal :
  Load ReadFile yamlUnmarshal "" = inr Default.
Proof. reflexivity. Qed.

Example TestLoad_NonExistent yamlUnmarshal :
  Load noFiles yamlUnmarshal "/path/that/does/not/exist.yaml" = inr Default.
Proof. reflexivity. Qed.

Example TestLoad_ValidConfig ReadFile yamlUnmarshal path data :
  path ≠ "" → ReadFile path = inr data →
  yamlUnmarshal data =
    inr (mkConfig ["customField1"; "customField2"] [".*Custom$"]) →
  Load ReadFile yamlUnmarshal path =
    inr (mkConfig ["customField1"; "customField2"] [".*Custom$"]).
Proof.
  intros Hpath Hread Hyaml. unfold Load.
  by rewrite bool_decide_eq_false_2, Hread, Hyaml.
Qed.

Example TestLoad_InvalidYAML ReadFile yamlUnmarshal path data err :
  path ≠ "" → ReadFile path = inr data → yamlUnmarshal data = inl err →
  Load ReadFile yamlUnmarshal path = inl err.
Proof.
  intros Hpath Hread Hyaml. unfold Load.
  by rewrite bool_decide_eq_false_2, Hread, Hyaml.
Qed.

Example TestLoad_EmptyConfig ReadFile yamlUnmarshal path data :
  path ≠ "" → ReadFile path = inr data →
  yamlUnmarshal data = inr (mkConfig [] []) →
  Load ReadFile yamlUnmarshal path = inr Default.
Proof.
  intros Hpath Hread Hyaml. unfold Load.
  by rewrite bool_decide_eq_false_2, Hread, Hyaml.
Qed.

(** X9. [Load] never returns a configuration both of whose lists are
    empty: for a file with no entries it returns the default
    configuration. *)
Theorem Load_never_empty ReadFile yamlUnmarshal path cfg :
  Load ReadFile yamlUnmarshal path = inr cfg →
  IgnoreFields cfg ≠ [] ∨ IgnorePatterns cfg ≠ [].
Proof.
  unfold Load. case_bool_decide; [by intros [= <-]; left|].
  destruct (ReadFile path) as [err|data].
  { destruct (IsNotExist err); [by intros [= <-]; left|done]. }
  destruct (yamlUnmarshal data) as [err|cfg']; [done|].
  destruct (IgnoreFields cfg') as [|f fs] eqn:Hf;
    destruct (IgnorePatterns cfg') as [|p ps] eqn:Hp; simpl;
    intros [= <-]; rewrite ?Hf, ?Hp; auto.
Qed.

Lemma Load_never_empty_witness :
  IgnoreFields Default ≠ [] ∨ IgnorePatterns Default ≠ [].
Proof.
  apply (Load_never_empty noFiles noYaml "gcdiff.yaml" Default).
  reflexivity.
Defined.

(** X10. A configuration file that lists patterns only and no fields is
    loaded as it is, and with it the differ ignores nothing, not even what
    the default configuration ignores: it builds the tree that it builds
    with [showAll]. *)
Theorem Load_patterns_only ReadFile yamlUnmarshal path data patterns :
  path ≠ "" → ReadFile path = inr data →
  yamlUnmarshal data = inr (mkConfig [] patterns) → patterns ≠ [] →
  Load ReadFile yamlUnmarshal path = inr (mkConfig [] patterns) ∧
  ∀ showAll a b,
    Compare (NewDiffer (Some (mkConfig [] patterns)) showAll) a b =
    Compare (NewDiffer None true) a b.
Proof.
  intros Hpath Hread Hyaml Hpat. split.
  - unfold Load. rewrite bool_decide_eq_false_2 by done.
    rewrite Hread, Hyaml. simpl. by destruct patterns.
  - intros showAll a b. unfold Compare.
    change (compareObjects ?d a b "")
      with (compareValues d (VObject a) (VObject b) "").
    apply compareValues_ignores_ext. intros p. unfold ignores. simpl.
    by rewrite andb_false_r.
Qed.

Lemma Load_patterns_only_witness :
  Load patternsFile patternsYaml "gcdiff.yaml" = inr (mkConfig [] [".*Time$"]) ∧
  ∀ showAll a b,
    Compare (NewDiffer (Some (mkConfig [] [".*Time$"])) showAll) a b =
    Compare (NewDiffer None true) a b.
Proof.
  apply (Load_patterns_only patternsFile patternsYaml "gcdiff.yaml"
           "ignore_patterns: ['.*Time$']" [".*Time$"]); done.
Defined.

(** ** [buildResourceFlags] *)

Lemma buildResourceFlags_blocks cmd suffix :
  buildResourceFlags cmd suffix =
  flagBlock suffix
    (flagBlock suffix
       (flagBlock suffix ∅ "zone"
          (GetString cmd ("zone" +:+ suffix)) (GetString cmd "zone1"))
       "region" (GetString cmd ("region" +:+ suffix)) (GetString cmd "region1"))
    "location" (GetString cmd ("location" +:+ suffix)) (GetString cmd "location1").
Proof. reflexivity. Qed.

Lemma flagBlock_lookup suffix flags name value value1 key :
  flagBlock suffix flags name value value1 !! key =
  if decide (key = name) then
    if bool_decide (value ≠ "") then Some value
    else if bool_decide (suffix = "2") && bool_decide (value1 ≠ "")
         then Some value1 else flags !! key
  else flags !! key.
Proof.
  unfold flagBlock.
  destruct (decide (key = name)) as [->|Hne];
    repeat (case_bool_decide; simpl);
    rewrite ?lookup_insert_eq, ?lookup_insert_ne by done; done.
Qed.

(** X11. [buildResourceFlags] returns no flag with an empty value and no
    flag other than [zone], [region] and [location]; and for the second
    resource each of the three is the flag given for it or else what the
    first resource gets. *)
Theorem buildResourceFlags_spec (cmd : gmap string string) :
  (∀ suffix key value,
     buildResourceFlags cmd suffix !! key = Some value →
     value ≠ "" ∧ key ∈ ["zone"; "region"; "location"]) ∧
  (∀ key, key ∈ ["zone"; "region"; "location"] →
     buildResourceFlags cmd "2" !! key =
     if bool_decide (GetString cmd (key +:+ "2") ≠ "")
     then Some (GetString cmd (key +:+ "2"))
     else buildResourceFlags cmd "1" !! key).
Proof.
  split.
  - intros suffix key value. rewrite buildResourceFlags_blocks.
    rewrite !flagBlock_lookup, lookup_empty.
    repeat (destruct (decide (key = _)) as [->|?]);
      repeat (case_bool_decide; simpl); intros [= <-]; try done;
      (split; [done|rewrite !elem_of_cons; auto]).
  - intros key Hkey. rewrite !buildResourceFlags_blocks.
    rewrite !flagBlock_lookup, !lookup_empty.
    rewrite !elem_of_cons, elem_of_nil in Hkey.
    destruct Hkey as [-> | [-> | [-> | []]]];
      repeat (destruct (decide (_ = _)) as [?|?]; try done);
      repeat (case_bool_decide; simpl; try done).
Qed.

Lemma buildResourceFlags_spec_witness :
  buildResourceFlags {[ "zone1" := "us-central1-a" ]} "2" !! "zone" =
  if bool_decide (GetString {[ "zone1" := "us-central1-a" ]} ("zone" +:+ "2") ≠ "")
  then Some (GetString {[ "zone1" := "us-central1-a" ]} ("zone" +:+ "2"))
  else buildResourceFlags {[ "zone1" := "us-central1-a" ]} "1" !! "zone".
Proof.
  destruct (buildResourceFlags_spec {[ "zone1" := "us-central1-a" ]}) as [_ H].
  apply (H "zone"). rewrite !elem_of_cons. auto.
Defined.

(** ** The command line of [gcloud] *)

Section Command_line.
Context (rangeFlags : gmap string string → list (string * string)).

Lemma appendFlags_app parts flags :
  appendFlags rangeFlags parts flags = parts ++ (rangeFlags flags ≫= flagPart).
Proof.
  unfold appendFlags. generalize (rangeFlags flags) as kvs. intros kvs.
  revert parts. induction kvs as [|[key value] kvs IH]; intros parts.
  - simpl. by rewrite app_nil_r.
  - cbn [foldl]. rewrite IH, bind_cons. unfold flagPart at 2. simpl.
    case_bool_decide; simpl; [by rewrite <-app_assoc|done].
Qed.

Lemma Fields_command verb resourcePath name project flags :
  Fields (Join (appendFlags rangeFlags
                  (if bool_decide (project ≠ "")
                   then [resourcePath; verb; name] ++ ["--project=" +:+ project]
                   else [resourcePath; verb; name]) flags) " ") =
  Fields resourcePath ++ Fields verb ++ Fields name ++
  (if bool_decide (project ≠ "") then Fields ("--project=" +:+ project) else []) ++
  (rangeFlags flags ≫= λ entry, flagPart entry ≫= Fields).
Proof.
  rewrite Fields_Join, appendFlags_app, bind_app.
  assert ((rangeFlags flags ≫= flagPart) ≫= Fields =
          rangeFlags flags ≫= λ entry, flagPart entry ≫= Fields) as ->.
  { induction (rangeFlags flags) as [|entry kvs IH]; [done|].
    by rewrite !bind_cons, bind_app, IH. }
  change [resourcePath; verb; name] with ([resourcePath] ++ [verb] ++ [name]).
  case_bool_decide; rewrite !bind_app, !bind_singleton, ?app_nil_r,
    <-?app_assoc; done.
Qed.

(** X12. The arguments that [gcloud] gets for a command of
    [buildGcloudCommand] are the fields of the resource path, [describe],
    the fields of the name, the project and the flags that are not empty;
    so a name with a space in it becomes two arguments, and an empty name
    none.  The argument [describe] is always there, so that
    [FetchResourceGeneric] never answers [empty gcloud command]. *)
Theorem buildGcloudCommand_fields resourcePath name project flags :
  isASCII (buildGcloudCommand rangeFlags resourcePath name project flags) = true →
  Fields (buildGcloudCommand rangeFlags resourcePath name project flags) =
    commandFields rangeFlags "describe" resourcePath name project flags ∧
  ∀ CombinedOutput jsonUnmarshal call,
    FetchResourceGeneric CombinedOutput jsonUnmarshal call
      (buildGcloudCommand rangeFlags resourcePath name project flags) ≠
    inl (Errorf "empty gcloud command").
Proof.
  intros _.
  assert (Fields (buildGcloudCommand rangeFlags resourcePath name project flags) =
          commandFields rangeFlags "describe" resourcePath name project flags)
    as Hfields.
  { unfold buildGcloudCommand. by rewrite Fields_command. }
  split; [done|]. intros CombinedOutput jsonUnmarshal call.
  unfold FetchResourceGeneric. rewrite Hfields.
  rewrite bool_decide_eq_false_2.
  - destruct (CombinedOutput _ _) as [output [err|]]; [done|].
    by destruct (jsonUnmarshal output).
  - unfold commandFields. rewrite !length_app. simpl. lia.
Qed.

(** X13. [buildGcloudIAMCommand] builds the command of
    [buildGcloudCommand] with [get-iam-policy] in the place of
    [describe]. *)
Theorem buildGcloudIAMCommand_fields resourcePath name project flags :
  isASCII (buildGcloudIAMCommand rangeFlags resourcePath name project flags) = true →
  Fields (buildGcloudIAMCommand rangeFlags resourcePath name project flags) =
    commandFields rangeFlags "get-iam-policy" resourcePath name project flags.
Proof.
  intros _. unfold buildGcloudIAMCommand. by rewrite Fields_command.
Qed.

End Command_line.

Lemma buildGcloudCommand_fields_witness :
  Fields (buildGcloudCommand rangeInOrder "compute instances" "vm 1" "proj"
            {[ "zone" := "us-central1-a" ]}) =
    commandFields rangeInOrder "describe" "compute instances" "vm 1" "proj"
      {[ "zone" := "us-central1-a" ]} ∧
  ∀ CombinedOutput jsonUnmarshal call,
    FetchResourceGeneric CombinedOutput jsonUnmarshal call
      (buildGcloudCommand rangeInOrder "compute instances" "vm 1" "proj"
         {[ "zone" := "us-central1-a" ]}) ≠
    inl (Errorf "empty gcloud command").
Proof.
  apply (buildGcloudCommand_fields rangeInOrder "compute instances" "vm 1" "proj"
           {[ "zone" := "us-central1-a" ]}).
  vm_compute. reflexivity.
Defined.

Example name_with_a_space_is_two_arguments :
  commandFields rangeInOrder "describe" "compute instances" "vm 1" "proj"
    {[ "zone" := "us-central1-a" ]} =
  ["compute"; "instances"; "describe"; "vm"; "1"; "--project=proj";
   "--zone=us-central1-a"].
Proof. vm_compute. reflexivity. Qed.

Lemma buildGcloudIAMCommand_fields_witness :
  Fields (buildGcloudIAMCommand rangeInOrder "pubsub topics" "t1" "proj" ∅) =
  commandFields rangeInOrder "get-iam-policy" "pubsub topics" "t1" "proj" ∅.
Proof.
  apply (buildGcloudIAMCommand_fields rangeInOrder "pubsub topics" "t1" "proj" ∅).
  vm_compute. reflexivity.
Defined.

(** X14. [FetchResourceGeneric] runs [gcloud] with an argument that begins
    with [--format=]: one of the command, or else [--format=json], which
    it then puts last. *)
Theorem FetchResourceGeneric_format gcloudCommand :
  isASCII gcloudCommand = true →
  existsb (λ part, HasPrefix part "--format=") (gcloudArgs gcloudCommand) = true ∧
  (existsb (λ part, HasPrefix part "--format=") (Fields gcloudCommand) = false →
   gcloudArgs gcloudCommand = Fields gcloudCommand ++ ["--format=json"]) ∧
  ∀ CombinedOutput jsonUnmarshal call result,
    FetchResourceGeneric CombinedOutput jsonUnmarshal call gcloudCommand =
      inr result →
    (CombinedOutput call (gcloudArgs gcloudCommand)).2 = None.
Proof.
  intros _. unfold gcloudArgs. split; [|split].
  - destruct (existsb _ (Fields gcloudCommand)) eqn:Hex; simpl; [done|].
    rewrite existsb_app. simpl. by rewrite orb_true_r.
  - by intros ->.
  - intros CombinedOutput jsonUnmarshal call result.
    unfold FetchResourceGeneric. case_bool_decide; [done|].
    destruct (CombinedOutput _ _) as [output [err|]]; [done|]. done.
Qed.

Lemma FetchResourceGeneric_format_witness :
  gcloudArgs "storage buckets describe b1" =
  Fields "storage buckets describe b1" ++ ["--format=json"].
Proof.
  destruct (FetchResourceGeneric_format "storage buckets describe b1") as (_ & H & _).
  - vm_compute. reflexivity.
  - apply H. vm_compute. reflexivity.
Defined.

(** ** [runResource] *)

Section Run.
Context (ReadFile : string → error + string).
Context (yamlUnmarshal : string → error + Config).
Context (CombinedOutput : nat → list string → string * option error).
Context (jsonUnmarshal : string → error + GoMap).
Context (rangeFlags : gmap string string → list (string * string)).

Local Abbreviation run :=
  (runResource ReadFile yamlUnmarshal CombinedOutput jsonUnmarshal rangeFlags).
Local Abbreviation fetch := (FetchResourceGeneric CombinedOutput jsonUnmarshal).
Local Abbreviation describe := (buildGcloudCommand rangeFlags).
Local Abbreviation getIAMPolicy := (buildGcloudIAMCommand rangeFlags).


(** What [runResource] returns when it returns a tree. *)
Lemma runResource_Returns viper showAll configFile cmd includeIAM
    resourceTypeStr name1 name2 diff :
  run viper showAll configFile cmd includeIAM resourceTypeStr name1 name2 =
    Returns diff →
  ∃ resource1 resource2,
    diff = Compare
             (NewDiffer
                (Some (comparisonConfig (Load ReadFile yamlUnmarshal configFile)
                         (bool_decide (GetString viper "project1" =
                                       secondProject viper))))
                showAll)
             resource1 resource2.
Proof.
  unfold runResource. case_bool_decide as Hp1; [done|]. cbv zeta.
  destruct (fetch 0 _) as [e|resource1]; [done|].
  destruct (fetch 1 _) as [e|resource2]; [done|].
  fold (secondProject viper). unfold comparisonConfig.
  destruct includeIAM.
  - destruct (mergeIAM _ _ 2 _ _) as [resource1'| |]; [|done..].
    destruct (mergeIAM _ _ 3 _ _) as [resource2'| |]; [|done..].
    intros [= <-]. eauto.
  - intros [= <-]. eauto.
Qed.

(** X16. When both resources are in one project, as they are when
    [--project2] is not given, and [show-all] is off, the tree that
    [runResource] hands to the printer has no entry for the top-level
    fields [name], [self_link] and [selfLink], whatever the configuration
    file says. *)
Theorem runResource_same_project viper configFile cmd includeIAM
    resourceTypeStr name1 name2 diff :
  run viper false configFile cmd includeIAM resourceTypeStr name1 name2 =
    Returns diff →
  secondProject viper = GetString viper "project1" →
  Children diff !! "name" = None ∧
  Children diff !! "self_link" = None ∧
  Children diff !! "selfLink" = None.
Proof.
  intros (resource1 & resource2 & ->)%runResource_Returns Hsame.
  rewrite bool_decide_eq_true_2 by done.
  unfold Compare. rewrite !compareObjects_lookup. unfold objectChild.
  assert (∀ key, key ∈ ["name"; "self_link"; "selfLink"] →
    negb (showAll (NewDiffer (Some (comparisonConfig
            (Load ReadFile yamlUnmarshal configFile) true)) false)) &&
    ShouldIgnore (config (NewDiffer (Some (comparisonConfig
            (Load ReadFile yamlUnmarshal configFile) true)) false))
      (fieldPathOf "" key) = true) as Hig.
  { intros key Hkey. simpl. unfold ShouldIgnore.
    apply ShouldIgnore_fields_spec. unfold fieldPathOf.
    rewrite decide_True by done. simpl. apply elem_of_app. by right. }
  rewrite !Hig by (rewrite !elem_of_cons; auto). done.
Qed.

(** X17. With [--iam], a resource that [gcloud] describes as [null] and
    whose policy can be fetched makes [runResource] panic: the policy is
    stored into a nil map. *)
Theorem runResource_iam_nil_map_panics viper showAll configFile cmd
    resourceTypeStr name1 name2 resource2 iamPolicy1 :
  GetString viper "project1" ≠ "" →
  fetch 0 (describe resourceTypeStr name1 (GetString viper "project1")
             (buildResourceFlags cmd "1")) = inr None →
  fetch 1 (describe resourceTypeStr name2 (secondProject viper)
             (buildResourceFlags cmd "2")) = inr resource2 →
  fetch 2 (getIAMPolicy resourceTypeStr name1 (GetString viper "project1")
             (buildResourceFlags cmd "1")) = inr iamPolicy1 →
  run viper showAll configFile cmd true resourceTypeStr name1 name2 =
    Panics "assignment to entry in nil map".
Proof.
  intros Hp1 H0 H1 H2. unfold runResource.
  rewrite bool_decide_eq_false_2 by done. cbv zeta.
  fold (secondProject viper). rewrite H0, H1.
  unfold mergeIAM at 1. by rewrite H2.
Qed.

(** X18. With [--iam] and [show-all], when the policy of the first
    resource cannot be fetched and that of the second can, the run goes on
    and reports the whole policy of the second resource as [Added] under
    [iamPolicy]. *)
Theorem runResource_iam_one_sided viper configFile cmd
    resourceTypeStr name1 name2 resource1 resource2 e iamPolicy2 :
  GetString viper "project1" ≠ "" →
  fetch 0 (describe resourceTypeStr name1 (GetString viper "project1")
             (buildResourceFlags cmd "1")) = inr (Some resource1) →
  fetch 1 (describe resourceTypeStr name2 (secondProject viper)
             (buildResourceFlags cmd "2")) = inr (Some resource2) →
  fetch 2 (getIAMPolicy resourceTypeStr name1 (GetString viper "project1")
             (buildResourceFlags cmd "1")) = inl e →
  fetch 3 (getIAMPolicy resourceTypeStr name2 (secondProject viper)
             (buildResourceFlags cmd "2")) = inr iamPolicy2 →
  resource1 !! "iamPolicy" = None →
  ∃ diff,
    run viper true configFile cmd true resourceTypeStr name1 name2 =
      Returns diff ∧
    Children diff !! "iamPolicy" =
      Some (leaf "iamPolicy" DiffTypeAdded VNull (VObject (entries iamPolicy2))).
Proof.
  intros Hp1 H0 H1 H2 H3 Hnone. unfold runResource.
  rewrite bool_decide_eq_false_2 by done. cbv zeta.
  fold (secondProject viper). rewrite H0, H1.
  unfold mergeIAM. rewrite H2, H3. unfold setEntry.
  eexists. split; [done|].
  unfold Compare. rewrite compareObjects_lookup. unfold objectChild.
  simpl. by rewrite Hnone, lookup_insert_eq.
Qed.

End Run.


Lemma runResource_same_project_witness :
  Children (Compare (NewDiffer (Some (comparisonConfig (inr Default) true)) false)
              {[ "location" := VString "US" ]} {[ "location" := VString "US" ]})
    !! "name" = None ∧
  Children (Compare (NewDiffer (Some (comparisonConfig (inr Default) true)) false)
              {[ "location" := VString "US" ]} {[ "location" := VString "US" ]})
    !! "self_link" = None ∧
  Children (Compare (NewDiffer (Some (comparisonConfig (inr Default) true)) false)
              {[ "location" := VString "US" ]} {[ "location" := VString "US" ]})
    !! "selfLink" = None.
Proof.
  apply (runResource_same_project noFiles noYaml secondPolicyOnly bucketDocuments
           rangeInOrder oneProject "" ∅ false "storage buckets" "b1" "b2").
  - vm_compute. reflexivity.
  - reflexivity.
Defined.

Lemma runResource_iam_nil_map_panics_witness :
  runResource noFiles noYaml printsNull nullDocument rangeInOrder
    oneProject false "" ∅ true "storage buckets" "b1" "b2" =
  Panics "assignment to entry in nil map".
Proof.
  apply (runResource_iam_nil_map_panics noFiles noYaml printsNull nullDocument
           rangeInOrder oneProject false "" ∅ "storage buckets" "b1" "b2"
           None None).
  - discriminate.
  - reflexivity.
  - reflexivity.
  - reflexivity.
Defined.

Lemma runResource_iam_one_sided_witness :
  ∃ diff,
    runResource noFiles noYaml secondPolicyOnly bucketDocuments rangeInOrder
      oneProject true "" ∅ true "storage buckets" "b1" "b2" = Returns diff ∧
    Children diff !! "iamPolicy" =
      Some (leaf "iamPolicy" DiffTypeAdded VNull
              (VObject (entries (Some {[ "etag" := VString "CAE=" ]})))).
Proof.
  apply (runResource_iam_one_sided noFiles noYaml secondPolicyOnly bucketDocuments
           rangeInOrder oneProject "" ∅ "storage buckets" "b1" "b2"
           {[ "location" := VString "US" ]} {[ "location" := VString "US" ]}
           (Errorf ("gcloud command failed: exit status 1" +:+ newline +:+
                    "Output: ERROR: permission denied"))).
  - discriminate.
  - vm_compute. reflexivity.
  - vm_compute. reflexivity.
  - vm_compute. reflexivity.
  - vm_compute. reflexivity.
  - reflexivity.
Defined.

(** * Further properties of the renderer *)

(** X19. [extractTopLevelField] returns the longest prefix of the path
    that holds neither ['.'] nor ['[']: what it cuts off is empty or
    begins with one of the two. *)
Theorem extractTopLevelField_spec path :
  ∃ rest,
    path = extractTopLevelField path +:+ rest ∧
    noSeparator (extractTopLevelField path) = true ∧
    (rest = "" ∨
     ∃ c rest', rest = String c rest' ∧ (c = "."%char ∨ c = "["%char)).
Proof.
  induction path as [|c path (rest & Hpath & Hno & Hrest)]; simpl.
  - exists "". auto.
  - case_bool_decide as Hc.
    + exists (String c path). split; [done|]. split; [done|]. right. eauto.
    + exists rest. split.
      { change (String c path = String c (extractTopLevelField path +:+ rest)).
        by f_equal. }
      simpl.
      split; [|done]. by rewrite bool_decide_eq_false_2, Hno.
Qed.

Lemma getTopLevelDiffs_loop_safe children result keys w :
  NoDup (extractTopLevelField <$> keys) →
  (∀ key, key ∈ keys → is_Some (children !! key)) →
  (∀ key, key ∈ keys → result !! extractTopLevelField key = None) →
  ∃ result',
    getTopLevelDiffs_loop children result keys w = Done result' w ∧
    (∀ key, key ∈ keys →
       result' !! extractTopLevelField key = children !! key) ∧
    (∀ field, field ∉ extractTopLevelField <$> keys →
       result' !! field = result !! field).
Proof.
  revert result. induction keys as [|key keys IH]; intros result Hnd Hin Hfree.
  - exists result. split; [done|]. split; [by intros ? ?%elem_of_nil|done].
  - rewrite fmap_cons in Hnd. apply NoDup_cons in Hnd as [Hkey Hnd].
    destruct (Hin key) as [child Hchild]; [left|].
    destruct (IH (<[extractTopLevelField key := child]> result)) as
      (result' & Hrun & Hkeys & Hother); [done| | |].
    { intros k Hk. apply Hin. by right. }
    { intros k Hk. rewrite lookup_insert_ne; [apply Hfree; by right|].
      intros Heq. apply Hkey. rewrite Heq. apply list_elem_of_fmap. eauto. }
    exists result'. split; [|split].
    + simpl. unfold bind at 1. unfold getTopLevelDiffs_step.
      rewrite Hchild. rewrite Hfree by left. done.
    + intros k [->|Hk]%elem_of_cons; [|by apply Hkeys].
      rewrite Hother by done. by rewrite lookup_insert_eq.
    + intros field Hfield. rewrite fmap_cons in Hfield.
      apply not_elem_of_cons in Hfield as [Hne Hfield].
      rewrite Hother by done. by rewrite lookup_insert_ne.
Qed.

Lemma rangeKeys_spec {A} (m : gmap string A) w :
  ∃ keys rest,
    rangeKeys m w = Done keys (mkWorld (heap w) rest (out w)) ∧
    keys ≡ₚ mapKeys m.
Proof.
  unfold rangeKeys. destruct w as [h [|order rest] o]; simpl.
  - by exists (mapKeys m), [].
  - exists (if bool_decide (order ≡ₚ mapKeys m) then order else mapKeys m), rest.
    split; [done|]. by case_bool_decide.
Qed.

Lemma getTopLevelDiffs_distinct diff d w :
  heap w !! diff = Some d →
  topLevelDistinct d →
  ∃ result rest,
    getTopLevelDiffs diff w = Done result (mkWorld (heap w) rest (out w)) ∧
    (∀ key, is_Some (nodeChildren d !! key) →
       result !! extractTopLevelField key = nodeChildren d !! key) ∧
    (∀ field, field ∉ extractTopLevelField <$> mapKeys (nodeChildren d) →
       result !! field = None).
Proof.
  intros Hd Hdistinct. unfold getTopLevelDiffs, bind at 1, deref. rewrite Hd.
  unfold bind at 1.
  destruct (rangeKeys_spec (nodeChildren d) w) as (keys & rest & -> & Hperm).
  destruct (getTopLevelDiffs_loop_safe (nodeChildren d) ∅ keys
              (mkWorld (heap w) rest (out w)))
    as (result & Hrun & Hkeys & Hother).
  - unfold topLevelDistinct in Hdistinct. by rewrite Hperm.
  - intros key Hkey. rewrite Hperm in Hkey. by apply elem_of_map_keys.
  - intros key _. apply lookup_empty.
  - exists result, rest. split; [done|]. split.
    + intros key Hkey. apply Hkeys. rewrite Hperm. by apply elem_of_map_keys.
    + intros field Hfield. rewrite Hother; [apply lookup_empty|].
      by rewrite Hperm.
Qed.

(** X20. When the keys of the root have top-level fields that differ from
    one another, [getTopLevelDiffs] leaves the tree as it is and returns
    every child under the top-level field of its key, whatever the order
    of its [range]. *)
Theorem getTopLevelDiffs_safe diff d w :
  heap w !! diff = Some d →
  topLevelDistinct d →
  ∃ result rest,
    getTopLevelDiffs diff w = Done result (mkWorld (heap w) rest (out w)) ∧
    (∀ key, is_Some (nodeChildren d !! key) →
       result !! extractTopLevelField key = nodeChildren d !! key) ∧
    (∀ field, field ∉ extractTopLevelField <$> mapKeys (nodeChildren d) →
       result !! field = None).
Proof. apply getTopLevelDiffs_distinct. Qed.

Lemma getTopLevelDiffs_safe_witness :
  ∃ result rest,
    getTopLevelDiffs 2 (mkWorld nestedHeap [] "") =
      Done result (mkWorld nestedHeap rest "") ∧
    (∀ key, is_Some (nodeChildren nestedRoot !! key) →
       result !! extractTopLevelField key = nodeChildren nestedRoot !! key) ∧
    (∀ field,
       field ∉ extractTopLevelField <$> mapKeys (nodeChildren nestedRoot) →
       result !! field = None).
Proof.
  apply (getTopLevelDiffs_safe 2 nestedRoot (mkWorld nestedHeap [] "")).
  - reflexivity.
  - unfold topLevelDistinct. apply (bool_decide_unpack _). vm_compute. exact I.
Defined.

Lemma alloc_nestedTree :
  alloc (Compare (NewDiffer None false) nestedChange1 nestedChange2) [] =
  (2, nestedHeap).
Proof. vm_compute. reflexivity. Qed.

(** ** Renderings that leave the tree alone *)

Lemma string_app_nil_r s : s +:+ "" = s.
Proof.
  induction s as [|c s IH]; [done|].
  change (String c (s +:+ "") = String c s). by f_equal.
Qed.

Lemma string_app_assoc s1 s2 s3 : (s1 +:+ s2) +:+ s3 = s1 +:+ (s2 +:+ s3).
Proof.
  induction s1 as [|c s1 IH]; [done|].
  change (String c ((s1 +:+ s2) +:+ s3) = String c (s1 +:+ (s2 +:+ s3))).
  by f_equal.
Qed.

Lemma steady_ret h {A} (a : A) : steady h (ret a) a.
Proof.
  exists "". intros rs o. exists rs. unfold ret. by rewrite string_app_nil_r.
Qed.

Lemma steady_bind h {A B} (m : M A) (k : A → M B) a b :
  steady h m a → steady h (k a) b → steady h (bind m k) b.
Proof.
  intros [t1 Hm] [t2 Hk]. exists (t1 +:+ t2). intros rs o.
  destruct (Hm rs o) as [rs1 H1]. destruct (Hk rs1 (o +:+ t1)) as [rs2 H2].
  exists rs2. unfold bind. rewrite H1, H2. by rewrite string_app_assoc.
Qed.

Lemma steady_write h s : steady h (write s) ().
Proof. exists s. intros rs o. by exists rs. Qed.

Lemma steady_deref h p n : h !! p = Some n → steady h (deref p) n.
Proof.
  intros Hp. exists "". intros rs o. exists rs. unfold deref. simpl.
  by rewrite Hp, string_app_nil_r.
Qed.

Lemma steady_rangeKeys_bind h {A B} (m : gmap string A)
    (k : list string → M B) b :
  (∃ text, ∀ keys, keys ≡ₚ mapKeys m → prints h (k keys) b text) →
  steady h (bind (rangeKeys m) k) b.
Proof.
  intros [text Hk]. exists text. intros rs o.
  destruct (rangeKeys_spec m (mkWorld h rs o)) as (keys & rest & Hr & Hperm).
  simpl in Hr. destruct (Hk keys Hperm rest o) as [rs' Hrun].
  exists rs'. unfold bind. by rewrite Hr.
Qed.

Lemma steady_forEach h {A} (l : list A) (body : A → M unit) :
  (∀ x, x ∈ l → steady h (body x) ()) → steady h (forEach l body) ().
Proof.
  induction l as [|x l IH]; intros Hbody; simpl.
  - apply steady_ret.
  - eapply steady_bind; [apply Hbody; left|].
    apply IH. intros y Hy. apply Hbody. by right.
Qed.

Lemma elem_of_getSortedKeys {A} (m : gmap string A) key :
  key ∈ getSortedKeys m ↔ is_Some (m !! key).
Proof.
  unfold getSortedKeys. rewrite sortStrings_Permutation. apply elem_of_map_keys.
Qed.

Section Steady.

Context (green red yellow cyan bold : Color).
Context (Sprintf_q : string → string).
Context (Sprintf_v : Value → string).
Context (Marshal : Value → string).
Context (MarshalIndent : Value → string → option string).
Context (Sscanf_index : string → Z).

Local Abbreviation printable := (printable Sscanf_index).

Lemma printable_inv h n p :
  printable h n p = true →
  ∃ n' d, n = S n' ∧ h !! p = Some d ∧ scannableKeys Sscanf_index d = true ∧
          ∀ key q, nodeChildren d !! key = Some q → printable h n' q = true.
Proof.
  destruct n as [|n]; [done|]. simpl.
  destruct (h !! p) as [d|]; [|done]. intros [Hs Hall]%andb_prop.
  exists n, d. split; [done|]. split; [done|]. split; [done|].
  intros key q Hq. rewrite forallb_forall in Hall.
  apply Hall, list_elem_of_In, list_elem_of_fmap. exists (key, q).
  split; [done|]. by apply elem_of_map_to_list.
Qed.

Lemma printInlineValue_steady h value colorFunc :
  steady h (printInlineValue Sprintf_q Sprintf_v Marshal value colorFunc) ().
Proof. destruct value; apply steady_write. Qed.

Lemma printValue_steady h indent value colorFunc :
  steady h (printValue Sprintf_q Sprintf_v MarshalIndent indent value colorFunc) ().
Proof.
  destruct value; simpl; try apply steady_write;
    (destruct (MarshalIndent _ _); [|apply steady_write]);
    apply steady_forEach; intros [i line] _; simpl;
    destruct (decide _); apply steady_write.
Qed.

Lemma printNestedChange_steady h fuel :
  ∀ n indent key q,
    printable h n q = true → n ≤ fuel →
    steady h (printNestedChange green red yellow Sprintf_q Sprintf_v Marshal
                fuel indent key q) ().
Proof.
  induction fuel as [|fuel IH]; intros n indent key q Hq Hn.
  { assert (n = 0) as -> by lia. done. }
  apply printable_inv in Hq as (n' & d & -> & Hd & _ & Hch). simpl.
  eapply steady_bind; [by apply steady_deref|].
  destruct (nodeType d).
  - eapply steady_bind; [apply steady_write|apply printInlineValue_steady].
  - eapply steady_bind; [apply steady_write|apply printInlineValue_steady].
  - eapply steady_bind; [apply steady_write|].
    destruct (negb _).
    + apply steady_forEach. intros childKey [child Hchild]%elem_of_getSortedKeys.
      rewrite Hchild. apply (IH n'); [by eapply Hch|lia].
    + eapply steady_bind; [apply steady_write|].
      eapply steady_bind; [apply printInlineValue_steady|].
      eapply steady_bind; [apply steady_write|apply printInlineValue_steady].
  - apply steady_ret.
Qed.

Lemma collectIndices_from (children : gmap string loc) keys
    (acc : list Z * gmap Z loc) :
  (∀ key, key ∈ keys → is_Some (children !! key)) →
  NoDup (Sscanf_index <$> keys) →
  let collected :=
    foldl (λ acc key,
             match children !! key with
             | Some child =>
                 let idx := Sscanf_index key in
                 (acc.1 ++ [idx], <[idx := child]> acc.2)
             | None => acc
             end) acc keys in
  collected.1 = acc.1 ++ (Sscanf_index <$> keys) ∧
  (∀ key, key ∈ keys → collected.2 !! Sscanf_index key = children !! key) ∧
  (∀ idx, idx ∉ Sscanf_index <$> keys → collected.2 !! idx = acc.2 !! idx).
Proof.
  revert acc. induction keys as [|key keys IH]; intros acc Hin Hnd; simpl.
  { rewrite app_nil_r. split; [done|]. split; [by intros ? ?%elem_of_nil|done]. }
  rewrite fmap_cons in Hnd. apply NoDup_cons in Hnd as [Hkey Hnd].
  destruct (Hin key) as [child Hchild]; [left|]. rewrite Hchild.
  destruct (IH (acc.1 ++ [Sscanf_index key], <[Sscanf_index key := child]> acc.2))
    as (Hidx & Hkeys & Hother); [by intros k Hk; apply Hin; right|done|].
  simpl in *. split; [|split].
  - by rewrite Hidx, <-app_assoc.
  - intros k [->|Hk]%elem_of_cons; [|by apply Hkeys].
    by rewrite Hother, lookup_insert_eq.
  - intros idx [Hne Hidx']%not_elem_of_cons.
    by rewrite Hother, lookup_insert_ne.
Qed.

Lemma collectIndices_spec (children : gmap string loc) keys :
  keys ≡ₚ mapKeys children →
  NoDup (Sscanf_index <$> mapKeys children) →
  (collectIndices Sscanf_index children keys).1 = Sscanf_index <$> keys ∧
  (∀ key, key ∈ keys →
     (collectIndices Sscanf_index children keys).2 !! Sscanf_index key =
     children !! key) ∧
  (∀ idx, idx ∉ Sscanf_index <$> keys →
     (collectIndices Sscanf_index children keys).2 !! idx = None).
Proof.
  intros Hperm Hnd.
  destruct (collectIndices_from children keys ([], ∅)) as (H1 & H2 & H3).
  - intros key Hkey. rewrite Hperm in Hkey. by apply elem_of_map_keys.
  - by rewrite Hperm.
  - split; [done|]. split; [done|]. intros idx Hidx.
    unfold collectIndices. rewrite H3 by done. apply lookup_empty.
Qed.

(** X21. The first loop of [printArrayDiff] ranges over a map.  When
    [Sscanf] reads different indices from different keys, the sorted
    indices and the map from index to child that it builds are the same
    for every order of that [range]. *)
Theorem collectIndices_order (children : gmap string loc) keys1 keys2 :
  keys1 ≡ₚ mapKeys children → keys2 ≡ₚ mapKeys children →
  NoDup (Sscanf_index <$> mapKeys children) →
  merge_sort Z.le (collectIndices Sscanf_index children keys1).1 =
  merge_sort Z.le (collectIndices Sscanf_index children keys2).1 ∧
  (collectIndices Sscanf_index children keys1).2 =
  (collectIndices Sscanf_index children keys2).2.
Proof.
  intros Hp1 Hp2 Hnd.
  destruct (collectIndices_spec children keys1 Hp1 Hnd) as (Ha1 & Ha2 & Ha3).
  destruct (collectIndices_spec children keys2 Hp2 Hnd) as (Hb1 & Hb2 & Hb3).
  split.
  - apply (Sorted_unique Z.le).
    + apply (Sorted_merge_sort Z.le).
    + apply (Sorted_merge_sort Z.le).
    + rewrite !merge_sort_Permutation, Ha1, Hb1. by rewrite Hp1, Hp2.
  - apply map_eq. intros idx.
    destruct (decide (idx ∈ Sscanf_index <$> keys1)) as [Hin|Hout].
    + apply list_elem_of_fmap in Hin as (key & -> & Hkey).
      rewrite Ha2 by done. rewrite Hb2; [done|]. by rewrite Hp2, <-Hp1.
    + rewrite Ha3 by done. rewrite Hb3; [done|]. by rewrite Hp2, <-Hp1.
Qed.

Lemma collectIndices_same (children : gmap string loc) keys :
  keys ≡ₚ mapKeys children →
  NoDup (Sscanf_index <$> mapKeys children) →
  merge_sort Z.le (collectIndices Sscanf_index children keys).1 =
  merge_sort Z.le (collectIndices Sscanf_index children (mapKeys children)).1 ∧
  (collectIndices Sscanf_index children keys).2 =
  (collectIndices Sscanf_index children (mapKeys children)).2.
Proof.
  intros Hperm Hnd.
  destruct (collectIndices_spec children keys Hperm Hnd) as (Ha1 & Ha2 & Ha3).
  destruct (collectIndices_spec children (mapKeys children)) as (Hb1 & Hb2 & Hb3);
    [done..|].
  split.
  - apply (Sorted_unique Z.le).
    + apply (Sorted_merge_sort Z.le).
    + apply (Sorted_merge_sort Z.le).
    + rewrite !merge_sort_Permutation, Ha1, Hb1. by rewrite Hperm.
  - apply map_eq. intros idx.
    destruct (decide (idx ∈ Sscanf_index <$> keys)) as [Hin|Hout].
    + apply list_elem_of_fmap in Hin as (key & -> & Hkey).
      rewrite Ha2 by done. rewrite Hb2; [done|]. by rewrite <-Hperm.
    + rewrite Ha3 by done. rewrite Hb3; [done|]. by rewrite <-Hperm.
Qed.

Lemma printArrayDiff_steady h fuel fieldName p indent d n :
  h !! p = Some d →
  NoDup (Sscanf_index <$> mapKeys (nodeChildren d)) →
  (∀ key q, nodeChildren d !! key = Some q → printable h n q = true) →
  n ≤ S fuel →
  steady h (printArrayDiff green red yellow cyan Sprintf_q Sprintf_v Marshal
              Sscanf_index fuel fieldName p indent) ().
Proof.
  intros Hd Hnd Hch Hn. unfold printArrayDiff.
  eapply steady_bind; [apply steady_write|].
  eapply steady_bind; [by apply steady_deref|].
  match goal with
  | |- steady _ (bind (rangeKeys _) ?K) _ =>
      assert (steady h (K (mapKeys (nodeChildren d))) ()) as [text Htext]
  end.
  { cbv beta zeta.
    destruct (collectIndices_spec (nodeChildren d) (mapKeys (nodeChildren d)))
      as (Hidx & Hmap & _); [done..|].
    apply steady_forEach. intros idx Hin.
    rewrite merge_sort_Permutation, Hidx in Hin.
    apply list_elem_of_fmap in Hin as (key & -> & Hkey).
    rewrite Hmap by done.
    apply elem_of_map_keys in Hkey as [q Hq]. rewrite Hq.
    apply Hch, printable_inv in Hq as (n' & c & -> & Hc & _ & Hgrand).
    eapply steady_bind; [by apply steady_deref|].
    destruct (nodeType c).
    - eapply steady_bind; [apply steady_write|apply printInlineValue_steady].
    - eapply steady_bind; [apply steady_write|apply printInlineValue_steady].
    - destruct (negb _).
      + eapply steady_bind; [apply steady_write|].
        apply steady_forEach.
        intros childKey [child Hchild]%elem_of_getSortedKeys. rewrite Hchild.
        apply (printNestedChange_steady h fuel n'); [by eapply Hgrand|lia].
      + eapply steady_bind; [apply steady_write|].
        eapply steady_bind; [apply steady_write|].
        eapply steady_bind; [apply printInlineValue_steady|].
        eapply steady_bind; [apply steady_write|apply printInlineValue_steady].
    - apply steady_ret. }
  apply steady_rangeKeys_bind. exists text. intros keys Hperm.
  cbv beta zeta in Htext |- *.
  destruct (collectIndices_same (nodeChildren d) keys Hperm Hnd) as [-> ->].
  exact Htext.
Qed.

Lemma printFieldDiff_S fuel fieldName fieldDiff indent :
  printFieldDiff green red yellow cyan Sprintf_q Sprintf_v Marshal
                 MarshalIndent Sscanf_index (S fuel) fieldName fieldDiff indent =
  let indentStr := Repeat "  " indent in
  do d <- deref fieldDiff;
  if isArrayDiff d then
    printArrayDiff green red yellow cyan Sprintf_q Sprintf_v Marshal
                   Sscanf_index fuel fieldName fieldDiff indent
  else if negb (bool_decide (size (nodeChildren d) = 0)) &&
          bool_decide (nodeType d = DiffTypeModified) then
    write (indentStr +:+ sprint yellow "~" +:+ " " +:+ sprint cyan fieldName +:+ newline) ;;
    forEach (getSortedKeys (nodeChildren d)) (λ childKey,
      match nodeChildren d !! childKey with
      | Some childDiff =>
          printFieldDiff green red yellow cyan Sprintf_q Sprintf_v Marshal
                         MarshalIndent Sscanf_index fuel childKey childDiff
                         (S indent)
      | None => λ _, NilDeref
      end)
  else
    match nodeType d with
    | DiffTypeAdded =>
        write (indentStr +:+ sprint green "+" +:+ " " +:+ sprint cyan fieldName +:+ newline) ;;
        printValue Sprintf_q Sprintf_v MarshalIndent (indentStr +:+ "    ")
                   (nodeValue2 d) green
    | DiffTypeRemoved =>
        write (indentStr +:+ sprint red "-" +:+ " " +:+ sprint cyan fieldName +:+ newline) ;;
        printValue Sprintf_q Sprintf_v MarshalIndent (indentStr +:+ "    ")
                   (nodeValue1 d) red
    | DiffTypeModified =>
        write (indentStr +:+ sprint yellow "~" +:+ " " +:+ sprint cyan fieldName +:+ newline) ;;
        write (indentStr +:+ "    " +:+ sprint red "-" +:+ " ") ;;
        printValue Sprintf_q Sprintf_v MarshalIndent (indentStr +:+ "      ")
                   (nodeValue1 d) red ;;
        write (indentStr +:+ "    " +:+ sprint green "+" +:+ " ") ;;
        printValue Sprintf_q Sprintf_v MarshalIndent (indentStr +:+ "      ")
                   (nodeValue2 d) green
    | DiffTypeEqual => ret ()
    end.
Proof. reflexivity. Qed.

Lemma printFieldDiff_steady h fuel :
  ∀ n fieldName q indent,
    printable h n q = true → n ≤ fuel →
    steady h (printFieldDiff green red yellow cyan Sprintf_q Sprintf_v Marshal
                MarshalIndent Sscanf_index fuel fieldName q indent) ().
Proof.
  induction fuel as [|fuel IH]; intros n fieldName q indent Hq Hn.
  { assert (n = 0) as -> by lia. done. }
  apply printable_inv in Hq as (n' & d & -> & Hd & Hscan & Hch).
  rewrite printFieldDiff_S. cbv zeta.
  eapply steady_bind; [by apply steady_deref|].
  destruct (isArrayDiff d) eqn:Harr.
  { apply (printArrayDiff_steady h fuel fieldName q indent d n');
      [done| |done|lia].
    unfold scannableKeys in Hscan. rewrite Harr in Hscan.
    by apply bool_decide_eq_true in Hscan. }
  destruct (negb _ && bool_decide _).
  { eapply steady_bind; [apply steady_write|].
    apply steady_forEach.
    intros childKey [child Hchild]%elem_of_getSortedKeys. rewrite Hchild.
    apply (IH n'); [by eapply Hch|lia]. }
  destruct (nodeType d).
  - eapply steady_bind; [apply steady_write|apply printValue_steady].
  - eapply steady_bind; [apply steady_write|apply printValue_steady].
  - eapply steady_bind; [apply steady_write|].
    eapply steady_bind; [apply steady_write|].
    eapply steady_bind; [apply printValue_steady|].
    eapply steady_bind; [apply steady_write|apply printValue_steady].
  - apply steady_ret.
Qed.

Lemma getTopLevelDiffs_steady h p d :
  h !! p = Some d → topLevelDistinct d →
  ∃ result,
    steady h (getTopLevelDiffs p) result ∧
    ∀ field q, result !! field = Some q →
               ∃ key, nodeChildren d !! key = Some q.
Proof.
  intros Hd Hdist.
  destruct (getTopLevelDiffs_distinct p d (mkWorld h [] "") Hd Hdist)
    as (result & rest & Hrun & Hkeys & Hother).
  exists result. split.
  - exists "". intros rs o.
    destruct (getTopLevelDiffs_distinct p d (mkWorld h rs o) Hd Hdist)
      as (result' & rest' & Hrun' & Hkeys' & Hother').
    simpl in Hrun'. exists rest'. rewrite Hrun', string_app_nil_r.
    assert (result' = result) as ->; [|done].
    apply map_eq. intros field.
    destruct (decide (field ∈ extractTopLevelField <$> mapKeys (nodeChildren d)))
      as [Hin|Hout].
    + apply list_elem_of_fmap in Hin as (key & -> & Hkey).
      apply elem_of_map_keys in Hkey. by rewrite Hkeys, Hkeys'.
    + by rewrite Hother, Hother'.
  - intros field q Hq.
    destruct (decide (field ∈ extractTopLevelField <$> mapKeys (nodeChildren d)))
      as [Hin|Hout].
    + apply list_elem_of_fmap in Hin as (key & -> & Hkey).
      apply elem_of_map_keys in Hkey. rewrite Hkeys in Hq by done. eauto.
    + by rewrite Hother in Hq.
Qed.

Lemma PrintGitStyleDiffV2_prints h fuel p d name1 name2 :
  h !! p = Some d →
  topLevelDistinct d →
  printable h (S fuel) p = true →
  ∃ text, ∀ rs o, ∃ rs',
    PrintGitStyleDiffV2 green red yellow cyan bold Sprintf_q Sprintf_v Marshal
      MarshalIndent Sscanf_index fuel p name1 name2 (mkWorld h rs o) =
    Done () (mkWorld h rs' (o +:+ text)).
Proof.
  intros Hd Hdist Hp.
  apply printable_inv in Hp as (n' & d' & [= <-] & Hd' & _ & Hch).
  rewrite Hd in Hd'. injection Hd' as <-.
  change (steady h (PrintGitStyleDiffV2 green red yellow cyan bold Sprintf_q
                      Sprintf_v Marshal MarshalIndent Sscanf_index fuel p
                      name1 name2) ()).
  unfold PrintGitStyleDiffV2.
  eapply steady_bind; [apply steady_write|].
  eapply steady_bind; [apply steady_write|].
  eapply steady_bind; [by apply steady_deref|].
  destruct (decide (nodeType d = DiffTypeEqual)); [apply steady_write|].
  destruct (getTopLevelDiffs_steady h p d Hd Hdist) as (result & Hres & Hchildren).
  eapply steady_bind; [exact Hres|].
  destruct (decide (size result = 0)); [apply steady_write|].
  eapply steady_bind; [apply steady_write|].
  apply steady_forEach. intros fieldName [q Hq]%elem_of_getSortedKeys.
  rewrite Hq. eapply steady_bind; [|apply steady_write].
  destruct (Hchildren _ _ Hq) as [key Hkey].
  apply (printFieldDiff_steady h fuel fuel); [by eapply Hch|lia].
Qed.

(** X22. On a heap on which the pointers below the root form a tree, whose
    top-level keys have top-level fields that differ from one another and
    whose array nodes have keys with different indices,
    [PrintGitStyleDiffV2] returns, leaves the tree as it is, and writes a
    text that does not depend on the order of any [range] over a map.  A
    second rendering therefore writes the same text again. *)
Theorem PrintGitStyleDiffV2_steady h fuel p d name1 name2 :
  h !! p = Some d →
  topLevelDistinct d →
  printable h (S fuel) p = true →
  ∃ text, ∀ rs o, ∃ rs',
    PrintGitStyleDiffV2 green red yellow cyan bold Sprintf_q Sprintf_v Marshal
      MarshalIndent Sscanf_index fuel p name1 name2 (mkWorld h rs o) =
    Done () (mkWorld h rs' (o +:+ text)).
Proof. apply PrintGitStyleDiffV2_prints. Qed.

End Steady.

Lemma collectIndices_order_witness :
  merge_sort Z.le
    (collectIndices scansDigit {[ "[0]" := 4; "[2]" := 5 ]} ["[0]"; "[2]"]).1 =
  merge_sort Z.le
    (collectIndices scansDigit {[ "[0]" := 4; "[2]" := 5 ]} ["[2]"; "[0]"]).1 ∧
  (collectIndices scansDigit {[ "[0]" := 4; "[2]" := 5 ]} ["[0]"; "[2]"]).2 =
  (collectIndices scansDigit {[ "[0]" := 4; "[2]" := 5 ]} ["[2]"; "[0]"]).2.
Proof.
  apply (collectIndices_order scansDigit {[ "[0]" := 4; "[2]" := 5 ]}
           ["[0]"; "[2]"] ["[2]"; "[0]"]).
  - apply (bool_decide_unpack _). vm_compute. exact I.
  - apply (bool_decide_unpack _). vm_compute. exact I.
  - apply (bool_decide_unpack _). vm_compute. exact I.
Defined.

Lemma PrintGitStyleDiffV2_steady_witness :
  ∃ text, ∀ rs o, ∃ rs',
    PrintGitStyleDiffV2 plain plain plain plain plain printsNothing printsNothing
      printsNothing marshalsNothing scansDigit 2 2 "a" "b"
      (mkWorld nestedHeap rs o) =
    Done () (mkWorld nestedHeap rs' (o +:+ text)).
Proof.
  apply (PrintGitStyleDiffV2_steady plain plain plain plain plain printsNothing
           printsNothing printsNothing marshalsNothing scansDigit
           nestedHeap 2 2 nestedRoot "a" "b").
  - reflexivity.
  - unfold topLevelDistinct. apply (bool_decide_unpack _). vm_compute. exact I.
  - vm_compute. reflexivity.
Defined.

(** ** Trees that [Compare] has just built *)

Lemma mapKeys_Permutation {A B} (m1 : gmap string A) (m2 : gmap string B) :
  (∀ key, is_Some (m1 !! key) ↔ is_Some (m2 !! key)) →
  mapKeys m1 ≡ₚ mapKeys m2.
Proof.
  intros Hdom. apply NoDup_Permutation; try apply NoDup_fst_map_to_list.
  intros key. unfold mapKeys. by rewrite !elem_of_map_keys.
Qed.

Lemma size_mapKeys {A} (m : gmap string A) : size m = length (mapKeys m).
Proof. unfold mapKeys. by rewrite length_fmap, length_map_to_list. Qed.

Lemma forallb_Permutation {A} (f : A → bool) l1 l2 :
  l1 ≡ₚ l2 → forallb f l1 = forallb f l2.
Proof.
  induction 1 as [|x l1 l2 _ IH|x y l|l1 l2 l3 _ IH1 _ IH2]; simpl.
  - done.
  - by rewrite IH.
  - by destruct (f x), (f y).
  - by rewrite IH1.
Qed.

Lemma alloc_unfold t h0 :
  alloc t h0 =
  let built :=
    map_fold (λ key child (acc : gmap string loc * list Node),
                let sub := alloc child acc.2 in
                (<[key := sub.1]> acc.1, sub.2))
             (∅, h0) (Children t) in
  (length built.2,
   built.2 ++ [mkNode (Path t) (Type_ t) (Value1 t) (Value2 t) built.1]).
Proof. by destruct t. Qed.

Lemma diff_size_unfold t :
  diff_size t = S (map_fold (λ _ c acc, diff_size c + acc) 0 (Children t)).
Proof. by destruct t. Qed.

Section Fresh.

Context (green red yellow cyan bold : Color).
Context (Sprintf_q : string → string).
Context (Sprintf_v : Value → string).
Context (Marshal : Value → string).
Context (MarshalIndent : Value → string → option string).
Context (Sscanf_index : string → Z).

Local Abbreviation printable := (printable Sscanf_index).

Lemma printable_mono_heap h ext n q :
  printable h n q = true → printable (h ++ ext) n q = true.
Proof.
  revert q. induction n as [|n IH]; intros q; simpl; [done|].
  destruct (h !! q) as [d|] eqn:Hq; [|done].
  rewrite (lookup_app_l_Some _ _ _ _ Hq).
  intros [Hs Hall]%andb_prop. rewrite Hs. simpl.
  rewrite forallb_forall in Hall. apply forallb_forall. auto.
Qed.

Lemma printable_mono_height h n m q :
  n ≤ m → printable h n q = true → printable h m q = true.
Proof.
  revert m q. induction n as [|n IH]; intros m q Hle; simpl; [done|].
  destruct m as [|m]; [lia|]. simpl.
  destruct (h !! q) as [d|]; [|done].
  intros [Hs Hall]%andb_prop. rewrite Hs. simpl.
  rewrite forallb_forall in Hall. apply forallb_forall.
  intros x Hx. apply (IH m); [lia|auto].
Qed.

Lemma scannableTree_spec t n :
  scannableTree Sscanf_index t = true → n ∈ nodes t → arrayLike n = true →
  NoDup (Sscanf_index <$> mapKeys (Children n)).
Proof.
  unfold scannableTree. rewrite forallb_forall. intros Hall Hn Harr.
  apply list_elem_of_In, Hall in Hn. rewrite Harr in Hn.
  by apply bool_decide_eq_true in Hn.
Qed.

Lemma scannableTree_child t key c :
  scannableTree Sscanf_index t = true → Children t !! key = Some c →
  scannableTree Sscanf_index c = true.
Proof.
  unfold scannableTree. rewrite !forallb_forall. intros Hall Hc n Hn.
  apply Hall, list_elem_of_In. eapply nodes_child; [done|].
  by apply list_elem_of_In.
Qed.

(** What [alloc] builds: it adds to the heap, and below the root that it
    returns the pointers form a tree with the keys of [t]. *)
Lemma alloc_spec t :
  ∀ h0, scannableTree Sscanf_index t = true →
  ∃ ext d,
    (alloc t h0).2 = h0 ++ ext ∧
    (alloc t h0).2 !! (alloc t h0).1 = Some d ∧
    (∀ key, is_Some (nodeChildren d !! key) ↔ is_Some (Children t !! key)) ∧
    printable (alloc t h0).2 (diff_size t) (alloc t h0).1 = true.
Proof.
  induction t as [t IH] using Diff_ind'. intros h0 Hscan.
  rewrite alloc_unfold. cbv zeta.
  set (F := λ (key : string) (child : Diff) (acc : gmap string loc * list Node),
              let sub := alloc child acc.2 in
              (<[key := sub.1]> acc.1, sub.2)).
  assert (Children t ⊆ Children t →
    (∃ ext, (map_fold F (∅, h0) (Children t)).2 = h0 ++ ext) ∧
    (∀ k, is_Some ((map_fold F (∅, h0) (Children t)).1 !! k) ↔
          is_Some (Children t !! k)) ∧
    (∀ k q c, (map_fold F (∅, h0) (Children t)).1 !! k = Some q →
              Children t !! k = Some c →
              printable (map_fold F (∅, h0) (Children t)).2 (diff_size c) q = true))
    as Hinv.
  { apply (map_fold_weak_ind (λ r m, m ⊆ Children t →
      (∃ ext, r.2 = h0 ++ ext) ∧
      (∀ k, is_Some (r.1 !! k) ↔ is_Some (m !! k)) ∧
      (∀ k q c, r.1 !! k = Some q → m !! k = Some c →
                printable r.2 (diff_size c) q = true))).
    - intros _. simpl. split; [exists []; by rewrite app_nil_r|].
      split; [intros k; rewrite !lookup_empty; split; by intros [? ?]|].
      intros k q c Hq. by rewrite lookup_empty in Hq.
    - intros i x m r Hi IHr Hsub.
      assert (Children t !! i = Some x) as Hx.
      { eapply lookup_weaken; [apply lookup_insert_eq|done]. }
      assert (m ⊆ Children t) as Hm.
      { etrans; [by apply insert_subseteq|done]. }
      destruct (IHr Hm) as ([ext Hext] & Hdom & Hprint).
      destruct (IH i x Hx r.2) as (ext' & d' & Hext' & Hd' & _ & Hp').
      { by eapply scannableTree_child. }
      unfold F. simpl. split; [|split].
      + exists (ext ++ ext'). by rewrite Hext', Hext, app_assoc.
      + intros k. destruct (decide (k = i)) as [->|Hne].
        * rewrite !lookup_insert_eq. split; eauto.
        * rewrite !lookup_insert_ne by done. apply Hdom.
      + intros k q c. destruct (decide (k = i)) as [->|Hne].
        * rewrite !lookup_insert_eq. by intros [= <-] [= <-].
        * rewrite !lookup_insert_ne by done. intros Hq Hc.
          rewrite Hext'. apply printable_mono_heap. by eapply Hprint. }
  destruct (Hinv ltac:(done)) as ([ext Hext] & Hdom & Hprint). clear Hinv.
  set (built := map_fold F (∅, h0) (Children t)) in *.
  set (root := mkNode (Path t) (Type_ t) (Value1 t) (Value2 t) built.1).
  exists (ext ++ [root]), root. simpl.
  split; [by rewrite Hext, app_assoc|].
  split; [by apply list_lookup_middle|].
  split; [done|].
  rewrite diff_size_unfold. simpl. rewrite list_lookup_middle by done.
  assert (mapKeys built.1 ≡ₚ mapKeys (Children t)) as Hperm
    by by apply mapKeys_Permutation.
  apply andb_true_intro. split.
  - unfold scannableKeys. destruct (isArrayDiff root) eqn:Harr; [|done].
    apply bool_decide_eq_true. simpl. rewrite Hperm.
    apply (scannableTree_spec t t Hscan (nodes_root t)).
    unfold arrayLike. unfold isArrayDiff in Harr. simpl in Harr.
    by rewrite size_mapKeys, <-(Permutation_length Hperm), <-size_mapKeys,
      <-(forallb_Permutation _ _ _ Hperm).
  - apply forallb_forall. intros q Hq.
    apply list_elem_of_In, list_elem_of_fmap in Hq as ([k q'] & -> & Hq).
    apply elem_of_map_to_list in Hq. simpl.
    destruct (proj1 (Hdom k)) as [c Hc]; [by eexists|].
    apply printable_mono_heap, (printable_mono_height _ (diff_size c));
      [|by eapply Hprint].
    by apply (map_fold_sum_lookup diff_size (Children t) k c).
Qed.

(** X23. A tree that has just been built, as [Compare] builds it, whose
    top-level keys have top-level fields that differ from one another and
    whose array nodes have keys with different indices, is rendered by
    [PrintGitStyleDiffV2], with as much fuel as the tree has nodes, to a
    text that depends neither on the order of a [range] nor on earlier
    renderings, and the rendering leaves the tree as it is. *)
Theorem PrintGitStyleDiffV2_fresh_tree (t : Diff) name1 name2 :
  NoDup (extractTopLevelField <$> mapKeys (Children t)) →
  scannableTree Sscanf_index t = true →
  ∃ text, ∀ rs o, ∃ rs',
    PrintGitStyleDiffV2 green red yellow cyan bold Sprintf_q Sprintf_v Marshal
      MarshalIndent Sscanf_index (diff_size t) (alloc t []).1 name1 name2
      (mkWorld (alloc t []).2 rs o) =
    Done () (mkWorld (alloc t []).2 rs' (o +:+ text)).
Proof.
  intros Hdist Hscan.
  destruct (alloc_spec t [] Hscan) as (ext & d & _ & Hd & Hdom & Hp).
  apply (PrintGitStyleDiffV2_prints green red yellow cyan bold Sprintf_q
           Sprintf_v Marshal MarshalIndent Sscanf_index _ _ _ d); [done| |].
  - unfold topLevelDistinct.
    by rewrite (mapKeys_Permutation (nodeChildren d) (Children t)).
  - by apply (printable_mono_height _ (diff_size t)); [lia|].
Qed.

End Fresh.

Lemma PrintGitStyleDiffV2_fresh_tree_witness :
  ∃ text, ∀ rs o, ∃ rs',
    PrintGitStyleDiffV2 plain plain plain plain plain printsNothing printsNothing
      printsNothing marshalsNothing scansDigit
      (diff_size (Compare (NewDiffer None false) shifted1 shifted2))
      (alloc (Compare (NewDiffer None false) shifted1 shifted2) []).1 "a" "b"
      (mkWorld (alloc (Compare (NewDiffer None false) shifted1 shifted2) []).2
               rs o) =
    Done () (mkWorld (alloc (Compare (NewDiffer None false) shifted1 shifted2) []).2
                     rs' (o +:+ text)).
Proof.
  apply (PrintGitStyleDiffV2_fresh_tree plain plain plain plain plain
           printsNothing printsNothing printsNothing marshalsNothing scansDigit
           (Compare (NewDiffer None false) shifted1 shifted2) "a" "b").
  - apply (bool_decide_unpack _). vm_compute. exact I.
  - vm_compute. reflexivity.
Defined.

(** * The grouped renderer *)




Lemma Compare_self d (a : gmap string Value) :
  wellFormed (VObject a) = true →
  Compare d a a = mkDiff "" DiffTypeEqual VNull VNull ∅.
Proof.
  intros Hwf. unfold Compare.
  apply (container_eq ""); [apply compareObjects_container|apply container_init|].
  intros key. simpl. rewrite lookup_empty.
  pose proof (compareValues_refl d (VObject a) "" Hwf) as Heq.
  rewrite compareValues_unfold in Heq. simpl in Heq.
  by apply (container_Equal_iff "" _ (compareObjects_container d a a "")).
Qed.

Section Both.

Context (green red yellow cyan bold : Color).
Context (Sprintf_q : string → string).
Context (Sprintf_v : Value → string).
Context (Marshal : Value → string).
Context (MarshalIndent : Value → string → option string).
Context (Sscanf_index : string → Z).
Context (sortByPath : list Diff → list Diff).

(** X25. For a well-formed document compared with itself, both renderers
    write the two lines of the header and the line [No differences found],
    and nothing else, whatever the configuration. *)
Theorem renderers_no_differences d (a : gmap string Value) name1 name2 rs :
  wellFormed (VObject a) = true →
  PrintGitStyleDiff green red yellow cyan bold Sprintf_q Sprintf_v MarshalIndent
    sortByPath (Compare d a a) name1 name2 (mkWorld [] rs "") =
    Done () (mkWorld [] rs (noDifferencesText green bold name1 name2)) ∧
  ∀ fuel,
    PrintGitStyleDiffV2 green red yellow cyan bold Sprintf_q Sprintf_v Marshal
      MarshalIndent Sscanf_index fuel (alloc (Compare d a a) []).1 name1 name2
      (mkWorld (alloc (Compare d a a) []).2 rs "") =
    Done () (mkWorld (alloc (Compare d a a) []).2 rs
               (noDifferencesText green bold name1 name2)).
Proof.
  intros Hwf. rewrite (Compare_self d a Hwf). split.
  - reflexivity.
  - intros fuel. reflexivity.
Qed.

End Both.

Lemma renderers_no_differences_witness :
  PrintGitStyleDiff plain plain plain plain plain printsNothing printsNothing
    marshalsNothing id (Compare (NewDiffer None false) sampleInstance sampleInstance)
    "a" "b" (mkWorld [] [] "") =
    Done () (mkWorld [] [] (noDifferencesText plain plain "a" "b")) ∧
  ∀ fuel,
    PrintGitStyleDiffV2 plain plain plain plain plain printsNothing printsNothing
      printsNothing marshalsNothing scansDigit fuel
      (alloc (Compare (NewDiffer None false) sampleInstance sampleInstance) []).1
      "a" "b"
      (mkWorld
         (alloc (Compare (NewDiffer None false) sampleInstance sampleInstance) []).2
         [] "") =
    Done () (mkWorld
               (alloc (Compare (NewDiffer None false) sampleInstance sampleInstance)
                  []).2
               [] (noDifferencesText plain plain "a" "b")).
Proof.
  apply (renderers_no_differences plain plain plain plain plain printsNothing
           printsNothing printsNothing marshalsNothing scansDigit id
           (NewDiffer None false) sampleInstance "a" "b" []).
  vm_compute. reflexivity.
Defined.

(** * The resource types of package gcp *)

Lemma ResourceTypes_tableType key rt :
  ResourceTypes !! key = Some rt → tableType rt = true.
Proof.
  intros H. apply elem_of_list_to_map_2 in H.
  repeat (apply elem_of_cons in H as [[= -> ->]|H]; [vm_compute; reflexivity|]).
  by apply elem_of_nil in H.
Qed.

Lemma spaceFree_app s1 s2 :
  spaceFree (s1 +:+ s2) = spaceFree s1 && spaceFree s2.
Proof.
  induction s1 as [|c s1 IH]; [done|].
  change (negb (asciiSpace c) && spaceFree (s1 +:+ s2) =
          negb (asciiSpace c) && spaceFree s1 && spaceFree s2).
  by rewrite IH, andb_assoc.
Qed.

Lemma fieldsFrom_spaceFree s :
  spaceFree s = true →
  fieldsFrom s = (if decide (s = EmptyString) then None else Some s, []).
Proof.
  induction s as [|c s IH]; [done|]. simpl.
  intros [Hc Hs]%andb_prop. apply negb_true_iff in Hc. rewrite Hc, (IH Hs).
  destruct (decide (s = EmptyString)) as [->|]; by simpl.
Qed.

Lemma Fields_spaceFree s :
  spaceFree s = true → s ≠ EmptyString → Fields s = [s].
Proof.
  intros Hs Hne. unfold Fields. rewrite fieldsFrom_spaceFree by done.
  by destruct (decide _).
Qed.

Lemma Fields_flag key value :
  spaceFree key = true → spaceFree value = true →
  Fields ("--" +:+ key +:+ "=" +:+ value) = ["--" +:+ key +:+ "=" +:+ value].
Proof.
  intros Hk Hv. apply Fields_spaceFree; [|done].
  change (spaceFree (key +:+ "=" +:+ value) = true).
  by rewrite !spaceFree_app, Hk, Hv.
Qed.

Lemma Fields_project project :
  spaceFree project = true →
  Fields ("--project=" +:+ project) = ["--project=" +:+ project].
Proof. intros Hp. by apply Fields_spaceFree. Qed.

Lemma typed_flags rangeFlags (required : list string) (flags : gmap string string) :
  yieldsEntries rangeFlags →
  required ∈ [[]; ["zone"]; ["region"]] →
  (∀ k v, flags !! k = Some v → k ∈ required ∧ spaceFree v = true) →
  ∃ fl : list string,
    (∀ args,
       foldl (λ args flagName,
                match flags !! flagName with
                | Some flagValue =>
                    if bool_decide (flagValue ≠ "")
                    then args ++ ["--" +:+ flagName +:+ "=" +:+ flagValue]
                    else args
                | None => args
                end) args required = args ++ fl) ∧
    (rangeFlags flags ≫= λ entry, flagPart entry ≫= Fields) = fl ∧
    existsb (λ part, HasPrefix part "--format=") fl = false.
Proof.
  intros Hrange Hreq Hflags. unfold yieldsEntries in Hrange.
  assert (∀ f, required = [f] → f = "zone" ∨ f = "region") as Hf.
  { intros f ->. rewrite !elem_of_cons, elem_of_nil in Hreq.
    destruct Hreq as [?|[[= ->]|[[= ->]|[]]]]; auto; done. }
  assert (∀ f v, required = [f] → flags !! f = Some v →
                 rangeFlags flags = [(f, v)]) as Hone.
  { intros f v -> Hv. apply Permutation_singleton_r.
    rewrite Hrange. assert (flags = {[f := v]}) as ->.
    { apply map_eq. intros k. destruct (decide (k = f)) as [->|Hne].
      - by rewrite lookup_singleton_eq.
      - rewrite lookup_singleton_ne by done.
        destruct (flags !! k) as [v'|] eqn:Hk; [|done].
        apply Hflags in Hk as [Hk _]. apply list_elem_of_singleton in Hk. done. }
    by rewrite map_to_list_singleton. }
  assert ((∀ k, k ∉ required) ∨ (∀ k, k ∈ required → flags !! k = None) →
          rangeFlags flags = []) as Hnone.
  { intros Hno. apply Permutation_nil_r. rewrite Hrange.
    assert (flags = ∅) as ->; [|by rewrite map_to_list_empty].
    apply map_empty. intros k. destruct (flags !! k) as [v|] eqn:Hk; [|done].
    destruct (Hflags k v Hk) as [Hin _].
    destruct Hno as [Hno|Hno]; [by apply Hno in Hin|]. by rewrite Hno in Hk. }
  destruct required as [|f [|]]; [| |exfalso].
  - exists []. rewrite Hnone by (left; intros k ?%elem_of_nil; done).
    split; [by intros args; rewrite app_nil_r|done].
  - destruct (flags !! f) as [v|] eqn:Hv.
    + rewrite (Hone f v eq_refl Hv). destruct (Hflags f v Hv) as [_ Hsv].
      destruct (decide (v = "")) as [->|Hne].
      * exists []. split; [|done]. intros args. simpl. rewrite Hv.
        by rewrite app_nil_r.
      * exists ["--" +:+ f +:+ "=" +:+ v]. split; [|split].
        -- intros args. simpl. rewrite Hv. by rewrite bool_decide_eq_true_2.
        -- rewrite bind_singleton. unfold flagPart. simpl.
           rewrite bool_decide_eq_true_2 by done. rewrite bind_singleton.
           apply Fields_flag; [|done]. by destruct (Hf f eq_refl) as [->| ->].
        -- by destruct (Hf f eq_refl) as [->| ->].
    + exists []. rewrite Hnone.
      * split; [|done]. intros args. simpl. by rewrite Hv, app_nil_r.
      * right. by intros k ->%list_elem_of_singleton.
  - rewrite !elem_of_cons, elem_of_nil in Hreq.
    destruct Hreq as [?|[?|[?|[]]]]; done.
Qed.

(** X26. For a resource type of the table that is described with
    [describe], a name of one word that does not begin with [--format=], a
    project without spaces and flags that the type requires,
    [FetchResource] does what [FetchResourceGeneric] does with the command
    that [buildGcloudCommand] builds from the service and the resource of
    the type: [gcloud] gets the same arguments and the result is the
    same. *)
Theorem FetchResource_as_generic CombinedOutput jsonUnmarshal rangeFlags call
    key rt name project flags :
  ResourceTypes !! key = Some rt →
  DescribeCommand rt = "describe" →
  yieldsEntries rangeFlags →
  spaceFree name = true → name ≠ "" → HasPrefix name "--format=" = false →
  spaceFree project = true →
  (∀ k v, flags !! k = Some v → k ∈ RequiredFlags rt ∧ spaceFree v = true) →
  isASCII (buildGcloudCommand rangeFlags (Service rt +:+ " " +:+ Resource rt)
             name project flags) = true →
  FetchResource CombinedOutput jsonUnmarshal call rt name project flags =
  FetchResourceGeneric CombinedOutput jsonUnmarshal call
    (buildGcloudCommand rangeFlags (Service rt +:+ " " +:+ Resource rt)
       name project flags).
Proof.
  intros Hrt Hdesc Hrange Hname Hname' Hfmt Hproj Hflags _.
  apply ResourceTypes_tableType in Hrt. unfold tableType in Hrt.
  apply andb_prop in Hrt as [Hrt Hreq]. apply andb_prop in Hrt as [Hrt Hwords].
  apply andb_prop in Hrt as [HS HS']. apply negb_true_iff in Hwords, HS'.
  apply bool_decide_eq_true in Hreq. apply String.eqb_neq in HS'.
  destruct (typed_flags rangeFlags (RequiredFlags rt) flags Hrange Hreq Hflags)
    as (fl & Htyped & Hgeneric & Hflfmt).
  unfold FetchResource, FetchResourceGeneric, buildGcloudCommand. cbv zeta.
  rewrite Fields_command, Htyped, Hgeneric, Hdesc.
  rewrite Fields_app_space, (Fields_spaceFree (Service rt)) by done.
  rewrite (Fields_spaceFree name) by done.
  change (Fields "describe") with ["describe"].
  assert ((if bool_decide (project ≠ "")
           then Fields ("--project=" +:+ project) else []) =
          (if bool_decide (project ≠ "")
           then ["--project=" +:+ project] else [])) as ->.
  { case_bool_decide; [by apply Fields_project|done]. }
  rewrite (bool_decide_eq_false_2 (length _ = 0))
    by (rewrite !length_app; simpl; lia).
  assert (existsb (λ part, HasPrefix part "--format=")
            (([Service rt] ++ Fields (Resource rt)) ++ ["describe"] ++ [name] ++
             (if bool_decide (project ≠ "")
              then ["--project=" +:+ project] else []) ++ fl) = false) as ->.
  { rewrite existsb_app, Hwords, !existsb_app, Hflfmt. simpl. rewrite Hfmt.
    by case_bool_decide. }
  simpl negb. cbv iota.
  assert (∀ X : list string,
    (if bool_decide (project ≠ "")
     then ((([Service rt] ++ Fields (Resource rt)) ++ ["describe"]) ++ [name]) ++
          ["--project=" +:+ project]
     else (([Service rt] ++ Fields (Resource rt)) ++ ["describe"]) ++ [name]) ++ X =
    ([Service rt] ++ Fields (Resource rt)) ++ ["describe"] ++ [name] ++
    (if bool_decide (project ≠ "") then ["--project=" +:+ project] else []) ++ X)
    as Hassoc.
  { intros X. case_bool_decide; by rewrite <-?app_assoc. }
  by rewrite <-app_assoc, Hassoc, <-!app_assoc.
Qed.

Lemma FetchResource_as_generic_witness :
  FetchResource printsNull nullDocument 0
    (mkResourceType "compute" "instances" "describe" ["zone"])
    "vm-1" "proj" {[ "zone" := "us-central1-a" ]} =
  FetchResourceGeneric printsNull nullDocument 0
    (buildGcloudCommand rangeInOrder
       (Service (mkResourceType "compute" "instances" "describe" ["zone"]) +:+
        " " +:+
        Resource (mkResourceType "compute" "instances" "describe" ["zone"]))
       "vm-1" "proj" {[ "zone" := "us-central1-a" ]}).
Proof.
  apply (FetchResource_as_generic printsNull nullDocument rangeInOrder 0
           "compute" (mkResourceType "compute" "instances" "describe" ["zone"])
           "vm-1" "proj" {[ "zone" := "us-central1-a" ]}).
  - reflexivity.
  - reflexivity.
  - intros flags. reflexivity.
  - reflexivity.
  - discriminate.
  - reflexivity.
  - reflexivity.
  - intros k v [-> <-]%lookup_singleton_Some. split; [left|reflexivity].
  - vm_compute. reflexivity.
Defined.
